(** * Hybrid commands ([discord/ext/commands/hybrid.py])

    A shallow embedding of the hybrid command layer: the ordered check
    chain of the application-command adapter, the error classification
    of the unified entry point, the synthesized converter transformers,
    and the registration of children in hybrid groups. *)

From stdpp Require Import gmap strings list fin_maps.

(** ** Python objects, exceptions and results *)

(** Object identity ([is], [is not]) is equality of references. *)
Abbreviation ref := nat (only parsing).

(** The exception classes the module names or meets.  [BaseException] is
    the root; [KeyboardInterrupt], [SystemExit] and [CancelledError]
    ([asyncio.CancelledError], raised into an awaiting coroutine whose task
    is cancelled) derive from it directly and are no instances of
    [Exception]. *)
Inductive exc_class :=
| BaseException
| KeyboardInterrupt
| SystemExit
| CancelledError
| Exception
| TypeError
| ValueError
| AttributeError
| KeyError
| RuntimeError
| DiscordException
| ClientException
| CommandRegistrationError
| AppCommandError
| CommandSignatureMismatch
| TransformerError
| AppCommandInvokeError
| CommandAlreadyRegistered
| CommandError
| ConversionError
| HybridCommandError
| CheckFailure
| UserInputError
| BadArgument.

#[global] Instance exc_class_eq_dec : EqDecision exc_class.
Proof. solve_decision. Defined.

(** Modelled from the spec: the error taxonomy of section 7.  The class
    statements live in [errors.py] and [app_commands/errors.py], which are
    not part of the sources; [hybrid.py] only imports the names.  The
    signature mismatch and the transformer error are structured-system
    errors, the conversion failure and the unified error are command-level
    errors. *)
Definition base_class (c : exc_class) : option exc_class :=
  match c with
  | BaseException => None
  | KeyboardInterrupt | SystemExit | CancelledError => Some BaseException
  | Exception => Some BaseException
  | TypeError | ValueError | AttributeError | KeyError | RuntimeError => Some Exception
  | DiscordException => Some Exception
  | ClientException => Some DiscordException
  | CommandRegistrationError => Some ClientException
  | AppCommandError => Some DiscordException
  | CommandSignatureMismatch | TransformerError
  | AppCommandInvokeError | CommandAlreadyRegistered => Some AppCommandError
  | CommandError => Some DiscordException
  | ConversionError | HybridCommandError | CheckFailure | UserInputError => Some CommandError
  | BadArgument => Some UserInputError
  end.

Fixpoint issubclass_fuel (fuel : nat) (c d : exc_class) : bool :=
  if decide (c = d) then true
  else match fuel with
       | 0 => false
       | S fuel' =>
           match base_class c with
           | Some b => issubclass_fuel fuel' b d
           | None => false
           end
       end.

(** The longest chain of base classes has five steps, from [BadArgument]
    up to [BaseException]. *)
Definition issubclass (c d : exc_class) : bool := issubclass_fuel 5 c d.

(** An exception object: its class, its constructor arguments and its
    [__cause__].  A message that is an f-string is recorded by its parts
    in order, the literal text and the formatted values; the two values
    the module formats are the qualified name of a command, a property
    that [core.py] computes and that is not part of the sources, and the
    class of an object. *)
#[local] Unset Elimination Schemes.
Inductive exn :=
| Exn (cls : exc_class) (args : list exc_arg) (cause : option exn)
with exc_arg :=
| ArgStr (s : string)
| ArgBool (b : bool)
| ArgObj (r : ref)
| ArgExc (e : exn)
| ArgQualifiedName (r : ref)   (* {r.qualified_name!r} *)
| ArgClassOf (r : ref).        (* {r.__class__} *)
#[local] Set Elimination Schemes.

Definition exc_type (e : exn) : exc_class := let 'Exn c _ _ := e in c.
Definition exc_args (e : exn) : list exc_arg := let 'Exn _ a _ := e in a.
Definition exc_cause (e : exn) : option exn := let 'Exn _ _ c := e in c.

(** [exc.__cause__ = c] *)
Definition set_cause (e : exn) (c : exn) : exn :=
  let 'Exn cls a _ := e in Exn cls a (Some c).

Definition isinstance (e : exn) (c : exc_class) : bool := issubclass (exc_type e) c.


Inductive result (A : Type) :=
| Ok (a : A)
| Raise (e : exn).
Arguments Ok {A} a.
Arguments Raise {A} e.

(** Values that flow through callbacks and converters. *)
Inductive pyobj :=
| PyNone
| PyStr (s : string)
| PyInt (z : Z)
| PyRef (r : ref).

(** ** The check chain of the adapter *)

Module Checks.

(** The points at which [_check_can_run] calls out. *)
Inductive check_point :=
| BotCheckOnce
| BotCheck
| ParentInteractionCheck
| BindingInteractionCheck
| BindingCogCheck
| LocalInteractionCheck (i : nat)
| LocalCommandCheck (i : nat).

(** A computation that records the checks it ran. *)
Definition M (A : Type) : Type := list check_point * result A.

Definition ret {A} (a : A) : M A := ([], Ok a).

Definition bind {A B} (m : M A) (k : A → M B) : M B :=
  match m with
  | (t, Ok a) => let '(t', r) := k a in (t ++ t', r)
  | (t, Raise e) => (t, Raise e)
  end.

Notation "'do' x <- m ; k" := (bind m (λ x, k))
  (at level 10, x name, m at level 100, k at level 200).

(** [await maybe_coroutine(f, arg)]: the call is recorded, its outcome
    is what the callable yields. *)
Definition call (p : check_point) (outcome : result bool) : M bool := ([p], outcome).

(** [discord.utils.async_all] over a generator: elements are produced
    one by one and the first falsy one stops the iteration. *)
Fixpoint async_all (gen : list (M bool)) : M bool :=
  match gen with
  | [] => ret true
  | elem :: gen' =>
      do b <- elem;
      if b then async_all gen' else ret false
  end.

Record Bot := {
  can_run_once : result bool;      (* bot.can_run(ctx, call_once=True) *)
  can_run : result bool            (* bot.can_run(ctx) *)
}.

(** [self.parent], an application-command group. *)
Record Parent := {
  parent_id : ref;
  parent_interaction_check : result bool
}.

(** [self.binding], the cog of the wrapped command
    ([self.binding = wrapped.cog]).  [interaction_check] is [None] when
    the attribute retrieval raises [AttributeError]; [cog_check], an
    attribute every [Cog] has, is what
    [Cog._get_overridden_method(self.binding.cog_check)] returns. *)
Record Binding := {
  binding_id : ref;
  interaction_check : option (result bool);
  cog_check : option (result bool)
}.

Record HybridAppCommand := {
  parent : option Parent;
  binding : option Binding;
  checks : list (result bool);          (* self.checks *)
  wrapped_checks : list (result bool)   (* self.wrapped.checks *)
}.

(** [self.parent is not self.binding] *)
Definition is_not_binding (p : Parent) (b : option Binding) : bool :=
  match b with
  | Some b => negb (bool_decide (parent_id p = binding_id b))
  | None => true
  end.

(** [f(arg) for f in fs], the [i]-th call recorded at [mk i]. *)
Definition generator (mk : nat → check_point) (fs : list (result bool)) : list (M bool) :=
  imap (λ i f, call (mk i) f) fs.

(** Python truthiness of a list. *)
Definition nonempty {A} (l : list A) : bool :=
  match l with [] => false | _ => true end.

(** [HybridAppCommand._check_can_run].  Each [if not ...: return False]
    is a [bind] whose continuation is left on [false]. *)
Definition _check_can_run (bot : Bot) (self : HybridAppCommand) : M bool :=
  do ok <- call BotCheckOnce (can_run_once bot);
  if negb ok then ret false else
  do ok <- call BotCheck (can_run bot);
  if negb ok then ret false else
  do ok <- match parent self with
           | Some p =>
               if is_not_binding p (binding self)
               then call ParentInteractionCheck (parent_interaction_check p)
               else ret true
           | None => ret true
           end;
  if negb ok then ret false else
  do ok <- match binding self with
           | Some b =>
               do ret_ <- match interaction_check b with
                          | None => ret true
                          | Some check => call BindingInteractionCheck check
                          end;
               if negb ret_ then ret false else
               match cog_check b with
               | Some local_check => call BindingCogCheck local_check
               | None => ret true
               end
           | None => ret true
           end;
  if negb ok then ret false else
  do ok <- (if nonempty (checks self)
            then async_all (generator LocalInteractionCheck (checks self))
            else ret true);
  if negb ok then ret false else
  do ok <- (if nonempty (wrapped_checks self)
            then async_all (generator LocalCommandCheck (wrapped_checks self))
            else ret true);
  if negb ok then ret false else
  ret true.

(** The chain as section 4.1 words it: the applicable checks, in
    order, each with what it answers. *)
Definition check_chain (bot : Bot) (self : HybridAppCommand)
  : list (check_point * result bool) :=
  [(BotCheckOnce, can_run_once bot); (BotCheck, can_run bot)]
  ++ match parent self with
     | Some p =>
         if is_not_binding p (binding self)
         then [(ParentInteractionCheck, parent_interaction_check p)]
         else []
     | None => []
     end
  ++ match binding self with
     | Some b =>
         match interaction_check b with
         | Some c => [(BindingInteractionCheck, c)]
         | None => []
         end
         ++ match cog_check b with
            | Some c => [(BindingCogCheck, c)]
            | None => []
            end
     | None => []
     end
  ++ imap (λ i c, (LocalInteractionCheck i, c)) (checks self)
  ++ imap (λ i c, (LocalCommandCheck i, c)) (wrapped_checks self).

Definition passes (c : check_point * result bool) : Prop := c.2 = Ok true.

(** Run a chain of checks up to the first one that does not pass. *)
Definition run_chain (chain : list (check_point * result bool)) : M bool :=
  async_all (map (λ c, call c.1 c.2) chain).

(** [if not await m: return False] followed by [k]. *)
Definition and_then (m k : M bool) : M bool :=
  bind m (λ ok, if negb ok then ret false else k).

End Checks.

(** ** Converters and their synthesized transformers *)

(** The invocation context built by [bot.get_context]. *)
Abbreviation Context := nat (only parsing).

Module Converters.

(** A converter as the module sees it: what the reflective tests
    answer on it and what calling it yields. *)
Record converter := {
  conv_id : ref;
  isclass : bool;                  (* inspect.isclass(converter) *)
  issubclass_Converter : bool;     (* issubclass(converter, Converter) *)
  isinstance_Converter : bool;     (* isinstance(converter, Converter) *)
  convert_ismethod : bool;         (* inspect.ismethod(converter.convert) *)
  construct : result unit;         (* converter() *)
  convert : Context → string → result pyobj;
  has_transformer : bool           (* hasattr(converter, '__discord_app_commands_transformer__') *)
}.

(** [is_converter] *)
Definition is_converter (c : converter) : bool :=
  (isclass c && issubclass_Converter c) || isinstance_Converter c.

(** Modelled from the spec: [ConversionError(converter, original)] of
    [errors.py], which is not part of the sources: a conversion-failure
    error carrying the original helper and the original exception. *)
Definition new_ConversionError (c : converter) (original : exn) : exn :=
  Exn ConversionError [ArgObj (conv_id c); ArgExc original] None.

(** The body of the [try] in [transform]. *)
Definition call_converter (c : converter) (ctx : Context) (value : string)
  : result pyobj :=
  if isclass c && issubclass_Converter c then
    if convert_ismethod c then convert c ctx value
    else match construct c with
         | Ok _ => convert c ctx value
         | Raise e => Raise e
         end
  else if isinstance_Converter c then convert c ctx value
  else Ok PyNone.

(** The [transform] classmethod that [make_converter_transformer]
    closes over [converter]. *)
Definition transform (c : converter) (ctx : Context) (value : string)
  : result pyobj :=
  match call_converter c ctx value with
  | Ok v => Ok v
  | Raise e =>
      if isinstance e CommandError then Raise e
      else if isinstance e Exception
           then Raise (set_cause (new_ConversionError c e) e)
           else Raise e
  end.

(** When [call_converter] has to build an instance first. *)
Definition needs_instance (c : converter) : bool :=
  isclass c && issubclass_Converter c && negb (convert_ismethod c).

(** An annotation of a callback parameter: one the callback wrote, or
    the [ConverterTransformer] class synthesized for a converter. *)
Inductive annotation :=
| Annotation (a : ref)
| ConverterTransformer (c : converter).

(** [make_converter_transformer] *)
Definition make_converter_transformer (c : converter) : annotation :=
  ConverterTransformer c.

(** [inspect.Parameter] *)
Record inspect_Parameter := {
  ip_name : string;
  ip_kind : nat;
  ip_default : option pyobj;
  ip_annotation : annotation
}.

(** [inspect.Parameter.replace(annotation=...)] *)
Definition replace_annotation (p : inspect_Parameter) (a : annotation)
  : inspect_Parameter :=
  {| ip_name := ip_name p; ip_kind := ip_kind p;
     ip_default := ip_default p; ip_annotation := a |}.

(** [commands.Parameter], of which only the converter is read. *)
Record commands_Parameter := { param_converter : converter }.

(** Insertion-ordered dictionaries. *)
Fixpoint dict_get {V} (k : string) (d : list (string * V)) : option V :=
  match d with
  | [] => None
  | (k', v) :: d' => if decide (k = k') then Some v else dict_get k d'
  end.

(** [d[k] = v]: an existing key keeps its position, a new one goes last. *)
Fixpoint dict_set {V} (k : string) (v : V) (d : list (string * V))
  : list (string * V) :=
  match d with
  | [] => [(k, v)]
  | (k', v') :: d' =>
      if decide (k = k') then (k', v) :: d' else (k', v') :: dict_set k v d'
  end.

(** The test of the loop body of [replace_parameters]. *)
Definition wants_transformer (parameter : commands_Parameter) : bool :=
  is_converter (param_converter parameter)
  && negb (has_transformer (param_converter parameter)).

(** The loop of [replace_parameters] over [parameters.items()];
    [params[name]] on a missing name raises [KeyError]. *)
Fixpoint replace_loop (items : list (string * commands_Parameter))
    (params : list (string * inspect_Parameter))
  : result (list (string * inspect_Parameter)) :=
  match items with
  | [] => Ok params
  | (name, parameter) :: items' =>
      if wants_transformer parameter then
        match dict_get name params with
        | None => Raise (Exn KeyError [ArgStr name] None)
        | Some p =>
            replace_loop items'
              (dict_set name
                 (replace_annotation p
                    (make_converter_transformer (param_converter parameter)))
                 params)
        end
      else replace_loop items' params
  end.

(** [replace_parameters] *)
Definition replace_parameters (parameters : list (string * commands_Parameter))
    (signature : list (string * inspect_Parameter))
  : result (list inspect_Parameter) :=
  match replace_loop parameters signature with
  | Ok params => Ok params.*2
  | Raise e => Raise e
  end.

(** The claim's words for the converters that get a transformer: the
    converter is recognized as a conversion helper, a [Converter]
    subclass or a [Converter] instance, and declares no
    structured-system transformer of its own. *)
Definition calls_for_transformer (c : converter) : Prop :=
  ((isclass c = true ∧ issubclass_Converter c = true)
   ∨ isinstance_Converter c = true)
  ∧ has_transformer c = false.

(** What the replacement step is to do with one parameter of the
    callback. *)
Definition replaced (parameters : list (string * commands_Parameter))
    (entry : string * inspect_Parameter) : inspect_Parameter :=
  match dict_get entry.1 parameters with
  | Some parameter =>
      if wants_transformer parameter
      then replace_annotation entry.2
             (ConverterTransformer (param_converter parameter))
      else entry.2
  | None => entry.2
  end.

End Converters.

(** ** The unified entry point *)

Module Invoke.

(** The collaborators of one structured-path invocation. *)
Record invocation := {
  get_context : result Context;          (* await bot.get_context(interaction) *)
  prepare : Context → result unit;       (* await self.wrapped.prepare(ctx) *)
  _do_call : Context → result pyobj;     (* await self._do_call(ctx, ctx.kwargs) *)
  dispatch_error : Context → exn → result unit
                                         (* await self.wrapped.dispatch_error(ctx, exc) *)
}.

(** Modelled from the spec: [HybridCommandError(original)] of
    [errors.py], which is not part of the sources: the unified error
    type, retaining the structured-system error it wraps. *)
Definition new_HybridCommandError (original : exn) : exn :=
  Exn HybridCommandError [ArgExc original] None.

(** What the [except] clauses make of an exception: [Raise] when it
    leaves the function, [Ok exc] when [exc] goes on to the dispatch. *)
Definition handle (e : exn) : result exn :=
  if isinstance e CommandSignatureMismatch then Raise e
  else if isinstance e TransformerError then
    match exc_cause e with
    | Some cause =>
        if isinstance cause CommandError then Ok cause
        else Ok (set_cause (new_HybridCommandError e) e)
    | None => Ok (set_cause (new_HybridCommandError e) e)
    end
  else if isinstance e AppCommandError then
    Ok (set_cause (new_HybridCommandError e) e)
  else if isinstance e CommandError then Ok e
  else Raise e.

(** The body of the [try]. *)
Definition guarded (inv : invocation) (ctx : Context) : result pyobj :=
  match prepare inv ctx with
  | Ok _ => _do_call inv ctx
  | Raise e => Raise e
  end.

(** An awaited call as the last statement of a function: what it
    raises reaches the caller, and when it returns the function falls
    off its end and returns [None]. *)
Definition returns_None (r : result unit) : result pyobj :=
  match r with
  | Ok _ => Ok PyNone
  | Raise e => Raise e
  end.

(** [HybridAppCommand._invoke_with_namespace]: the errors handed to
    [self.wrapped.dispatch_error], and what the caller gets.  The
    context is built before the [try], so that a failure of
    [bot.get_context] meets no [except] clause. *)
Definition _invoke_with_namespace (inv : invocation)
  : list (Context * exn) * result pyobj :=
  match get_context inv with
  | Raise e => ([], Raise e)
  | Ok ctx =>
      match guarded inv ctx with
      | Ok v => ([], Ok v)
      | Raise e =>
          match handle e with
          | Raise e' => ([], Raise e')
          | Ok exc => ([(ctx, exc)], returns_None (dispatch_error inv ctx exc))
          end
      end
  end.

End Invoke.

(** ** Wrappers, adapters and the registration of children *)

Module Registry.

(** The command classes of the prefix system and their hybrid
    subclasses. *)
Inductive wrapper_class :=
| Command
| Group
| HybridCommand
| HybridGroup.

#[global] Instance wrapper_class_eq_dec : EqDecision wrapper_class.
Proof. solve_decision. Defined.

(** [isinstance(command, (HybridCommand, HybridGroup))] *)
Definition is_hybrid (c : wrapper_class) : bool :=
  match c with
  | HybridCommand | HybridGroup => true
  | Command | Group => false
  end.

(** [isinstance(command, HybridGroup)] *)
Definition is_HybridGroup (c : wrapper_class) : bool :=
  match c with
  | HybridGroup => true
  | _ => false
  end.

(** A command or group of the prefix system (the wrapper).  Plain
    commands have no [app_command] attribute. *)
Record wrapper := {
  w_class : wrapper_class;
  w_name : string;
  w_aliases : list string;
  w_description : string;
  w_short_doc : string;
  w_parent : option ref;
  w_cog : option ref;                    (* self._cog *)
  w_app_command : option ref;
  w_all_commands : gmap string ref       (* groups: name or alias to child *)
}.

Inductive adapter_class :=
| AppCommand       (* HybridAppCommand *)
| AppGroup.        (* app_commands.Group *)

(** A command or group of the structured system (the adapter). *)
Record adapter := {
  a_class : adapter_class;
  a_name : string;
  a_description : string;
  a_guild_ids : option (list Z);
  a_parent : option ref;
  a_binding : option ref;
  a_wrapped : option ref;
  a_children : gmap string ref           (* groups: name to child adapter *)
}.

(** The objects alive, by reference. *)
Record heap := {
  wrappers : gmap ref wrapper;
  adapters : gmap ref adapter;
  next_ref : ref
}.

Definition empty_heap : heap :=
  {| wrappers := ∅; adapters := ∅; next_ref := 0 |}.

(** Attribute assignments. *)
Definition set_w_parent (v : option ref) (w : wrapper) : wrapper :=
  {| w_class := w_class w; w_name := w_name w; w_aliases := w_aliases w;
     w_description := w_description w; w_short_doc := w_short_doc w;
     w_parent := v; w_cog := w_cog w; w_app_command := w_app_command w;
     w_all_commands := w_all_commands w |}.

Definition set_w_cog (v : option ref) (w : wrapper) : wrapper :=
  {| w_class := w_class w; w_name := w_name w; w_aliases := w_aliases w;
     w_description := w_description w; w_short_doc := w_short_doc w;
     w_parent := w_parent w; w_cog := v; w_app_command := w_app_command w;
     w_all_commands := w_all_commands w |}.

Definition set_w_app_command (v : option ref) (w : wrapper) : wrapper :=
  {| w_class := w_class w; w_name := w_name w; w_aliases := w_aliases w;
     w_description := w_description w; w_short_doc := w_short_doc w;
     w_parent := w_parent w; w_cog := w_cog w; w_app_command := v;
     w_all_commands := w_all_commands w |}.

Definition set_w_all_commands (v : gmap string ref) (w : wrapper) : wrapper :=
  {| w_class := w_class w; w_name := w_name w; w_aliases := w_aliases w;
     w_description := w_description w; w_short_doc := w_short_doc w;
     w_parent := w_parent w; w_cog := w_cog w; w_app_command := w_app_command w;
     w_all_commands := v |}.

Definition set_a_parent (v : option ref) (a : adapter) : adapter :=
  {| a_class := a_class a; a_name := a_name a; a_description := a_description a;
     a_guild_ids := a_guild_ids a; a_parent := v; a_binding := a_binding a;
     a_wrapped := a_wrapped a; a_children := a_children a |}.

Definition set_a_binding (v : option ref) (a : adapter) : adapter :=
  {| a_class := a_class a; a_name := a_name a; a_description := a_description a;
     a_guild_ids := a_guild_ids a; a_parent := a_parent a; a_binding := v;
     a_wrapped := a_wrapped a; a_children := a_children a |}.

Definition set_a_wrapped (v : option ref) (a : adapter) : adapter :=
  {| a_class := a_class a; a_name := a_name a; a_description := a_description a;
     a_guild_ids := a_guild_ids a; a_parent := a_parent a; a_binding := a_binding a;
     a_wrapped := v; a_children := a_children a |}.

Definition set_a_children (v : gmap string ref) (a : adapter) : adapter :=
  {| a_class := a_class a; a_name := a_name a; a_description := a_description a;
     a_guild_ids := a_guild_ids a; a_parent := a_parent a; a_binding := a_binding a;
     a_wrapped := a_wrapped a; a_children := v |}.

(** Code over the heap: it leaves a heap behind also when it raises.
    [None] is a reference to no object, which Python does not have. *)
Definition M (A : Type) : Type := heap → option (heap * result A).

Definition ret {A} (a : A) : M A := λ h, Some (h, Ok a).

Definition raise {A} (e : exn) : M A := λ h, Some (h, Raise e).

Definition bind {A B} (m : M A) (k : A → M B) : M B :=
  λ h, match m h with
       | Some (h', Ok a) => k a h'
       | Some (h', Raise e) => Some (h', Raise e)
       | None => None
       end.

Notation "'do' x <- m ; k" := (bind m (λ x, k))
  (at level 10, x name, m at level 100, k at level 200).

Definition get_wrapper (r : ref) : M wrapper :=
  λ h, match wrappers h !! r with
       | Some w => Some (h, Ok w)
       | None => None
       end.

Definition get_adapter (r : ref) : M adapter :=
  λ h, match adapters h !! r with
       | Some a => Some (h, Ok a)
       | None => None
       end.

Definition put_wrapper (r : ref) (w : wrapper) : M unit :=
  λ h, Some ({| wrappers := <[r := w]> (wrappers h);
                adapters := adapters h; next_ref := next_ref h |}, Ok ()).

Definition put_adapter (r : ref) (a : adapter) : M unit :=
  λ h, Some ({| wrappers := wrappers h;
                adapters := <[r := a]> (adapters h);
                next_ref := next_ref h |}, Ok ()).

Definition modify_wrapper (r : ref) (f : wrapper → wrapper) : M unit :=
  do w <- get_wrapper r; put_wrapper r (f w).

Definition modify_adapter (r : ref) (f : adapter → adapter) : M unit :=
  do a <- get_adapter r; put_adapter r (f a).

(** A new object. *)
Definition alloc : M ref :=
  λ h, Some ({| wrappers := wrappers h; adapters := adapters h;
                next_ref := S (next_ref h) |}, Ok (next_ref h)).

(** [obj.app_command] *)
Definition getattr_app_command (r : ref) : M ref :=
  do w <- get_wrapper r;
  match w_app_command w with
  | Some a => ret a
  | None => raise (Exn AttributeError [ArgStr "app_command"] None)
  end.

(** Python's [a or b] on strings. *)
Definition str_or (a b : string) : string :=
  if decide (a = "") then b else a.

(** Python's [a or b] on optional lists. *)
Definition list_or {A} (a b : option (list A)) : option (list A) :=
  match a with
  | Some (_ :: _) => a
  | _ => b
  end.

(** [w.description or w.short_doc or '…'] *)
Definition mirrored_description (w : wrapper) : string :=
  str_or (w_description w) (str_or (w_short_doc w) "…").

(** *** The structured side

    [app_commands.Command] and [app_commands.Group] are not part of the
    sources; their constructors and the two registration methods are
    modelled on what section 3 and section 4.4 say of them. *)

Section structured_side.

(** Whether the structured system accepts a name.  The rule itself
    is the host framework's. *)
Variable valid_name : string → bool.

Definition validate_name (name : string) : M string :=
  if valid_name name then ret name
  else raise (Exn ValueError [ArgStr name] None).

(** Modelled from the spec: [app_commands.Command.__init__], which is
    not part of the sources: the new adapter keeps the name and the
    description it is given and has no parent. *)
Definition app_Command_init (name description : string) : M ref :=
  do name <- validate_name name;
  do r <- alloc;
  do _ <- put_adapter r
            {| a_class := AppCommand; a_name := name;
               a_description := description; a_guild_ids := None;
               a_parent := None; a_binding := None; a_wrapped := None;
               a_children := ∅ |};
  ret r.

(** Modelled from the spec: [app_commands.Group.__init__], which is not
    part of the sources: the new group adapter keeps the name, the
    description and the guild scoping it is given and has no
    children. *)
Definition app_Group_init (name description : string)
    (guild_ids : option (list Z)) : M ref :=
  do name <- validate_name name;
  do r <- alloc;
  do _ <- put_adapter r
            {| a_class := AppGroup; a_name := name;
               a_description := description; a_guild_ids := guild_ids;
               a_parent := None; a_binding := None; a_wrapped := None;
               a_children := ∅ |};
  ret r.

(** The keyword arguments of the two hybrid constructors, with what
    they read off the callback. *)
Record attrs := {
  attr_name : string;
  attr_aliases : list string;
  attr_description : string;
  attr_short_doc : string;
  attr_parent : option ref;
  attr_guild_ids : option (list Z);            (* guild_ids= *)
  attr_default_guilds : option (list Z)        (* callback.__discord_app_commands_default_guilds__ *)
}.

(** Modelled from the spec: [Command.__init__] of [core.py], which is
    not part of the sources: the new wrapper has the name, aliases,
    description and parent of its keyword arguments, no cog and no
    children. *)
Definition Command_init (cls : wrapper_class) (kw : attrs) : M ref :=
  do r <- alloc;
  do _ <- put_wrapper r
            {| w_class := cls; w_name := attr_name kw;
               w_aliases := attr_aliases kw;
               w_description := attr_description kw;
               w_short_doc := attr_short_doc kw;
               w_parent := attr_parent kw; w_cog := None;
               w_app_command := None; w_all_commands := ∅ |};
  ret r.

(** [HybridAppCommand.__init__]; the rewriting of the signature is
    [Converters.replace_parameters]. *)
Definition HybridAppCommand_init (wrapped : ref) : M ref :=
  do w <- get_wrapper wrapped;
  do self <- app_Command_init (w_name w) (mirrored_description w);
  do _ <- modify_adapter self (set_a_wrapped (Some wrapped));
  do w <- get_wrapper wrapped;
  do _ <- modify_adapter self (set_a_binding (w_cog w));
  ret self.

(** [HybridCommand.__init__] *)
Definition HybridCommand_init (kw : attrs) : M ref :=
  do self <- Command_init HybridCommand kw;
  do a <- HybridAppCommand_init self;
  do _ <- modify_wrapper self (set_w_app_command (Some a));
  ret self.

(** [HybridGroup.__init__] *)
Definition HybridGroup_init (kw : attrs) : M ref :=
  do self <- Command_init HybridGroup kw;
  do w <- get_wrapper self;
  do parent <- match w_parent w with
               | Some p =>
                   do pw <- get_wrapper p;
                   if is_HybridGroup (w_class pw)
                   then do pa <- getattr_app_command p; ret (Some pa)
                   else raise (Exn TypeError
                                 [ArgStr "HybridGroup parent must be HybridGroup not ";
                                  ArgClassOf p]
                                 None)
               | None => ret None
               end;
  do a <- app_Group_init (w_name w) (mirrored_description w)
            (list_or (attr_guild_ids kw) (attr_default_guilds kw));
  do _ <- modify_wrapper self (set_w_app_command (Some a));
  do _ <- modify_adapter a (set_a_parent parent);
  ret self.

End structured_side.

(** The [cog] property of [HybridCommand]. *)
Definition cog (self : ref) : M (option ref) :=
  do w <- get_wrapper self; ret (w_cog w).

Definition set_cog (self : ref) (value : option ref) : M unit :=
  do _ <- modify_wrapper self (set_w_cog value);
  do a <- getattr_app_command self;
  modify_adapter a (set_a_binding value).

(** [HybridAppCommand._copy_with]; [made] is the object that
    the [_copy_with] of the base class hands back, a new adapter. *)
Definition _copy_with (self : ref) (made : adapter) : M ref :=
  do copy <- alloc;
  do _ <- put_adapter copy made;
  do s <- get_adapter self;
  do _ <- modify_adapter copy (set_a_wrapped (a_wrapped s));
  ret copy.

(** Modelled from the spec: [app_commands.Group.add_command], which is
    not part of the sources: groups nest at most one level, names are
    unique in a group, and the child is entered under its name with the
    group as its parent. *)
Definition app_Group_add_command (self command : ref) : M unit :=
  do c <- get_adapter command;
  do g <- get_adapter self;
  match a_class c, a_parent g with
  | AppGroup, Some _ =>
      raise (Exn ValueError [ArgStr (a_name c); ArgStr "is too nested"] None)
  | _, _ =>
      match a_children g !! a_name c with
      | Some _ => raise (Exn CommandAlreadyRegistered [ArgStr (a_name c)] None)
      | None =>
          do _ <- modify_adapter self
                    (λ g, set_a_children (<[a_name c := command]> (a_children g)) g);
          modify_adapter command (set_a_parent (Some self))
      end
  end.

(** Modelled from the spec: [app_commands.Group.remove_command], which
    is not part of the sources: the child under the name, if any, is
    taken out and returned. *)
Definition app_Group_remove_command (self : ref) (name : string) : M (option ref) :=
  do g <- get_adapter self;
  do _ <- put_adapter self (set_a_children (delete name (a_children g)) g);
  ret (a_children g !! name).

(** [name in self.all_commands] *)
Definition all_commands_contains (self : ref) (name : string) : M bool :=
  do w <- get_wrapper self;
  ret (bool_decide (is_Some (w_all_commands w !! name))).

(** [self.all_commands[name] = command] *)
Definition all_commands_set (self : ref) (name : string) (command : ref) : M unit :=
  modify_wrapper self
    (λ w, set_w_all_commands (<[name := command]> (w_all_commands w)) w).

(** [self.all_commands.pop(name, None)] *)
Definition all_commands_pop (self : ref) (name : string) : M (option ref) :=
  do w <- get_wrapper self;
  do _ <- put_wrapper self (set_w_all_commands (delete name (w_all_commands w)) w);
  ret (w_all_commands w !! name).

(** The loop of [GroupMixin.remove_command] over the aliases of the
    removed command: an alias that names another command is put back. *)
Fixpoint remove_aliases (self command : ref) (aliases : list string) : M unit :=
  match aliases with
  | [] => ret ()
  | alias :: aliases' =>
      do cmd <- all_commands_pop self alias;
      do _ <- match cmd with
              | Some cmd' =>
                  if bool_decide (cmd' ≠ command)
                  then all_commands_set self alias cmd'
                  else ret ()
              | None => ret ()
              end;
      remove_aliases self command aliases'
  end.

(** Modelled from the spec: [GroupMixin.remove_command] of [core.py],
    which is not part of the sources: the entry under the name is taken
    out of the mapping and returned; when the name was the command's own
    and not one of its aliases, the aliases that lead to it go too. *)
Definition GroupMixin_remove_command (self : ref) (name : string) : M (option ref) :=
  do command <- all_commands_pop self name;
  match command with
  | None => ret None
  | Some c =>
      do cw <- get_wrapper c;
      if bool_decide (name ∈ w_aliases cw) then ret (Some c)
      else do _ <- remove_aliases self c (w_aliases cw); ret (Some c)
  end.

(** [HybridGroup.remove_command] *)
Definition remove_command (self : ref) (name : string) : M (option ref) :=
  do cmd <- GroupMixin_remove_command self name;
  do app <- getattr_app_command self;
  do _ <- app_Group_remove_command app name;
  ret cmd.

(** The [for alias in command.aliases] loop of [add_command]. *)
Fixpoint add_aliases (self command : ref) (name : string) (aliases : list string)
  : M unit :=
  match aliases with
  | [] => ret ()
  | alias :: aliases' =>
      do taken <- all_commands_contains self alias;
      if taken then
        do _ <- remove_command self name;
        raise (Exn CommandRegistrationError [ArgStr alias; ArgBool true] None)
      else
        do _ <- all_commands_set self alias command;
        add_aliases self command name aliases'
  end.

(** [HybridGroup.add_command] *)
Definition add_command (self command : ref) : M unit :=
  do c <- get_wrapper command;
  if negb (is_hybrid (w_class c)) then
    raise (Exn TypeError
             [ArgStr "The command passed must be a subclass of HybridCommand or HybridGroup"]
             None)
  else
  do s <- get_wrapper self;
  if is_HybridGroup (w_class c) && bool_decide (is_Some (w_parent s)) then
    raise (Exn ValueError
             [ArgQualifiedName command;
              ArgStr " is too nested, groups can only be nested at most one level"]
             None)
  else
  do self_app <- getattr_app_command self;
  do command_app <- getattr_app_command command;
  do _ <- app_Group_add_command self_app command_app;
  do _ <- modify_wrapper command (set_w_parent (Some self));
  do c <- get_wrapper command;
  do taken <- all_commands_contains self (w_name c);
  if taken then
    raise (Exn CommandRegistrationError [ArgStr (w_name c); ArgBool false] None)
  else
  do _ <- all_commands_set self (w_name c) command;
  add_aliases self command (w_name c) (w_aliases c).

(** *** What a program can do with the module *)

Inductive op :=
| NewHybridCommand (kw : attrs)
| NewHybridGroup (kw : attrs)
| SetCog (self : ref) (value : option ref)
| CopyWith (self : ref) (made : adapter)
| AddCommand (self command : ref)
| RemoveCommand (self : ref) (name : string).

Definition discard {A} (m : M A) : M unit := do _ <- m; ret ().

(** The property setter is [HybridCommand]'s, the two registration
    methods are [HybridGroup]'s, the copy is [HybridAppCommand]'s. *)
Definition on_class (cls : wrapper_class) (self : ref) (m : M unit) : M unit :=
  do w <- get_wrapper self;
  if bool_decide (w_class w = cls) then m else (λ _, None).

Definition on_adapter_class (cls : adapter_class) (self : ref) (m : M unit)
  : M unit :=
  do a <- get_adapter self;
  match a_class a, cls with
  | AppCommand, AppCommand | AppGroup, AppGroup => m
  | _, _ => (λ _, None)
  end.

Definition run (valid_name : string → bool) (o : op) : M unit :=
  match o with
  | NewHybridCommand kw => discard (HybridCommand_init valid_name kw)
  | NewHybridGroup kw => discard (HybridGroup_init valid_name kw)
  | SetCog self value => on_class HybridCommand self (set_cog self value)
  | CopyWith self made =>
      on_adapter_class AppCommand self (discard (_copy_with self made))
  | AddCommand self command => on_class HybridGroup self (add_command self command)
  | RemoveCommand self name =>
      on_class HybridGroup self (discard (remove_command self name))
  end.

(** One operation, whether it returns or raises. *)
Definition step (valid_name : string → bool) (h : heap) (o : op) (h' : heap) : Prop :=
  ∃ r, run valid_name o h = Some (h', r).

Inductive reachable (valid_name : string → bool) : heap → Prop :=
| reachable_empty : reachable valid_name empty_heap
| reachable_step h o h' :
    reachable valid_name h → step valid_name h o h' → reachable valid_name h'.

(** A program: the operations in turn, each with its outcome. *)
Fixpoint run_all (valid_name : string → bool) (ops : list op) (h : heap)
  : option (heap * list (result unit)) :=
  match ops with
  | [] => Some (h, [])
  | o :: ops' =>
      match run valid_name o h with
      | Some (h', r) =>
          match run_all valid_name ops' h' with
          | Some (h'', rs) => Some (h'', r :: rs)
          | None => None
          end
      | None => None
      end
  end.

(** The pair of a wrapper and the adapter made with it. *)
Definition pair_of (h : heap) (r : ref) (w : wrapper) (a : adapter) : Prop :=
  wrappers h !! r = Some w ∧
  ∃ ar, w_app_command w = Some ar ∧ adapters h !! ar = Some a.

(** *** Vocabulary of the proofs *)

(** The heap in which the mapping of group [self] is [m]. *)
Definition upd_cmds (self : ref) (m : gmap string ref) (h : heap) : heap :=
  {| wrappers := alter (set_w_all_commands m) self (wrappers h);
     adapters := adapters h; next_ref := next_ref h |}.

(** The heap in which the children of adapter [self] are [m]. *)
Definition upd_children (self : ref) (m : gmap string ref) (h : heap) : heap :=
  {| wrappers := wrappers h;
     adapters := alter (set_a_children m) self (adapters h);
     next_ref := next_ref h |}.

(** Group [self] is alive and its mapping is [m]. *)
Definition cmds (h : heap) (self : ref) (m : gmap string ref) : Prop :=
  ∃ w, wrappers h !! self = Some w ∧ w_all_commands w = m.

(** What registration leaves alone in a wrapper and in an adapter. *)
Definition same_identity_w (w w' : wrapper) : Prop :=
  w_class w = w_class w' ∧ w_name w = w_name w' ∧ w_aliases w = w_aliases w' ∧
  w_description w = w_description w' ∧ w_short_doc w = w_short_doc w' ∧
  w_cog w = w_cog w' ∧ w_app_command w = w_app_command w'.

Definition same_identity_a (a a' : adapter) : Prop :=
  a_class a = a_class a' ∧ a_name a = a_name a' ∧
  a_description a = a_description a' ∧ a_guild_ids a = a_guild_ids a' ∧
  a_binding a = a_binding a' ∧ a_wrapped a = a_wrapped a'.

(** [h'] has the objects of [h], changed at most in their place in the
    two trees. *)
Definition registration_only (h h' : heap) : Prop :=
  next_ref h = next_ref h' ∧
  (∀ r, option_Forall2 same_identity_w (wrappers h !! r) (wrappers h' !! r)) ∧
  (∀ r, option_Forall2 same_identity_a (adapters h !! r) (adapters h' !! r)).

Definition registers_only {A} (m : M A) : Prop :=
  ∀ h h' r, m h = Some (h', r) → registration_only h h'.

(** The wrapper [Command.__init__] makes. *)
Definition fresh_wrapper (cls : wrapper_class) (kw : attrs) : wrapper :=
  {| w_class := cls; w_name := attr_name kw; w_aliases := attr_aliases kw;
     w_description := attr_description kw; w_short_doc := attr_short_doc kw;
     w_parent := attr_parent kw; w_cog := None; w_app_command := None;
     w_all_commands := ∅ |}.

(** [h] with one more wrapper, and with a wrapper and its adapter. *)
Definition with_wrapper (w : wrapper) (h : heap) : heap :=
  {| wrappers := <[next_ref h := w]> (wrappers h);
     adapters := adapters h; next_ref := S (next_ref h) |}.

Definition with_adapter (a : adapter) (h : heap) : heap :=
  {| wrappers := wrappers h;
     adapters := <[next_ref h := a]> (adapters h);
     next_ref := S (next_ref h) |}.

Definition with_pair (w : wrapper) (a : adapter) (h : heap) : heap :=
  {| wrappers := <[next_ref h := w]> (wrappers h);
     adapters := <[S (next_ref h) := a]> (adapters h);
     next_ref := S (S (next_ref h)) |}.

(** [h'] keeps the objects of [h] as they are. *)
Definition extends (h h' : heap) : Prop :=
  (∀ r w, wrappers h !! r = Some w → wrappers h' !! r = Some w) ∧
  (∀ r a, adapters h !! r = Some a → adapters h' !! r = Some a).

(** The invariant of the heaps a program can reach: references are
    below the allocation mark, and the adapter of a wrapper mirrors its
    name and description; the adapter of a hybrid command points back
    to it and is bound to its cog. *)
Record heap_inv (h : heap) : Prop := {
  inv_fresh_w : ∀ r w, wrappers h !! r = Some w → r < next_ref h;
  inv_fresh_a : ∀ r a, adapters h !! r = Some a → r < next_ref h;
  inv_pair : ∀ r w ar,
    wrappers h !! r = Some w → w_app_command w = Some ar →
    ∃ a, adapters h !! ar = Some a ∧
         a_name a = w_name w ∧ a_description a = mirrored_description w ∧
         (w_class w = HybridCommand → a_wrapped a = Some r ∧ a_binding a = w_cog w)
}.

End Registry.

(** ** Sample objects *)

Module Samples.
Import Converters Invoke.

(** An invocation whose setup raises a transformer error that wraps a
    bad-argument error. *)
Definition bad_argument : exn := Exn BadArgument [ArgStr "not a number"] None.

(** An invocation whose setup raises a plain [ValueError], as a check
    predicate may. *)
Definition value_error : exn := Exn ValueError [ArgStr "bad state"] None.
Definition crashing_setup : invocation :=
  {| get_context := Ok 7;
     prepare := λ _, Raise value_error;
     _do_call := λ _, Ok PyNone;
     dispatch_error := λ _ _, Ok () |}.

(** An invocation whose callback raises a bad-argument error and whose
    error handler fails in turn. *)
Definition handler_error : exn := Exn RuntimeError [ArgStr "handler failed"] None.
Definition failing_handler : invocation :=
  {| get_context := Ok 7;
     prepare := λ _, Ok ();
     _do_call := λ _, Raise bad_argument;
     dispatch_error := λ _ _, Raise handler_error |}.

(** A [Converter] subclass with a plain [convert] method that fails
    with a [ValueError] on anything but ["12"]. *)
Definition not_an_int : exn := Exn ValueError [ArgStr "invalid literal"] None.
Definition int_converter : converter :=
  {| conv_id := 40; isclass := true; issubclass_Converter := true;
     isinstance_Converter := false; convert_ismethod := false;
     construct := Ok ();
     convert := λ _ value, if decide (value = "12") then Ok (PyInt 12)
                           else Raise not_an_int;
     has_transformer := false |}.

(** A [Converter] instance whose [convert] is cancelled while it waits. *)
Definition cancelled : exn := Exn CancelledError [] None.
Definition slow_converter : converter :=
  {| conv_id := 42; isclass := false; issubclass_Converter := false;
     isinstance_Converter := true; convert_ismethod := true;
     construct := Ok ();
     convert := λ _ _, Raise cancelled;
     has_transformer := false |}.

(** A plain annotation and a converter that brings its own transformer. *)
Definition own_transformer : converter :=
  {| conv_id := 41; isclass := false; issubclass_Converter := false;
     isinstance_Converter := true; convert_ismethod := true;
     construct := Ok ();
     convert := λ _ value, Ok (PyStr value);
     has_transformer := true |}.

Definition plain (name : string) (a : ref) : string * inspect_Parameter :=
  (name, {| ip_name := name; ip_kind := 1; ip_default := None;
            ip_annotation := Annotation a |}).

(** [async def callback(ctx, count: IntConverter, who: Own)] *)
Definition callback_signature : list (string * inspect_Parameter) :=
  [plain "ctx" 1; plain "count" 40; plain "who" 41].
Definition callback_params : list (string * commands_Parameter) :=
  [("count", {| param_converter := int_converter |});
   ("who", {| param_converter := own_transformer |})].


(** *** Registration *)

Import Registry.

(** A name rule for the structured side: 1 to 32 characters. *)
Definition valid_name (name : string) : bool :=
  bool_decide (0 < String.length name ≤ 32).

Definition named (name : string) (aliases : list string) (parent : option ref)
  : attrs :=
  {| attr_name := name; attr_aliases := aliases; attr_description := "";
     attr_short_doc := ""; attr_parent := parent; attr_guild_ids := None;
     attr_default_guilds := None |}.

(** [cfg = HybridGroup(name='cfg')] (wrapper 0, adapter 1),
    [foo = HybridCommand(name='foo', aliases=['bar'])] (wrapper 2,
    adapter 3), [cfg.add_command(foo)]. *)
Definition cfg_with_foo : option (heap * list (result unit)) :=
  run_all valid_name
    [NewHybridGroup (named "cfg" [] None);
     NewHybridCommand (named "foo" ["bar"] None);
     AddCommand 0 2]
    empty_heap.

Definition heap_of (x : option (heap * list (result unit))) : heap :=
  match x with
  | Some (h, _) => h
  | None => empty_heap
  end.

(** ... then [bar = HybridCommand(name='bar')] (wrapper 4, adapter 5). *)
Definition cfg_foo_and_bar : heap :=
  heap_of (run_all valid_name [NewHybridCommand (named "bar" [] None)]
             (heap_of cfg_with_foo)).

(** ... or [baz = HybridCommand(name='baz', aliases=['qux', 'bar'])]. *)
Definition cfg_foo_and_baz : heap :=
  heap_of (run_all valid_name [NewHybridCommand (named "baz" ["qux"; "bar"] None)]
             (heap_of cfg_with_foo)).

(** ... or [sub = HybridGroup(name='sub', parent=cfg)] added to [cfg]
    (wrapper 4, adapter 5) and [deep = HybridGroup(name='deep')]
    (wrapper 6, adapter 7). *)
Definition cfg_sub_and_deep : heap :=
  heap_of (run_all valid_name
             [NewHybridGroup (named "sub" [] (Some 0));
              AddCommand 0 4;
              NewHybridGroup (named "deep" [] None)]
             (heap_of cfg_with_foo)).

(** [cfg] and its adapter once [foo] is registered. *)
Definition cfg_wrapper : wrapper :=
  {| w_class := HybridGroup; w_name := "cfg"; w_aliases := [];
     w_description := ""; w_short_doc := ""; w_parent := None;
     w_cog := None; w_app_command := Some 1;
     w_all_commands := <["bar" := 2]> (<["foo" := 2]> ∅) |}.

Definition cfg_adapter : adapter :=
  {| a_class := AppGroup; a_name := "cfg"; a_description := "…";
     a_guild_ids := None; a_parent := None; a_binding := None;
     a_wrapped := None; a_children := <["foo" := 3]> ∅ |}.

Definition sub_wrapper : wrapper :=
  {| w_class := HybridGroup; w_name := "sub"; w_aliases := [];
     w_description := ""; w_short_doc := ""; w_parent := Some 0;
     w_cog := None; w_app_command := Some 5; w_all_commands := ∅ |}.

Definition deep_wrapper : wrapper :=
  {| w_class := HybridGroup; w_name := "deep"; w_aliases := [];
     w_description := ""; w_short_doc := ""; w_parent := None;
     w_cog := None; w_app_command := Some 7; w_all_commands := ∅ |}.




(** The names under which a group and its adapter hold children. *)
Definition wrapper_side (h : heap) (self : ref) : list (string * ref) :=
  match wrappers h !! self with
  | Some w => map_to_list (w_all_commands w)
  | None => []
  end.

Definition structured_side (h : heap) (self : ref) : list (string * ref) :=
  match adapters h !! self with
  | Some a => map_to_list (a_children a)
  | None => []
  end.

End Samples.

(** ** Vocabulary of the further properties *)

Module InvokeMore.
Import Invoke.

(** The body of the [try] raises [e]: the setup does, or the setup
    returns and the callback does. *)
Definition body_raises (inv : invocation) (ctx : Context) (e : exn) : Prop :=
  prepare inv ctx = Raise e
  ∨ (prepare inv ctx = Ok () ∧ _do_call inv ctx = Raise e).

End InvokeMore.

Module ConvertersMore.
Import Converters.

(** [q] is [p] but for its annotation. *)
Definition same_but_annotation (p q : inspect_Parameter) : Prop :=
  ip_name q = ip_name p ∧ ip_kind q = ip_kind p ∧ ip_default q = ip_default p.

(** The annotation of [q] is that of [p], or a transformer synthesized
    for a converter of [parameters] that calls for one. *)
Definition annotation_kept_or_synthesized
    (parameters : list (string * commands_Parameter))
    (p q : inspect_Parameter) : Prop :=
  ip_annotation q = ip_annotation p
  ∨ ∃ name parameter,
      (name, parameter) ∈ parameters ∧ wants_transformer parameter = true
      ∧ ip_annotation q = ConverterTransformer (param_converter parameter).

End ConvertersMore.

Module RegistryMore.
Import Registry.

(** The mapping once every key of [ks], in turn, leads to [v]. *)
Definition insert_all (ks : list string) (v : ref) (m : gmap string ref)
  : gmap string ref :=
  foldl (λ m k, <[k := v]> m) m ks.

(** One turn of the loop of [GroupMixin.remove_command] on the
    mapping: the alias is popped and, when it led elsewhere, put
    back. *)
Definition drop_alias (command : ref) (m : gmap string ref) (alias : string)
  : gmap string ref :=
  match m !! alias with
  | Some cmd' =>
      if bool_decide (cmd' ≠ command)
      then <[alias := cmd']> (delete alias m)
      else delete alias m
  | None => delete alias m
  end.

Definition drop_aliases (command : ref) (aliases : list string)
    (m : gmap string ref) : gmap string ref :=
  foldl (drop_alias command) m aliases.

(** An entry survives the loop when it leads to another command. *)
Definition keep_other (command : ref) (o : option ref) : option ref :=
  match o with
  | Some c' => if decide (c' = command) then None else Some c'
  | None => None
  end.

(** The heap of [add_command] once the child is mirrored into the
    adapter of the group and has the group as its parent, before the
    command mapping is consulted. *)
Definition entered (self command ga car : ref) (c : wrapper) (g ca : adapter)
    (h : heap) : heap :=
  {| wrappers := <[command := set_w_parent (Some self) c]> (wrappers h);
     adapters :=
       <[car := set_a_parent (Some ga) ca]>
         (<[ga := set_a_children (<[a_name ca := car]> (a_children g)) g]>
            (adapters h));
     next_ref := next_ref h |}.

(** What [add_command] needs to get as far as the aliases: a hybrid
    child with its adapter, a group with its adapter, distinct objects,
    no nesting beyond one level, and the child's name free on both
    sides and not among its own aliases. *)
Record addable (h : heap) (self command ga car : ref) (s c : wrapper)
    (g ca : adapter) : Prop := {
  add_self : wrappers h !! self = Some s;
  add_self_app : w_app_command s = Some ga;
  add_self_adapter : adapters h !! ga = Some g;
  add_child : wrappers h !! command = Some c;
  add_hybrid : is_hybrid (w_class c) = true;
  add_depth : is_HybridGroup (w_class c) = true → w_parent s = None;
  add_child_app : w_app_command c = Some car;
  add_child_adapter : adapters h !! car = Some ca;
  add_distinct : self ≠ command;
  add_distinct_app : ga ≠ car;
  add_app_depth : a_class ca = AppGroup → a_parent g = None;
  add_mirror : a_name ca = w_name c;
  add_name_free : w_all_commands s !! w_name c = None;
  add_child_free : a_children g !! w_name c = None;
  add_name_no_alias : w_name c ∉ w_aliases c
}.

(** *** The decorators *)

Section decorators.

Variable valid_name : string → bool.

(** [hybrid_command(name, **attrs)(func)]; [is_command] is
    [isinstance(func, Command)]. *)
Definition hybrid_command (is_command : bool) (kw : attrs) : M ref :=
  if is_command
  then raise (Exn TypeError [ArgStr "Callback is already a command."] None)
  else HybridCommand_init valid_name kw.

(** [hybrid_group(name, **attrs)(func)] *)
Definition hybrid_group (is_command : bool) (kw : attrs) : M ref :=
  if is_command
  then raise (Exn TypeError [ArgStr "Callback is already a command."] None)
  else HybridGroup_init valid_name kw.

(** [kwargs.setdefault('parent', self)] *)
Definition setdefault_parent (self : ref) (kw : attrs) : attrs :=
  {| attr_name := attr_name kw; attr_aliases := attr_aliases kw;
     attr_description := attr_description kw;
     attr_short_doc := attr_short_doc kw;
     attr_parent := match attr_parent kw with
                    | Some p => Some p
                    | None => Some self
                    end;
     attr_guild_ids := attr_guild_ids kw;
     attr_default_guilds := attr_default_guilds kw |}.

(** [HybridGroup.command(name, *args, **kwargs)(func)] *)
Definition HybridGroup_command (self : ref) (is_command : bool) (kw : attrs)
  : M ref :=
  do result <- hybrid_command is_command (setdefault_parent self kw);
  do _ <- add_command self result;
  ret result.

(** [HybridGroup.group(name, *args, **kwargs)(func)] *)
Definition HybridGroup_group (self : ref) (is_command : bool) (kw : attrs)
  : M ref :=
  do result <- hybrid_group is_command (setdefault_parent self kw);
  do _ <- add_command self result;
  ret result.

End decorators.

End RegistryMore.

Module RegistryKeys.
Import Registry.

(** Every key of a command mapping is the name or an alias of the
    command it leads to, and every key under which the adapter of a
    wrapper holds a child is the name of that child. *)
Definition keyed (h : heap) : Prop :=
  (∀ r w k c,
     wrappers h !! r = Some w → w_all_commands w !! k = Some c →
     ∃ cw, wrappers h !! c = Some cw ∧ (k = w_name cw ∨ k ∈ w_aliases cw))
  ∧ (∀ r w ga g k ca,
       wrappers h !! r = Some w → w_app_command w = Some ga →
       adapters h !! ga = Some g → a_children g !! k = Some ca →
       ∃ a, adapters h !! ca = Some a ∧ a_name a = k).

(** What the keys are read against. *)
Definition same_keys_w (w w' : wrapper) : Prop :=
  w_name w = w_name w' ∧ w_aliases w = w_aliases w'
  ∧ w_app_command w = w_app_command w'.

Definition same_keys_a (a a' : adapter) : Prop := a_name a = a_name a'.

(** [h'] has the objects of [h] under the names they had, and an entry
    of a mapping or of the children of an adapter in [h'] was there in
    [h] or is one that [Pw], respectively [Pa], allows. *)
Definition grows_by (Pw Pa : string → ref → Prop) (h h' : heap) : Prop :=
  (∀ r, option_Forall2 same_keys_w (wrappers h !! r) (wrappers h' !! r))
  ∧ (∀ r, option_Forall2 same_keys_a (adapters h !! r) (adapters h' !! r))
  ∧ (∀ r w w' k c,
       wrappers h !! r = Some w → wrappers h' !! r = Some w' →
       w_all_commands w' !! k = Some c →
       w_all_commands w !! k = Some c ∨ Pw k c)
  ∧ (∀ r a a' k c,
       adapters h !! r = Some a → adapters h' !! r = Some a' →
       a_children a' !! k = Some c →
       a_children a !! k = Some c ∨ Pa k c).

Definition grows_only_by (Pw Pa : string → ref → Prop) {A} (m : M A) : Prop :=
  ∀ h h' r, m h = Some (h', r) → grows_by Pw Pa h h'.

(** No entry is allowed. *)
Definition nothing : string → ref → Prop := λ _ _, False.

(** The entries [add_command] may make for [command]. *)
Definition entry_of (command : ref) (name : string) (aliases : list string)
  : string → ref → Prop :=
  λ k c, c = command ∧ (k = name ∨ k ∈ aliases).

End RegistryKeys.

(** ** More sample objects *)

Module MoreSamples.
Import Registry Samples.

(** A heap with one plain [Command] (wrapper 0), which is no hybrid. *)
Definition plain_command : wrapper :=
  {| w_class := Command; w_name := "ping"; w_aliases := [];
     w_description := ""; w_short_doc := ""; w_parent := None;
     w_cog := None; w_app_command := None; w_all_commands := ∅ |}.

Definition heap_with_plain : heap :=
  {| wrappers := <[0 := plain_command]> (wrappers (heap_of cfg_with_foo));
     adapters := adapters (heap_of cfg_with_foo);
     next_ref := next_ref (heap_of cfg_with_foo) |}.

(** [foo] once registered in [cfg], and its adapter. *)
Definition foo_registered : wrapper :=
  {| w_class := HybridCommand; w_name := "foo"; w_aliases := ["bar"];
     w_description := ""; w_short_doc := ""; w_parent := Some 0;
     w_cog := None; w_app_command := Some 3; w_all_commands := ∅ |}.

Definition foo_registered_adapter : adapter :=
  {| a_class := AppCommand; a_name := "foo"; a_description := "…";
     a_guild_ids := None; a_parent := Some 1; a_binding := None;
     a_wrapped := Some 2; a_children := ∅ |}.

(** [cfg] with [foo], and [baz = HybridCommand(name='baz',
    aliases=['qux'])] (wrapper 4, adapter 5) not yet added. *)
Definition cfg_foo_and_free_baz : heap :=
  heap_of (run_all valid_name [NewHybridCommand (named "baz" ["qux"] None)]
             (heap_of cfg_with_foo)).

Definition free_baz : wrapper :=
  {| w_class := HybridCommand; w_name := "baz"; w_aliases := ["qux"];
     w_description := ""; w_short_doc := ""; w_parent := None;
     w_cog := None; w_app_command := Some 5; w_all_commands := ∅ |}.

(** [baz] as in [cfg_foo_and_baz], where its second alias is taken. *)
Definition clashing_baz : wrapper :=
  {| w_class := HybridCommand; w_name := "baz"; w_aliases := ["qux"; "bar"];
     w_description := ""; w_short_doc := ""; w_parent := None;
     w_cog := None; w_app_command := Some 5; w_all_commands := ∅ |}.

Definition baz_adapter : adapter :=
  {| a_class := AppCommand; a_name := "baz"; a_description := "…";
     a_guild_ids := None; a_parent := None; a_binding := None;
     a_wrapped := Some 4; a_children := ∅ |}.

(** Parameters of which one, [limit], is not in the signature of
    the callback. *)
Definition stray_params : list (string * Converters.commands_Parameter) :=
  [("who", {| Converters.param_converter := own_transformer |});
   ("limit", {| Converters.param_converter := int_converter |});
   ("count", {| Converters.param_converter := int_converter |})].

End MoreSamples.

(** * Properties *)

(** ** The check chain *)

Section check_chain.
Import Checks.

Lemma and_then_ret_true m : and_then m (ret true) = m.
Proof.
  destruct m as [t [[]|e]]; unfold and_then, bind, ret; simpl;
    by rewrite ?app_nil_r.
Qed.

Lemma and_then_assoc m k1 k2 :
  and_then (and_then m k1) k2 = and_then m (and_then k1 k2).
Proof.
  destruct m as [t [[]|e]]; unfold and_then, bind, ret; simpl; try done.
  - destruct k1 as [t1 [[]|e1]]; simpl; try done.
    + destruct k2 as [t2 r2]. by rewrite app_assoc.
    + by rewrite !app_nil_r.
  - by rewrite !app_nil_r.
Qed.

Lemma run_chain_nil : run_chain [] = ret true.
Proof. done. Qed.

Lemma run_chain_cons c chain :
  run_chain (c :: chain) = and_then (call c.1 c.2) (run_chain chain).
Proof.
  unfold run_chain, and_then, bind, call. simpl.
  by destruct (c.2) as [[]|e].
Qed.

Lemma run_chain_singleton p o : run_chain [(p, o)] = call p o.
Proof. by rewrite run_chain_cons, run_chain_nil, and_then_ret_true. Qed.

Lemma ret_true_and_then k : and_then (ret true) k = k.
Proof. unfold and_then, bind, ret. simpl. by destruct k. Qed.

Lemma run_chain_app c1 c2 :
  run_chain (c1 ++ c2) = and_then (run_chain c1) (run_chain c2).
Proof.
  induction c1 as [|c c1 IH].
  - by rewrite app_nil_l, run_chain_nil, ret_true_and_then.
  - by rewrite <- app_comm_cons, !run_chain_cons, IH, and_then_assoc.
Qed.

Lemma async_all_generator mk fs :
  async_all (generator mk fs) = run_chain (imap (λ i c, (mk i, c)) fs).
Proof.
  unfold run_chain, generator.
  change (map ?f ?l) with (f <$> l). by rewrite fmap_imap.
Qed.

Lemma guarded_async_all mk fs :
  (if nonempty fs then async_all (generator mk fs) else ret true)
  = run_chain (imap (λ i c, (mk i, c)) fs).
Proof.
  destruct fs; [done|]. apply async_all_generator.
Qed.

(** The code runs the chain of section 4.1. *)
Lemma check_can_run_chain bot self :
  _check_can_run bot self = run_chain (check_chain bot self).
Proof.
  unfold check_chain.
  rewrite !run_chain_app.
  change (_check_can_run bot self) with
    (and_then (call BotCheckOnce (can_run_once bot))
    (and_then (call BotCheck (can_run bot))
    (and_then (match parent self with
               | Some p =>
                   if is_not_binding p (binding self)
                   then call ParentInteractionCheck (parent_interaction_check p)
                   else ret true
               | None => ret true
               end)
    (and_then (match binding self with
               | Some b =>
                   and_then (match interaction_check b with
                             | None => ret true
                             | Some check => call BindingInteractionCheck check
                             end)
                            (match cog_check b with
                             | Some local_check => call BindingCogCheck local_check
                             | None => ret true
                             end)
               | None => ret true
               end)
    (and_then (if nonempty (checks self)
               then async_all (generator LocalInteractionCheck (checks self))
               else ret true)
    (and_then (if nonempty (wrapped_checks self)
               then async_all (generator LocalCommandCheck (wrapped_checks self))
               else ret true)
              (ret true))))))).
  rewrite !guarded_async_all, and_then_ret_true.
  rewrite !run_chain_cons, run_chain_nil, and_then_ret_true. cbn [fst snd].
  rewrite and_then_assoc.
  do 2 f_equal.
  f_equal.
  - destruct (parent self) as [p|]; [|done].
    destruct (is_not_binding _ _); [|done]. by rewrite run_chain_singleton.
  - f_equal.
    destruct (binding self) as [b|]; [|done].
    rewrite run_chain_app. f_equal.
    + destruct (interaction_check b); [|done]. by rewrite run_chain_singleton.
    + destruct (cog_check b); [|done]. by rewrite run_chain_singleton.
Qed.

(** What running a chain yields: the checks before the first one that
    does not pass, that one, and its answer. *)
Lemma run_chain_spec chain :
  ∃ ran skipped,
    chain = ran ++ skipped ∧ (run_chain chain).1 = ran.*1 ∧
    ((Forall passes ran ∧ skipped = [] ∧ (run_chain chain).2 = Ok true)
     ∨ (∃ pre c, ran = pre ++ [c] ∧ Forall passes pre ∧
                 c.2 = Ok false ∧ (run_chain chain).2 = Ok false)
     ∨ (∃ pre c e, ran = pre ++ [c] ∧ Forall passes pre ∧
                   c.2 = Raise e ∧ (run_chain chain).2 = Raise e)).
Proof.
  induction chain as [|[p o] chain IH].
  - exists [], []. split_and!; [done..|]. left. by split_and!.
  - rewrite run_chain_cons. simpl.
    destruct o as [[]|e].
    + destruct IH as (ran & skipped & -> & Htr & Hres).
      exists ((p, Ok true) :: ran), skipped.
      unfold and_then, bind, call. simpl.
      destruct (run_chain (ran ++ skipped)) as [t r] eqn:Hrun. simpl in *.
      split_and!; [done|by rewrite Htr|].
      destruct Hres as [(Hall & -> & ->)|[(pre & c & -> & Hall & Hc & ->)
                                         |(pre & c & e & -> & Hall & Hc & ->)]].
      * left. split_and!; [|done..]. by constructor.
      * right; left. exists ((p, Ok true) :: pre), c.
        split_and!; [done| by constructor|done..].
      * right; right. exists ((p, Ok true) :: pre), c, e.
        split_and!; [done| by constructor|done..].
    + exists [(p, Ok false)], chain. split_and!; [done..|].
      right; left. exists [], (p, Ok false). by split_and!.
    + exists [(p, Raise e)], chain. split_and!; [done..|].
      right; right. exists [], (p, Raise e), e. by split_and!.
Qed.

(** C1: the checks of a structured-path invocation run in the order
    one-time bot check, bot check, parent interaction check (parent
    present and not the binding), binding interaction check (present),
    binding local check (overridden), the adapter's checks, the
    wrapper's checks.  The checks that ran are a prefix of that chain,
    all but the last of them passed, nothing after the first check that
    does not pass is run, the answer is [False] when that check answered
    [False], and [True] only when the whole chain ran and passed. *)
Theorem check_can_run_order (bot : Bot) (self : HybridAppCommand) :
  ∃ ran skipped,
    check_chain bot self = ran ++ skipped ∧
    (_check_can_run bot self).1 = ran.*1 ∧
    ((Forall passes ran ∧ skipped = [] ∧ (_check_can_run bot self).2 = Ok true)
     ∨ (∃ pre c, ran = pre ++ [c] ∧ Forall passes pre ∧
                 c.2 = Ok false ∧ (_check_can_run bot self).2 = Ok false)
     ∨ (∃ pre c e, ran = pre ++ [c] ∧ Forall passes pre ∧
                   c.2 = Raise e ∧ (_check_can_run bot self).2 = Raise e)).
Proof.
  rewrite check_can_run_chain. apply run_chain_spec.
Qed.

End check_chain.

(** ** The error hierarchy *)

Lemma command_error_is_Exception e :
  isinstance e CommandError = true → isinstance e Exception = true.
Proof. destruct e as [c args cause]. by destruct c. Qed.

Lemma app_error_is_Exception e :
  isinstance e AppCommandError = true → isinstance e Exception = true.
Proof. destruct e as [c args cause]. by destruct c. Qed.

Lemma command_error_not_app_error e :
  isinstance e CommandError = true → isinstance e AppCommandError = false.
Proof. destruct e as [c args cause]. by destruct c. Qed.


Lemma transformer_is_app_error e :
  isinstance e TransformerError = true → isinstance e AppCommandError = true.
Proof. destruct e as [c args cause]. by destruct c. Qed.

Lemma signature_mismatch_is_app_error e :
  isinstance e CommandSignatureMismatch = true → isinstance e AppCommandError = true.
Proof. destruct e as [c args cause]. by destruct c. Qed.

(** ** The unified entry point *)

Section invoke.
Import Invoke Samples.

Lemma invoke_raised inv ctx e :
  get_context inv = Ok ctx →
  guarded inv ctx = Raise e →
  _invoke_with_namespace inv =
    match handle e with
    | Raise e' => ([], Raise e')
    | Ok exc => ([(ctx, exc)], returns_None (dispatch_error inv ctx exc))
    end.
Proof. intros Hctx H. unfold _invoke_with_namespace. by rewrite Hctx, H. Qed.

Lemma handle_signature_mismatch e :
  isinstance e CommandSignatureMismatch = true → handle e = Raise e.
Proof. intros H. unfold handle. by rewrite H. Qed.



Lemma handle_command_error e :
  isinstance e CommandError = true → handle e = Ok e.
Proof.
  intros H. unfold handle. rewrite H.
  pose proof (command_error_not_app_error _ H) as Happ.
  destruct (isinstance e CommandSignatureMismatch) eqn:Hs.
  { by rewrite (signature_mismatch_is_app_error _ Hs) in Happ. }
  destruct (isinstance e TransformerError) eqn:Ht.
  { by rewrite (transformer_is_app_error _ Ht) in Happ. }
  by rewrite Happ.
Qed.

Lemma handle_uncaught e :
  isinstance e AppCommandError = false → isinstance e CommandError = false →
  handle e = Raise e.
Proof.
  intros Happ Hcmd. unfold handle. rewrite Happ, Hcmd.
  destruct (isinstance e CommandSignatureMismatch) eqn:Hs; [done|].
  destruct (isinstance e TransformerError) eqn:Ht; [|done].
  by rewrite (transformer_is_app_error _ Ht) in Happ.
Qed.

(** What goes to the dispatch is a command-level error. *)
Lemma handle_dispatches_command_error e exc :
  handle e = Ok exc → isinstance exc CommandError = true.
Proof.
  unfold handle. intros H.
  repeat (case_match; simplify_eq); try done;
    by destruct e as [c args cause].
Qed.



(** C4: an invocation whose context was built and whose setup or
    callback fails with a structured-system error other than the
    signature mismatch, or with a command-level error, hands one
    command-level error to the error dispatch of the wrapper and does
    not raise that error itself: it returns [None] when the dispatch
    returns, and raises only what the dispatch raises.  The signature
    mismatch reaches the caller, and so does an exception of neither
    family, which no [except] clause catches. *)
Theorem invoke_dispatch (inv : invocation) (ctx : Context) (e : exn) :
  get_context inv = Ok ctx →
  guarded inv ctx = Raise e →
  ((isinstance e AppCommandError = true
    ∧ isinstance e CommandSignatureMismatch = false)
   ∨ isinstance e CommandError = true →
   ∃ exc,
     isinstance exc CommandError = true
     ∧ (_invoke_with_namespace inv).1 = [(ctx, exc)]
     ∧ (dispatch_error inv ctx exc = Ok () →
        (_invoke_with_namespace inv).2 = Ok PyNone)
     ∧ (∀ e', dispatch_error inv ctx exc = Raise e' →
              (_invoke_with_namespace inv).2 = Raise e'))
  ∧ (isinstance e CommandSignatureMismatch = true
     ∨ (isinstance e AppCommandError = false
        ∧ isinstance e CommandError = false) →
     _invoke_with_namespace inv = ([], Raise e)).
Proof.
  intros Hctx Hraise. rewrite (invoke_raised _ _ _ Hctx Hraise). split.
  - intros Hfam.
    assert (∃ exc, handle e = Ok exc) as [exc Hexc].
    { destruct Hfam as [[Happ Hsig]|Hcmd].
      - unfold handle. rewrite Hsig, Happ.
        repeat case_match; eauto.
      - rewrite handle_command_error by done. eauto. }
    rewrite Hexc. exists exc. split_and!; simpl.
    + by eapply handle_dispatches_command_error.
    + done.
    + by intros ->.
    + by intros e' ->.
  - intros [Hsig|[Happ Hcmd]].
    + by rewrite handle_signature_mismatch.
    + by rewrite handle_uncaught.
Qed.

Lemma invoke_dispatch_witness :
  (get_context failing_handler = Ok 7
   ∧ guarded failing_handler 7 = Raise bad_argument
   ∧ ∃ exc, (_invoke_with_namespace failing_handler).1 = [(7, exc)]
            ∧ (_invoke_with_namespace failing_handler).2 = Raise handler_error)
  ∧ (get_context crashing_setup = Ok 7
     ∧ guarded crashing_setup 7 = Raise value_error
     ∧ _invoke_with_namespace crashing_setup = ([], Raise value_error)).
Proof.
  split.
  - split; [reflexivity|]. split; [reflexivity|].
    destruct (invoke_dispatch failing_handler 7 bad_argument)
      as [H _]; [reflexivity..|].
    destruct H as (exc & _ & Hsent & _ & Hraised); [by right|].
    exists exc. split; [exact Hsent|]. by apply Hraised.
  - split; [reflexivity|]. split; [reflexivity|].
    apply (invoke_dispatch crashing_setup 7 value_error); [reflexivity..|].
    right. split; reflexivity.
Defined.

(** The claim as the spec words it fails: not every failure other than
    the signature mismatch is handed to the error dispatch. *)
Lemma invoke_dispatch_counterexample :
  ¬ (∀ inv ctx e,
       get_context inv = Ok ctx →
       guarded inv ctx = Raise e →
       isinstance e CommandSignatureMismatch = false →
       ∃ exc, (_invoke_with_namespace inv).1 = [(ctx, exc)]).
Proof.
  intros H.
  destruct (H crashing_setup 7 value_error) as [exc Hexc]; [reflexivity..|].
  vm_compute in Hexc. discriminate Hexc.
Qed.

End invoke.

(** ** Synthesized transformers *)

Section converters.
Import Converters Samples.

Lemma call_converter_convert c ctx value :
  is_converter c = true →
  (needs_instance c = true → construct c = Ok ()) →
  call_converter c ctx value = convert c ctx value.
Proof.
  unfold is_converter, needs_instance, call_converter. intros Hc Hinst.
  destruct (isclass c && issubclass_Converter c) eqn:Hcls; simpl in *.
  - destruct (convert_ismethod c); [done|]. by rewrite Hinst.
  - by rewrite Hc.
Qed.

(** C6: the transformer synthesized for a conversion helper runs the
    helper; what the helper returns is returned, a command-level error
    it raises propagates unchanged, and any other instance of
    [Exception] it raises becomes a conversion-failure error that
    carries the helper and the exception and has the exception as its
    cause; what is no instance of [Exception] passes through
    [except Exception] as it is. *)
Theorem transform_conversion (c : converter) (ctx : Context) (value : string) :
  is_converter c = true →
  (needs_instance c = true → construct c = Ok ()) →
  (∀ v, convert c ctx value = Ok v → transform c ctx value = Ok v)
  ∧ (∀ e, convert c ctx value = Raise e → isinstance e CommandError = true →
          transform c ctx value = Raise e)
  ∧ (∀ e, convert c ctx value = Raise e → isinstance e CommandError = false →
          isinstance e Exception = true →
          ∃ exc, transform c ctx value = Raise exc
                 ∧ exc_type exc = ConversionError
                 ∧ exc_args exc = [ArgObj (conv_id c); ArgExc e]
                 ∧ exc_cause exc = Some e)
  ∧ (∀ e, convert c ctx value = Raise e → isinstance e Exception = false →
          transform c ctx value = Raise e).
Proof.
  intros Hc Hinst. unfold transform.
  rewrite (call_converter_convert _ _ _ Hc Hinst). split_and!.
  - by intros v ->.
  - by intros e -> ->.
  - intros e -> -> ->. eexists. split; [done|]. by split_and!.
  - intros e -> Hexc.
    destruct (isinstance e CommandError) eqn:Hcmd; [done|]. by rewrite Hexc.
Qed.

(** A converter whose instance cannot be built fails the same way. *)
Lemma transform_construct_failure c ctx value e :
  needs_instance c = true → construct c = Raise e →
  transform c ctx value =
    Raise (if isinstance e CommandError then e
           else if isinstance e Exception
                then set_cause (new_ConversionError c e) e
                else e).
Proof.
  unfold needs_instance, transform, call_converter. intros Hn He.
  destruct (isclass c && issubclass_Converter c); [|done].
  destruct (convert_ismethod c); [done|]. rewrite He.
  destruct (isinstance e CommandError); [done|].
  by destruct (isinstance e Exception).
Qed.

Lemma transform_conversion_witness :
  transform int_converter 7 "twelve"
  = Raise (Exn ConversionError [ArgObj 40; ArgExc not_an_int] (Some not_an_int)).
Proof.
  destruct (transform_conversion int_converter 7 "twelve")
    as (_ & _ & H & _); [reflexivity|done|].
  destruct (H not_an_int) as (exc & Hexc & Hty & Hargs & Hcause);
    [reflexivity..|].
  rewrite Hexc. destruct exc as [cls args cause]. simpl in *.
  by rewrite Hty, Hargs, Hcause.
Defined.

(** The claim as the spec words it fails: a cancellation raised while
    the helper waits is no command-level error, and it leaves the
    transformer as it is, not as a conversion-failure error. *)
Lemma transform_conversion_counterexample :
  ¬ (∀ c ctx value e,
       is_converter c = true →
       convert c ctx value = Raise e →
       isinstance e CommandError = false →
       ∃ exc, transform c ctx value = Raise exc
              ∧ exc_type exc = ConversionError).
Proof.
  intros H.
  destruct (H slow_converter 7 "12" cancelled) as (exc & Hexc & Hty);
    [reflexivity..|].
  vm_compute in Hexc. injection Hexc as <-. discriminate Hty.
Qed.

(** *** Parameter replacement *)

Lemma dict_get_None {V} k (d : list (string * V)) :
  dict_get k d = None ↔ k ∉ d.*1.
Proof.
  induction d as [|[k' v] d IH]; simpl.
  - split; [intros _; apply not_elem_of_nil|done].
  - case_decide as Hk.
    + subst. split; [done|]. intros []. by left.
    + rewrite IH, not_elem_of_cons. tauto.
Qed.

Lemma dict_set_keys {V} k (v v' : V) d :
  dict_get k d = Some v' → (dict_set k v d).*1 = d.*1.
Proof.
  induction d as [|[k' w] d IH]; simpl; [done|].
  case_decide; [done|]. intros ?. csimpl. by rewrite IH.
Qed.

(** On a dictionary, replacing the value of a key changes that entry
    where it stands. *)
Lemma dict_set_map {V} k (v v' : V) d :
  NoDup d.*1 → dict_get k d = Some v' →
  dict_set k v d = map (λ entry, if decide (entry.1 = k) then (entry.1, v) else entry) d.
Proof.
  induction d as [|[k' w] d IH]; simpl; [done|].
  intros Hnd Hget. apply NoDup_cons in Hnd as [Hnotin Hnd].
  case_decide as Hk.
  - subst k'. rewrite decide_True by done. f_equal.
    symmetry. rewrite <- (map_id d) at 2. apply map_ext_in.
    intros [k'' w'] Hin. simpl. case_decide; [|done]. subst.
    destruct Hnotin. apply list_elem_of_In in Hin.
    by apply (list_elem_of_fmap_2 fst) in Hin.
  - rewrite decide_False by done. f_equal. by apply IH.
Qed.

Lemma replace_loop_spec items : ∀ params,
  NoDup items.*1 → NoDup params.*1 →
  (∀ name, name ∈ items.*1 → name ∈ params.*1) →
  replace_loop items params
  = Ok (map (λ entry, (entry.1, replaced items entry)) params).
Proof.
  induction items as [|[name parameter] items IH]; intros params Hni Hnp Hsub.
  - simpl. f_equal. rewrite <- (map_id params) at 1.
    apply map_ext. by intros [].
  - csimpl in *. apply NoDup_cons in Hni as [Hname Hni].
    assert (∀ entry : string * inspect_Parameter,
               entry.1 ≠ name →
               replaced ((name, parameter) :: items) entry = replaced items entry)
      as Hother.
    { intros entry Hne. unfold replaced. simpl. by rewrite decide_False. }
    assert (∀ entry : string * inspect_Parameter,
               entry.1 = name → replaced items entry = entry.2) as Hfresh.
    { intros entry Heq. unfold replaced. rewrite Heq.
      by apply dict_get_None in Hname as ->. }
    destruct (wants_transformer parameter) eqn:Hw.
    + destruct (dict_get name params) as [p|] eqn:Hget.
      2:{ apply dict_get_None in Hget. destruct Hget. apply Hsub. by left. }
      rewrite IH.
      * f_equal. rewrite (dict_set_map _ _ _ _ Hnp Hget), map_map.
        apply map_ext_in. intros [n q] Hin. simpl.
        case_decide as Hn; simpl.
        -- subst n. rewrite Hfresh by done. simpl.
           unfold replaced. simpl. rewrite decide_True by done.
           rewrite Hw. f_equal. f_equal.
           clear -Hnp Hget Hin. induction params as [|[k w] params IH];
             simpl in *; [done|].
           apply NoDup_cons in Hnp as [Hk Hnp].
           case_decide as Hd.
           ++ destruct Hin as [Hin|Hin]; [by simplify_eq|].
              subst k. destruct Hk. apply list_elem_of_In in Hin.
              by apply (list_elem_of_fmap_2 fst) in Hin.
           ++ destruct Hin as [Hin|Hin]; [by simplify_eq|]. by apply IH.
        -- by rewrite Hother.
      * done.
      * by rewrite (dict_set_keys _ _ _ _ Hget).
      * intros n Hn. rewrite (dict_set_keys _ _ _ _ Hget). apply Hsub. by right.
    + rewrite IH; [|done..|].
      * f_equal. apply map_ext. intros [n q]. simpl. f_equal.
        destruct (decide (n = name)) as [->|Hn].
        -- rewrite Hfresh by done. unfold replaced. simpl.
           rewrite decide_True by done. by rewrite Hw.
        -- by rewrite Hother.
      * intros n Hn. apply Hsub. by right.
Qed.

Lemma calls_for_transformer_wants (parameter : commands_Parameter) :
  calls_for_transformer (param_converter parameter)
  ↔ wants_transformer parameter = true.
Proof.
  unfold calls_for_transformer, wants_transformer, is_converter.
  destruct (param_converter parameter) as [? [] [] [] ? ? ? []]; simpl;
    intuition congruence.
Qed.

(** C7: the replacement step returns the parameters of the callback in
    their order; a parameter gets the synthesized transformer of its
    converter as annotation, and keeps its name, kind and default,
    exactly when that converter is a conversion helper (a [Converter]
    subclass or instance) that declares no transformer of its own, and
    is returned as it was otherwise. *)
Theorem replace_parameters_spec
    (parameters : list (string * commands_Parameter))
    (signature : list (string * inspect_Parameter)) :
  NoDup parameters.*1 → NoDup signature.*1 →
  (∀ name, name ∈ parameters.*1 → name ∈ signature.*1) →
  ∃ ps,
    replace_parameters parameters signature = Ok ps
    ∧ Forall2
        (λ (entry : string * inspect_Parameter) (q : inspect_Parameter),
           match dict_get entry.1 parameters with
           | Some parameter =>
               (calls_for_transformer (param_converter parameter) →
                ip_annotation q = ConverterTransformer (param_converter parameter)
                ∧ ip_name q = ip_name entry.2
                ∧ ip_kind q = ip_kind entry.2
                ∧ ip_default q = ip_default entry.2)
               ∧ (¬ calls_for_transformer (param_converter parameter) →
                  q = entry.2)
           | None => q = entry.2
           end)
        signature ps.
Proof.
  intros Hnp Hns Hsub. unfold replace_parameters.
  rewrite replace_loop_spec by done. eexists. split; [done|].
  change (?l.*2) with (map snd l). rewrite map_map. simpl.
  apply Forall2_fmap_r, Forall_Forall2_diag, Forall_forall.
  intros entry _. unfold replaced, compose. cbn beta.
  destruct (dict_get entry.1 parameters) as [parameter|]; [|done].
  rewrite calls_for_transformer_wants.
  by destruct (wants_transformer parameter); split.
Qed.

End converters.

Section converters_witness.
Import Converters Samples.

Lemma replace_parameters_witness :
  replace_parameters callback_params callback_signature
  = Ok [{| ip_name := "ctx"; ip_kind := 1; ip_default := None;
           ip_annotation := Annotation 1 |};
        {| ip_name := "count"; ip_kind := 1; ip_default := None;
           ip_annotation := ConverterTransformer int_converter |};
        {| ip_name := "who"; ip_kind := 1; ip_default := None;
           ip_annotation := Annotation 41 |}].
Proof.
  destruct (replace_parameters_spec callback_params callback_signature)
    as (ps & -> & Hall).
  - apply (bool_decide_unpack _). by vm_compute.
  - apply (bool_decide_unpack _). by vm_compute.
  - change (callback_params.*1 ⊆ callback_signature.*1).
    apply (bool_decide_unpack _). by vm_compute.
  - f_equal.
    apply Forall2_cons_inv_l in Hall as (q1 & ps1 & H1 & Hall & ->).
    apply Forall2_cons_inv_l in Hall as (q2 & ps2 & H2 & Hall & ->).
    apply Forall2_cons_inv_l in Hall as (q3 & ps3 & H3 & Hall & ->).
    apply Forall2_nil_inv_l in Hall as ->.
    simpl in H1, H2, H3. subst q1.
    destruct H2 as [H2 _]. destruct H2 as (Ha & Hn & Hk & Hd).
    { by split; [left|]. }
    destruct H3 as [_ H3]. rewrite H3.
    2:{ intros [_ Hown]. discriminate Hown. }
    destruct q2 as [n k d a]. simpl in *. by subst.
Defined.

End converters_witness.

(** ** Registration *)

Section registry.
Import Registry Samples.

Lemma bind_Some {A B} (m : M A) (k : A → M B) h h' a :
  m h = Some (h', Ok a) → bind m k h = k a h'.
Proof. intros H. unfold bind. by rewrite H. Qed.

Lemma get_wrapper_Some h r w :
  wrappers h !! r = Some w → get_wrapper r h = Some (h, Ok w).
Proof. intros H. unfold get_wrapper. by rewrite H. Qed.

Lemma get_adapter_Some h r a :
  adapters h !! r = Some a → get_adapter r h = Some (h, Ok a).
Proof. intros H. unfold get_adapter. by rewrite H. Qed.

Lemma getattr_app_command_Some h r w a :
  wrappers h !! r = Some w → w_app_command w = Some a →
  getattr_app_command r h = Some (h, Ok a).
Proof.
  intros Hw Ha. unfold getattr_app_command.
  rewrite (bind_Some _ _ _ _ _ (get_wrapper_Some _ _ _ Hw)). by rewrite Ha.
Qed.

(** C5: adding a sub-group to a group that has a parent raises
    [ValueError] and leaves the heap, hence the command mapping of the
    group and the tree of its adapter, as it was. *)
Theorem add_command_too_nested (h : heap) (self command : ref) (s c : wrapper) :
  wrappers h !! self = Some s →
  wrappers h !! command = Some c →
  w_class c = HybridGroup →
  is_Some (w_parent s) →
  add_command self command h
  = Some (h, Raise (Exn ValueError
                      [ArgQualifiedName command;
                       ArgStr " is too nested, groups can only be nested at most one level"]
                      None)).
Proof.
  intros Hs Hc Hcls Hpar. unfold add_command.
  rewrite (bind_Some _ _ _ _ _ (get_wrapper_Some _ _ _ Hc)).
  rewrite Hcls. simpl.
  rewrite (bind_Some _ _ _ _ _ (get_wrapper_Some _ _ _ Hs)).
  by rewrite bool_decide_true.
Qed.

Lemma add_command_too_nested_witness :
  add_command 4 6 cfg_sub_and_deep
  = Some (cfg_sub_and_deep,
          Raise (Exn ValueError
                   [ArgQualifiedName 6;
                    ArgStr " is too nested, groups can only be nested at most one level"]
                   None)).
Proof.
  apply (add_command_too_nested cfg_sub_and_deep 4 6 sub_wrapper deep_wrapper).
  - by vm_compute.
  - by vm_compute.
  - reflexivity.
  - by eexists.
Defined.

(** *** The mapping of a group *)

Lemma heap_eq h h' :
  wrappers h = wrappers h' → adapters h = adapters h' → next_ref h = next_ref h' →
  h = h'.
Proof. destruct h, h'. simpl. by intros -> -> ->. Qed.

Lemma set_w_all_commands_id w : set_w_all_commands (w_all_commands w) w = w.
Proof. by destruct w. Qed.

Lemma upd_cmds_id h self m : cmds h self m → upd_cmds self m h = h.
Proof.
  intros (w & Hw & <-). apply heap_eq; [|done..]. simpl.
  apply map_eq. intros r. rewrite lookup_alter. case_decide; [|done].
  subst. rewrite Hw. simpl. by rewrite set_w_all_commands_id.
Qed.

Lemma upd_cmds_upd h self m1 m2 :
  upd_cmds self m2 (upd_cmds self m1 h) = upd_cmds self m2 h.
Proof.
  apply heap_eq; [|done..]. simpl.
  apply map_eq. intros r. destruct (decide (self = r)) as [->|Hne].
  - rewrite !lookup_alter_eq. by destruct (wrappers h !! r).
  - by rewrite !lookup_alter_ne.
Qed.

Lemma cmds_upd h self m m' : cmds h self m → cmds (upd_cmds self m' h) self m'.
Proof.
  intros (w & Hw & _). exists (set_w_all_commands m' w). split; [|done].
  simpl. by rewrite lookup_alter_eq, Hw.
Qed.

Lemma upd_cmds_wrapper h self m r w :
  wrappers h !! r = Some w →
  ∃ w', wrappers (upd_cmds self m h) !! r = Some w' ∧ same_identity_w w w'.
Proof.
  intros Hw. simpl. rewrite lookup_alter. case_decide.
  - subst. rewrite Hw. eexists. split; [done|]. by repeat split.
  - eexists. split; [done|]. by repeat split.
Qed.

Lemma put_wrapper_upd h self w m :
  wrappers h !! self = Some w →
  put_wrapper self (set_w_all_commands m w) h = Some (upd_cmds self m h, Ok ()).
Proof.
  intros Hw. unfold put_wrapper. do 2 f_equal. apply heap_eq; [|done..]. simpl.
  apply map_eq. intros r. rewrite lookup_insert, lookup_alter.
  case_decide; [|done]. subst. by rewrite Hw.
Qed.

Lemma all_commands_contains_spec h self m name :
  cmds h self m →
  all_commands_contains self name h
  = Some (h, Ok (bool_decide (is_Some (m !! name)))).
Proof.
  intros (w & Hw & <-). unfold all_commands_contains.
  by rewrite (bind_Some _ _ _ _ _ (get_wrapper_Some _ _ _ Hw)).
Qed.

Lemma all_commands_set_spec h self m name command :
  cmds h self m →
  all_commands_set self name command h
  = Some (upd_cmds self (<[name := command]> m) h, Ok ()).
Proof.
  intros (w & Hw & <-). unfold all_commands_set, modify_wrapper.
  rewrite (bind_Some _ _ _ _ _ (get_wrapper_Some _ _ _ Hw)).
  by apply put_wrapper_upd.
Qed.

Lemma all_commands_pop_spec h self m name :
  cmds h self m →
  all_commands_pop self name h
  = Some (upd_cmds self (delete name m) h, Ok (m !! name)).
Proof.
  intros (w & Hw & <-). unfold all_commands_pop.
  rewrite (bind_Some _ _ _ _ _ (get_wrapper_Some _ _ _ Hw)).
  by rewrite (bind_Some _ _ _ _ _ (put_wrapper_upd _ _ _ _ Hw)).
Qed.

(** The loop over the aliases touches the mapping at the aliases only. *)
Lemma remove_aliases_spec self command aliases : ∀ h m,
  cmds h self m →
  ∃ m', remove_aliases self command aliases h = Some (upd_cmds self m' h, Ok ())
        ∧ ∀ k, k ∉ aliases → m' !! k = m !! k.
Proof.
  induction aliases as [|alias aliases IH]; intros h m Hm.
  - exists m. split; [|done]. simpl. unfold ret. by rewrite upd_cmds_id.
  - simpl.
    rewrite (bind_Some _ _ _ _ _ (all_commands_pop_spec _ _ _ alias Hm)).
    pose proof (cmds_upd _ _ _ (delete alias m) Hm) as Hm1.
    set (h1 := upd_cmds self (delete alias m) h) in *.
    assert (∃ m2, (match m !! alias with
                   | Some cmd' =>
                       if bool_decide (cmd' ≠ command)
                       then all_commands_set self alias cmd'
                       else ret ()
                   | None => ret ()
                   end) h1 = Some (upd_cmds self m2 h, Ok ())
                  ∧ cmds (upd_cmds self m2 h) self m2
                  ∧ ∀ k, k ≠ alias → m2 !! k = m !! k)
      as (m2 & Hrun & Hm2 & Hsame).
    { assert (∀ k, k ≠ alias → delete alias m !! k = m !! k) as Hdel.
      { intros k Hk. by rewrite lookup_delete_ne. }
      assert (ret () h1 = Some (upd_cmds self (delete alias m) h, Ok ())) as Hret
        by done.
      destruct (m !! alias) as [cmd'|]; [|by eauto].
      case_bool_decide; [|by eauto].
      exists (<[alias := cmd']> (delete alias m)). split_and!.
      - rewrite (all_commands_set_spec _ _ _ _ _ Hm1). unfold h1.
        by rewrite upd_cmds_upd.
      - by eapply cmds_upd.
      - intros k Hk. by rewrite lookup_insert_ne, lookup_delete_ne. }
    rewrite (bind_Some _ _ _ _ _ Hrun).
    destruct (IH _ _ Hm2) as (m' & Hrest & Hm').
    exists m'. split.
    + by rewrite Hrest, upd_cmds_upd.
    + intros k Hk. apply not_elem_of_cons in Hk as [Hk1 Hk2].
      by rewrite Hm', Hsame.
Qed.

Lemma GroupMixin_remove_command_spec h self m name c :
  cmds h self m → m !! name = Some c → is_Some (wrappers h !! c) →
  ∃ m', GroupMixin_remove_command self name h
        = Some (upd_cmds self m' h, Ok (Some c))
        ∧ m' !! name = None.
Proof.
  intros Hm Hc [cw Hcw]. unfold GroupMixin_remove_command.
  rewrite (bind_Some _ _ _ _ _ (all_commands_pop_spec _ _ _ name Hm)), Hc.
  destruct (upd_cmds_wrapper h self (delete name m) c cw Hcw) as (cw' & Hcw' & _).
  rewrite (bind_Some _ _ _ _ _ (get_wrapper_Some _ _ _ Hcw')).
  case_bool_decide as Halias.
  - exists (delete name m). split; [done|]. apply lookup_delete_eq.
  - destruct (remove_aliases_spec self c (w_aliases cw') _ _
                (cmds_upd _ _ _ (delete name m) Hm)) as (m' & Hrun & Hm').
    exists m'. rewrite (bind_Some _ _ _ _ _ Hrun), upd_cmds_upd.
    split; [done|]. rewrite Hm' by done. apply lookup_delete_eq.
Qed.

Lemma app_Group_remove_command_spec h self g name :
  adapters h !! self = Some g →
  app_Group_remove_command self name h
  = Some ({| wrappers := wrappers h;
             adapters := <[self := set_a_children (delete name (a_children g)) g]>
                           (adapters h);
             next_ref := next_ref h |}, Ok (a_children g !! name)).
Proof.
  intros Hg. unfold app_Group_remove_command.
  by rewrite (bind_Some _ _ _ _ _ (get_adapter_Some _ _ _ Hg)).
Qed.

(** C8: removing from a group the name under which a child and its
    adapter are registered returns the child and leaves neither an
    entry under that name in the command mapping of the group nor a
    child under that name in its adapter. *)
Theorem remove_command_both_sides (h : heap) (self : ref) (name : string)
    (s : wrapper) (ga : ref) (g : adapter) (c ca : ref) :
  wrappers h !! self = Some s →
  w_app_command s = Some ga →
  adapters h !! ga = Some g →
  w_all_commands s !! name = Some c →
  a_children g !! name = Some ca →
  is_Some (wrappers h !! c) →
  ∃ h' s' g',
    remove_command self name h = Some (h', Ok (Some c))
    ∧ wrappers h' !! self = Some s'
    ∧ w_all_commands s' !! name = None
    ∧ w_app_command s' = Some ga
    ∧ adapters h' !! ga = Some g'
    ∧ a_children g' !! name = None.
Proof.
  intros Hs Hga Hg Hc Hca Hcw.
  assert (cmds h self (w_all_commands s)) as Hm by (by exists s).
  destruct (GroupMixin_remove_command_spec _ _ _ _ _ Hm Hc Hcw) as (m' & Hrun & Hm').
  unfold remove_command. rewrite (bind_Some _ _ _ _ _ Hrun).
  assert (wrappers (upd_cmds self m' h) !! self = Some (set_w_all_commands m' s))
    as Hs'.
  { simpl. by rewrite lookup_alter_eq, Hs. }
  rewrite (bind_Some _ _ _ _ _ (getattr_app_command_Some _ _ _ _ Hs' Hga)).
  assert (adapters (upd_cmds self m' h) !! ga = Some g) as Hg' by done.
  rewrite (bind_Some _ _ _ _ _ (app_Group_remove_command_spec _ _ _ name Hg')).
  eexists _, _, _. split; [reflexivity|]. simpl.
  split_and!; [exact Hs'|done|done|apply lookup_insert_eq|].
  simpl. apply lookup_delete_eq.
Qed.

Lemma remove_command_both_sides_witness :
  ∃ h',
    remove_command 0 "foo" (heap_of cfg_with_foo) = Some (h', Ok (Some 2))
    ∧ wrapper_side h' 0 = [] ∧ structured_side h' 1 = [].
Proof.
  destruct (remove_command_both_sides (heap_of cfg_with_foo) 0 "foo"
              cfg_wrapper 1 cfg_adapter 2 3)
    as (h' & s' & g' & Hrun & _); [by vm_compute..| |].
  { eexists. by vm_compute. }
  exists h'. split; [exact Hrun|].
  vm_compute in Hrun. injection Hrun as <-. by vm_compute.
Defined.

(** C3, the part the code misses: [cfg] holds [foo] with alias [bar];
    adding a command named [bar] raises the registration conflict, and
    the adapter of [bar] stays behind in the adapter of [cfg], while
    the name [bar] of the command mapping still leads to [foo]. *)
Theorem add_command_name_conflict_leaves_adapter :
  ∃ h',
    add_command 0 4 cfg_foo_and_bar
    = Some (h', Raise (Exn CommandRegistrationError
                         [ArgStr "bar"; ArgBool false] None))
    ∧ structured_side (heap_of cfg_with_foo) 1 = [("foo", 3)]
    ∧ structured_side h' 1 = [("foo", 3); ("bar", 5)]
    ∧ wrapper_side h' 0 = [("foo", 2); ("bar", 2)].
Proof.
  destruct (add_command 0 4 cfg_foo_and_bar) as [[h' r]|] eqn:Hrun;
    vm_compute in Hrun; [|discriminate Hrun].
  injection Hrun as <- <-. eexists. split; [reflexivity|]. by vm_compute.
Qed.

(** The sibling path: an alias conflict after the name went in takes
    the name out again on both sides. *)
Lemma add_command_alias_conflict_rolls_back :
  ∃ h',
    add_command 0 4 cfg_foo_and_baz
    = Some (h', Raise (Exn CommandRegistrationError
                         [ArgStr "bar"; ArgBool true] None))
    ∧ structured_side h' 1 = [("foo", 3)]
    ∧ wrapper_side h' 0 = [("foo", 2); ("bar", 2)].
Proof.
  destruct (add_command 0 4 cfg_foo_and_baz) as [[h' r]|] eqn:Hrun;
    vm_compute in Hrun; [|discriminate Hrun].
  injection Hrun as <- <-. eexists. split; [reflexivity|]. by vm_compute.
Qed.

(** *** Registration leaves identities alone *)

#[local] Instance same_identity_w_refl : Reflexive same_identity_w.
Proof. intros w. by repeat split. Qed.

#[local] Instance same_identity_w_trans : Transitive same_identity_w.
Proof.
  intros w1 w2 w3 (?&?&?&?&?&?&?) (?&?&?&?&?&?&?).
  repeat split; congruence.
Qed.

#[local] Instance same_identity_a_refl : Reflexive same_identity_a.
Proof. intros a. by repeat split. Qed.

#[local] Instance same_identity_a_trans : Transitive same_identity_a.
Proof.
  intros a1 a2 a3 (?&?&?&?&?&?) (?&?&?&?&?&?).
  repeat split; congruence.
Qed.

#[local] Instance registration_only_refl : Reflexive registration_only.
Proof. intros h. by split_and!. Qed.

#[local] Instance registration_only_trans : Transitive registration_only.
Proof.
  intros h1 h2 h3 (Hn1 & Hw1 & Ha1) (Hn2 & Hw2 & Ha2). split_and!.
  - congruence.
  - intros r. etrans; [apply Hw1|apply Hw2].
  - intros r. etrans; [apply Ha1|apply Ha2].
Qed.

Lemma registers_only_ret {A} (a : A) : registers_only (ret a).
Proof. intros h h' r [= <- <-]. done. Qed.

Lemma registers_only_raise {A} e : registers_only (@raise A e).
Proof. intros h h' r [= <- <-]. done. Qed.

Lemma registers_only_bind {A B} (m : M A) (k : A → M B) :
  registers_only m → (∀ a, registers_only (k a)) → registers_only (bind m k).
Proof.
  intros Hm Hk h h' r. unfold bind.
  destruct (m h) as [[h1 [a|e]]|] eqn:Hrun; [| |done].
  - intros Hrun'. etrans; [by eapply Hm|by eapply Hk].
  - intros [= <- <-]. by eapply Hm.
Qed.

Lemma registers_only_get_wrapper r : registers_only (get_wrapper r).
Proof.
  intros h h' res. unfold get_wrapper.
  destruct (wrappers h !! r); [|done]. by intros [= <- <-].
Qed.

Lemma registers_only_get_adapter r : registers_only (get_adapter r).
Proof.
  intros h h' res. unfold get_adapter.
  destruct (adapters h !! r); [|done]. by intros [= <- <-].
Qed.

Lemma registers_only_modify_wrapper r f :
  (∀ w, same_identity_w w (f w)) → registers_only (modify_wrapper r f).
Proof.
  intros Hf h h' res. unfold modify_wrapper, bind, get_wrapper, put_wrapper.
  destruct (wrappers h !! r) as [w|] eqn:Hw; [|done]. intros [= <- <-].
  split_and!; [done| |done]. simpl.
  intros r'. rewrite lookup_insert. case_decide; [|done].
  subst. rewrite Hw. by constructor.
Qed.

Lemma registers_only_modify_adapter r f :
  (∀ a, same_identity_a a (f a)) → registers_only (modify_adapter r f).
Proof.
  intros Hf h h' res. unfold modify_adapter, bind, get_adapter, put_adapter.
  destruct (adapters h !! r) as [a|] eqn:Ha; [|done]. intros [= <- <-].
  split_and!; [done|done|]. simpl.
  intros r'. rewrite lookup_insert. case_decide; [|done].
  subst. rewrite Ha. by constructor.
Qed.

Lemma registers_only_getattr_app_command r :
  registers_only (getattr_app_command r).
Proof.
  apply registers_only_bind; [apply registers_only_get_wrapper|].
  intros w. destruct (w_app_command w);
    [apply registers_only_ret|apply registers_only_raise].
Qed.

Lemma registers_only_all_commands_contains self name :
  registers_only (all_commands_contains self name).
Proof.
  apply registers_only_bind; [apply registers_only_get_wrapper|].
  intros w. apply registers_only_ret.
Qed.

Lemma registers_only_all_commands_set self name command :
  registers_only (all_commands_set self name command).
Proof. apply registers_only_modify_wrapper. intros w. by repeat split. Qed.

Lemma registers_only_all_commands_pop self name :
  registers_only (all_commands_pop self name).
Proof.
  intros h h' res. unfold all_commands_pop, bind, get_wrapper, put_wrapper, ret.
  destruct (wrappers h !! self) as [w|] eqn:Hw; [|done]. intros [= <- <-].
  split_and!; [done| |done]. simpl.
  intros r'. rewrite lookup_insert. case_decide; [|done].
  subst. rewrite Hw. constructor. by repeat split.
Qed.

Lemma registers_only_remove_aliases self command aliases :
  registers_only (remove_aliases self command aliases).
Proof.
  induction aliases as [|alias aliases IH]; simpl; [apply registers_only_ret|].
  apply registers_only_bind; [apply registers_only_all_commands_pop|].
  intros cmd. apply registers_only_bind; [|done].
  destruct cmd as [cmd'|]; [|apply registers_only_ret].
  case_bool_decide;
    [apply registers_only_all_commands_set|apply registers_only_ret].
Qed.

Lemma registers_only_app_Group_remove_command self name :
  registers_only (app_Group_remove_command self name).
Proof.
  intros h h' res.
  unfold app_Group_remove_command, bind, get_adapter, put_adapter, ret.
  destruct (adapters h !! self) as [g|] eqn:Hg; [|done]. intros [= <- <-].
  split_and!; [done|done|]. simpl.
  intros r'. rewrite lookup_insert. case_decide; [|done].
  subst. rewrite Hg. constructor. by repeat split.
Qed.

Lemma registers_only_remove_command self name :
  registers_only (remove_command self name).
Proof.
  apply registers_only_bind.
  { apply registers_only_bind; [apply registers_only_all_commands_pop|].
    intros [c|]; [|apply registers_only_ret].
    apply registers_only_bind; [apply registers_only_get_wrapper|].
    intros cw. case_bool_decide; [apply registers_only_ret|].
    apply registers_only_bind; [apply registers_only_remove_aliases|].
    intros _. apply registers_only_ret. }
  intros cmd. apply registers_only_bind; [apply registers_only_getattr_app_command|].
  intros app. apply registers_only_bind;
    [apply registers_only_app_Group_remove_command|].
  intros _. apply registers_only_ret.
Qed.

Lemma registers_only_add_aliases self command name aliases :
  registers_only (add_aliases self command name aliases).
Proof.
  induction aliases as [|alias aliases IH]; simpl; [apply registers_only_ret|].
  apply registers_only_bind; [apply registers_only_all_commands_contains|].
  intros [].
  - apply registers_only_bind; [apply registers_only_remove_command|].
    intros _. apply registers_only_raise.
  - apply registers_only_bind; [apply registers_only_all_commands_set|done].
Qed.

Lemma registers_only_app_Group_add_command self command :
  registers_only (app_Group_add_command self command).
Proof.
  apply registers_only_bind; [apply registers_only_get_adapter|]. intros c.
  apply registers_only_bind; [apply registers_only_get_adapter|]. intros g.
  assert (registers_only
            match a_children g !! a_name c with
            | Some _ =>
                raise (Exn CommandAlreadyRegistered [ArgStr (a_name c)] None)
            | None =>
                do _ <- modify_adapter self
                          (λ g, set_a_children
                                  (<[a_name c := command]> (a_children g)) g);
                modify_adapter command (set_a_parent (Some self))
            end) as Hrest.
  { destruct (a_children g !! a_name c); [apply registers_only_raise|].
    apply registers_only_bind.
    - apply registers_only_modify_adapter. intros a. by repeat split.
    - intros _. apply registers_only_modify_adapter. intros a. by repeat split. }
  destruct (a_class c); [done|].
  destruct (a_parent g); [apply registers_only_raise|done].
Qed.

Lemma registers_only_add_command self command :
  registers_only (add_command self command).
Proof.
  apply registers_only_bind; [apply registers_only_get_wrapper|]. intros c.
  destruct (negb (is_hybrid (w_class c))); [apply registers_only_raise|].
  apply registers_only_bind; [apply registers_only_get_wrapper|]. intros s.
  destruct (is_HybridGroup (w_class c) && bool_decide (is_Some (w_parent s)));
    [apply registers_only_raise|].
  apply registers_only_bind; [apply registers_only_getattr_app_command|].
  intros self_app.
  apply registers_only_bind; [apply registers_only_getattr_app_command|].
  intros command_app.
  apply registers_only_bind; [apply registers_only_app_Group_add_command|].
  intros _. apply registers_only_bind.
  { apply registers_only_modify_wrapper. intros w. by repeat split. }
  intros _. apply registers_only_bind; [apply registers_only_get_wrapper|].
  intros c'.
  apply registers_only_bind; [apply registers_only_all_commands_contains|].
  intros []; [apply registers_only_raise|].
  apply registers_only_bind; [apply registers_only_all_commands_set|].
  intros _. apply registers_only_add_aliases.
Qed.

Lemma option_Forall2_Some_r {A} (R : relation A) mx y :
  option_Forall2 R mx (Some y) → ∃ x, mx = Some x ∧ R x y.
Proof. inversion 1; eauto. Qed.

Lemma option_Forall2_Some_l {A} (R : relation A) x my :
  option_Forall2 R (Some x) my → ∃ y, my = Some y ∧ R x y.
Proof. inversion 1; eauto. Qed.

Lemma heap_inv_registration_only h h' :
  heap_inv h → registration_only h h' → heap_inv h'.
Proof.
  intros [Hfw Hfa Hpair] (Hn & Hw & Ha). split.
  - intros r w' Hw'. specialize (Hw r). rewrite Hw' in Hw.
    apply option_Forall2_Some_r in Hw as (w & Heq & _).
    rewrite <- Hn. by eapply Hfw.
  - intros r a' Ha'. specialize (Ha r). rewrite Ha' in Ha.
    apply option_Forall2_Some_r in Ha as (a & Heq & _).
    rewrite <- Hn. by eapply Hfa.
  - intros r w' ar Hw' Happ. specialize (Hw r). rewrite Hw' in Hw.
    apply option_Forall2_Some_r in Hw
      as (w & Heq & (Hc & Hna & _ & Hd & Hsd & Hcog & Hac)).
    rewrite <- Hac in Happ.
    destruct (Hpair r w ar Heq Happ) as (a & Hlook & Hname & Hdesc & Hhc).
    specialize (Ha ar). rewrite Hlook in Ha.
    apply option_Forall2_Some_l in Ha
      as (a' & Heq' & (Hac' & Hna' & Hd' & _ & Hb' & Hwr')).
    exists a'. split; [done|]. split_and!.
    + congruence.
    + rewrite <- Hd', Hdesc. unfold mirrored_description. by rewrite Hd, Hsd.
    + intros Hcls. rewrite <- Hc in Hcls. destruct (Hhc Hcls). split; congruence.
Qed.

(** *** Construction *)

Lemma modify_adapter_Some h r f a :
  adapters h !! r = Some a →
  modify_adapter r f h
  = Some ({| wrappers := wrappers h; adapters := <[r := f a]> (adapters h);
             next_ref := next_ref h |}, Ok ()).
Proof.
  intros Ha. unfold modify_adapter.
  by rewrite (bind_Some _ _ _ _ _ (get_adapter_Some _ _ _ Ha)).
Qed.

Lemma modify_wrapper_Some h r f w :
  wrappers h !! r = Some w →
  modify_wrapper r f h
  = Some ({| wrappers := <[r := f w]> (wrappers h); adapters := adapters h;
             next_ref := next_ref h |}, Ok ()).
Proof.
  intros Hw. unfold modify_wrapper.
  by rewrite (bind_Some _ _ _ _ _ (get_wrapper_Some _ _ _ Hw)).
Qed.

Lemma Command_init_spec cls kw h :
  Command_init cls kw h
  = Some (with_wrapper (fresh_wrapper cls kw) h, Ok (next_ref h)).
Proof. done. Qed.

Lemma HybridAppCommand_init_spec valid h wrapped w :
  wrappers h !! wrapped = Some w →
  HybridAppCommand_init valid wrapped h
  = if valid (w_name w)
    then Some ({| wrappers := wrappers h;
                  adapters :=
                    <[next_ref h :=
                        {| a_class := AppCommand; a_name := w_name w;
                           a_description := mirrored_description w;
                           a_guild_ids := None; a_parent := None;
                           a_binding := w_cog w; a_wrapped := Some wrapped;
                           a_children := ∅ |}]> (adapters h);
                  next_ref := S (next_ref h) |}, Ok (next_ref h))
    else Some (h, Raise (Exn ValueError [ArgStr (w_name w)] None)).
Proof.
  intros Hw. unfold HybridAppCommand_init.
  rewrite (bind_Some _ _ _ _ _ (get_wrapper_Some _ _ _ Hw)).
  unfold app_Command_init, validate_name.
  destruct (valid (w_name w)); [|done].
  unfold bind at 1. unfold bind at 1. simpl.
  erewrite (bind_Some (modify_adapter _ _));
    [|apply modify_adapter_Some; simpl; apply lookup_insert_eq].
  erewrite (bind_Some (get_wrapper _)); [|by apply get_wrapper_Some].
  erewrite (bind_Some (modify_adapter _ _));
    [|apply modify_adapter_Some; simpl; apply lookup_insert_eq].
  unfold ret. do 2 f_equal. apply heap_eq; [done| |done]. simpl.
  by rewrite !insert_insert_eq.
Qed.

Lemma HybridCommand_init_spec valid kw h :
  HybridCommand_init valid kw h
  = if valid (attr_name kw)
    then Some (with_pair
                 (set_w_app_command (Some (S (next_ref h)))
                    (fresh_wrapper HybridCommand kw))
                 {| a_class := AppCommand; a_name := attr_name kw;
                    a_description :=
                      mirrored_description (fresh_wrapper HybridCommand kw);
                    a_guild_ids := None; a_parent := None;
                    a_binding := None; a_wrapped := Some (next_ref h);
                    a_children := ∅ |} h, Ok (next_ref h))
    else Some (with_wrapper (fresh_wrapper HybridCommand kw) h,
               Raise (Exn ValueError [ArgStr (attr_name kw)] None)).
Proof.
  unfold HybridCommand_init.
  rewrite (bind_Some _ _ _ _ _ (Command_init_spec _ _ _)).
  unfold bind at 1.
  rewrite (HybridAppCommand_init_spec valid _ _ (fresh_wrapper HybridCommand kw))
    by apply lookup_insert_eq.
  simpl. destruct (valid (attr_name kw)); [|done].
  erewrite (bind_Some (modify_wrapper _ _));
    [|apply modify_wrapper_Some; simpl; apply lookup_insert_eq].
  unfold ret. do 2 f_equal. apply heap_eq; [|done..]. simpl.
  by rewrite insert_insert_eq.
Qed.

(** However [HybridGroup.__init__] ends, it leaves the new wrapper
    alone or with its adapter. *)
Lemma HybridGroup_init_inv valid kw h h' res :
  HybridGroup_init valid kw h = Some (h', res) →
  (h' = with_wrapper (fresh_wrapper HybridGroup kw) h ∧ ∃ e, res = Raise e)
  ∨ ∃ parent,
      res = Ok (next_ref h) ∧
      h' = with_pair
             (set_w_app_command (Some (S (next_ref h)))
                (fresh_wrapper HybridGroup kw))
             {| a_class := AppGroup; a_name := attr_name kw;
                a_description :=
                  mirrored_description (fresh_wrapper HybridGroup kw);
                a_guild_ids := list_or (attr_guild_ids kw) (attr_default_guilds kw);
                a_parent := parent; a_binding := None; a_wrapped := None;
                a_children := ∅ |} h.
Proof.
  unfold HybridGroup_init.
  rewrite (bind_Some _ _ _ _ _ (Command_init_spec _ _ _)).
  set (w0 := fresh_wrapper HybridGroup kw). set (h1 := with_wrapper w0 h).
  assert (wrappers h1 !! next_ref h = Some w0) as Hw0 by apply lookup_insert_eq.
  rewrite (bind_Some _ _ _ _ _ (get_wrapper_Some _ _ _ Hw0)).
  assert (∀ parent,
            bind (app_Group_init valid (w_name w0) (mirrored_description w0)
                    (list_or (attr_guild_ids kw) (attr_default_guilds kw)))
              (λ a, bind (modify_wrapper (next_ref h) (set_w_app_command (Some a)))
                      (λ _, bind (modify_adapter a (set_a_parent parent))
                              (λ _, ret (next_ref h)))) h1 = Some (h', res) →
            (h' = h1 ∧ ∃ e, res = Raise e) ∨ ∃ parent, res = Ok (next_ref h) ∧ h' = with_pair
             (set_w_app_command (Some (S (next_ref h))) w0)
             {| a_class := AppGroup; a_name := attr_name kw;
                a_description := mirrored_description w0;
                a_guild_ids := list_or (attr_guild_ids kw) (attr_default_guilds kw);
                a_parent := parent; a_binding := None; a_wrapped := None;
                a_children := ∅ |} h) as Hrest.
  { intros parent. unfold app_Group_init, validate_name. simpl.
    destruct (valid (attr_name kw)).
    2:{ intros [= <- <-]. left. eauto. }
    unfold bind at 1. unfold bind at 1. simpl.
    erewrite (bind_Some (modify_wrapper _ _));
      [|apply modify_wrapper_Some; simpl; apply lookup_insert_eq].
    erewrite (bind_Some (modify_adapter _ _));
      [|apply modify_adapter_Some; simpl; apply lookup_insert_eq].
    intros [= <- <-]. right. exists parent. split; [done|].
    apply heap_eq; [| |done]; simpl.
    - by rewrite insert_insert_eq.
    - by rewrite insert_insert_eq. }
  destruct (w_parent w0) as [p|].
  - unfold bind at 1. unfold bind at 1. unfold get_wrapper at 1.
    destruct (wrappers h1 !! p) as [pw|]; [|done].
    destruct (is_HybridGroup (w_class pw)).
    + unfold bind at 1. unfold getattr_app_command, bind at 1.
      unfold get_wrapper at 1.
      destruct (wrappers h1 !! p) as [pw'|]; [|done].
      destruct (w_app_command pw') as [pa|].
      * apply Hrest.
      * intros [= <- <-]. left. eauto.
    + intros [= <- <-]. left. eauto.
  - apply Hrest.
Qed.

Lemma heap_inv_with_wrapper h w :
  heap_inv h → w_app_command w = None → heap_inv (with_wrapper w h).
Proof.
  intros [Hfw Hfa Hpair] Hnone. split; simpl.
  - intros r w'. rewrite lookup_insert. case_decide; [lia|].
    intros Hw'. apply Hfw in Hw'. lia.
  - intros r a Ha. apply Hfa in Ha. lia.
  - intros r w' ar. rewrite lookup_insert. case_decide.
    + intros [= <-]. congruence.
    + apply Hpair.
Qed.

Lemma extends_with_wrapper h w : heap_inv h → extends h (with_wrapper w h).
Proof.
  intros [Hfw Hfa Hpair]. split; simpl; [|done].
  intros r w' Hw'. rewrite lookup_insert_ne; [done|].
  apply Hfw in Hw'. lia.
Qed.

Lemma heap_inv_with_pair h w a :
  heap_inv h →
  w_app_command w = Some (S (next_ref h)) →
  a_name a = w_name w → a_description a = mirrored_description w →
  (w_class w = HybridCommand →
   a_wrapped a = Some (next_ref h) ∧ a_binding a = w_cog w) →
  heap_inv (with_pair w a h).
Proof.
  intros [Hfw Hfa Hpair] Happ Hname Hdesc Hhc. split; simpl.
  - intros r w'. rewrite lookup_insert. case_decide; [lia|].
    intros Hw'. apply Hfw in Hw'. lia.
  - intros r a'. rewrite lookup_insert. case_decide; [lia|].
    intros Ha'. apply Hfa in Ha'. lia.
  - intros r w' ar. rewrite lookup_insert. case_decide.
    + intros [= <-] Har. subst r. rewrite Happ in Har. injection Har as <-.
      exists a. by rewrite lookup_insert_eq.
    + intros Hw' Har.
      destruct (Hpair r w' ar Hw' Har) as (a' & Ha' & Hrest).
      exists a'. split; [|done].
      rewrite lookup_insert_ne; [done|]. apply Hfa in Ha'. lia.
Qed.

Lemma extends_with_pair h w a : heap_inv h → extends h (with_pair w a h).
Proof.
  intros [Hfw Hfa Hpair]. split; simpl.
  - intros r w' Hw'. rewrite lookup_insert_ne; [done|].
    apply Hfw in Hw'. lia.
  - intros r a' Ha'. rewrite lookup_insert_ne; [done|].
    apply Hfa in Ha'. lia.
Qed.

Lemma HybridCommand_init_inv valid kw h h' res :
  heap_inv h → HybridCommand_init valid kw h = Some (h', res) →
  heap_inv h' ∧ extends h h'.
Proof.
  intros Hinv. rewrite HybridCommand_init_spec.
  destruct (valid (attr_name kw)); intros [= <- <-].
  - split; [|by apply extends_with_pair].
    by apply heap_inv_with_pair.
  - split; [|by apply extends_with_wrapper].
    by apply heap_inv_with_wrapper.
Qed.

Lemma HybridGroup_init_heap_inv valid kw h h' res :
  heap_inv h → HybridGroup_init valid kw h = Some (h', res) →
  heap_inv h' ∧ extends h h'.
Proof.
  intros Hinv Hrun.
  apply HybridGroup_init_inv in Hrun as [[-> _]|(parent & _ & ->)].
  - split; [|by apply extends_with_wrapper].
    by apply heap_inv_with_wrapper.
  - split; [|by apply extends_with_pair].
    by apply heap_inv_with_pair.
Qed.

Lemma heap_inv_with_adapter h a : heap_inv h → heap_inv (with_adapter a h).
Proof.
  intros [Hfw Hfa Hpair]. split; simpl.
  - intros r w Hw. apply Hfw in Hw. lia.
  - intros r a'. rewrite lookup_insert. case_decide; [lia|].
    intros Ha'. apply Hfa in Ha'. lia.
  - intros r w ar Hw Har.
    destruct (Hpair r w ar Hw Har) as (a' & Ha' & Hrest).
    exists a'. split; [|done].
    rewrite lookup_insert_ne; [done|]. apply Hfa in Ha'. lia.
Qed.


Lemma copy_with_spec h self made s :
  heap_inv h → adapters h !! self = Some s →
  _copy_with self made h
  = Some (with_adapter (set_a_wrapped (a_wrapped s) made) h, Ok (next_ref h)).
Proof.
  intros Hinv Hs. unfold _copy_with.
  unfold bind at 1. unfold bind at 1. simpl.
  erewrite (bind_Some (get_adapter _)).
  2:{ apply get_adapter_Some. simpl. rewrite lookup_insert_ne; [done|].
      apply (inv_fresh_a h Hinv) in Hs. lia. }
  erewrite (bind_Some (modify_adapter _ _));
    [|apply modify_adapter_Some; simpl; apply lookup_insert_eq].
  unfold ret. do 2 f_equal. apply heap_eq; [done| |done]. simpl.
  by rewrite insert_insert_eq.
Qed.

(** *** The cog setter *)

Lemma getattr_app_command_spec h r w :
  wrappers h !! r = Some w →
  getattr_app_command r h
  = Some (h, match w_app_command w with
             | Some a => Ok a
             | None => Raise (Exn AttributeError [ArgStr "app_command"] None)
             end).
Proof.
  intros Hw. unfold getattr_app_command.
  rewrite (bind_Some _ _ _ _ _ (get_wrapper_Some _ _ _ Hw)).
  by destruct (w_app_command w).
Qed.

Lemma set_cog_inv self value h h' res w :
  wrappers h !! self = Some w →
  set_cog self value h = Some (h', res) →
  (w_app_command w = None
   ∧ h' = {| wrappers := <[self := set_w_cog value w]> (wrappers h);
             adapters := adapters h; next_ref := next_ref h |})
  ∨ (∃ ar a,
       w_app_command w = Some ar ∧ adapters h !! ar = Some a
       ∧ res = Ok ()
       ∧ h' = {| wrappers := <[self := set_w_cog value w]> (wrappers h);
                 adapters := <[ar := set_a_binding value a]> (adapters h);
                 next_ref := next_ref h |}).
Proof.
  intros Hw. unfold set_cog.
  rewrite (bind_Some _ _ _ _ _ (modify_wrapper_Some _ _ _ _ Hw)).
  unfold bind at 1.
  erewrite getattr_app_command_spec by (simpl; apply lookup_insert_eq).
  simpl. destruct (w_app_command w) as [ar|] eqn:Har.
  - unfold modify_adapter, bind, get_adapter. simpl.
    destruct (adapters h !! ar) as [a|] eqn:Ha; [|done].
    intros [= <- <-]. right. by exists ar, a.
  - intros [= <- <-]. by left.
Qed.

Lemma set_cog_heap_inv self value h h' res w :
  heap_inv h → wrappers h !! self = Some w → w_class w = HybridCommand →
  set_cog self value h = Some (h', res) → heap_inv h'.
Proof.
  intros [Hfw Hfa Hpair] Hw Hcls Hrun.
  apply (set_cog_inv _ _ _ _ _ _ Hw) in Hrun
    as [[Hnone ->]|(ar & a & Har & Ha & _ & ->)]; split; simpl.
  - intros r w'. rewrite lookup_insert. case_decide; [|by apply Hfw].
    subst. intros _. by eapply Hfw.
  - done.
  - intros r w' ar. rewrite lookup_insert. case_decide; [|by apply Hpair].
    intros [= <-]. simpl. congruence.
  - intros r w'. rewrite lookup_insert. case_decide; [|by apply Hfw].
    subst. intros _. by eapply Hfw.
  - intros r a'. rewrite lookup_insert. case_decide; [|by apply Hfa].
    subst. intros _. by eapply Hfa.
  - destruct (Hpair self w ar Hw Har) as (a0 & Ha0 & Hname & Hdesc & Hhc).
    rewrite Ha in Ha0. injection Ha0 as <-.
    destruct (Hhc Hcls) as [Hwr Hbind].
    intros r w' ar'. rewrite lookup_insert. case_decide.
    + intros [= <-]. simpl. intros Har'. rewrite Har in Har'.
      injection Har' as <-. subst r. rewrite lookup_insert_eq.
      eexists. split; [done|]. simpl. by split_and!.
    + intros Hw' Har'.
      destruct (Hpair r w' ar' Hw' Har') as (a' & Ha' & Hname' & Hdesc' & Hhc').
      rewrite lookup_insert. case_decide.
      * subst ar'. rewrite Ha in Ha'. injection Ha' as <-.
        eexists. split; [done|]. split_and!; [done..|].
        intros Hcls'. destruct (Hhc' Hcls'). congruence.
      * by exists a'.
Qed.

(** *** The heaps a program reaches *)

Lemma discard_inv {A} (m : M A) h h' r :
  discard m h = Some (h', r) → ∃ r', m h = Some (h', r').
Proof.
  unfold discard, bind. destruct (m h) as [[h1 [a|e]]|]; [| |done].
  - intros [= <- <-]. eauto.
  - intros [= <- <-]. eauto.
Qed.

Lemma on_class_inv cls self m h h' r :
  on_class cls self m h = Some (h', r) →
  ∃ w, wrappers h !! self = Some w ∧ w_class w = cls ∧ m h = Some (h', r).
Proof.
  unfold on_class, bind, get_wrapper.
  destruct (wrappers h !! self) as [w|]; [|done].
  case_bool_decide; [|done]. eauto.
Qed.

Lemma on_adapter_class_inv cls self m h h' r :
  on_adapter_class cls self m h = Some (h', r) →
  ∃ a, adapters h !! self = Some a ∧ a_class a = cls ∧ m h = Some (h', r).
Proof.
  unfold on_adapter_class, bind, get_adapter.
  destruct (adapters h !! self) as [a|]; [|done].
  destruct (a_class a) eqn:Hcls, cls; try done; intros Hm; by exists a.
Qed.

Lemma run_heap_inv valid o h h' res :
  heap_inv h → run valid o h = Some (h', res) → heap_inv h'.
Proof.
  intros Hinv.
  destruct o as [kw|kw|self value|self made|self command|self name]; simpl.
  - intros (r & Hrun)%discard_inv. by eapply HybridCommand_init_inv.
  - intros (r & Hrun)%discard_inv. by eapply HybridGroup_init_heap_inv.
  - intros (w & Hw & Hcls & Hrun)%on_class_inv. by eapply set_cog_heap_inv.
  - intros (a & Ha & Hcls & (r & Hrun)%discard_inv)%on_adapter_class_inv.
    rewrite (copy_with_spec _ _ _ _ Hinv Ha) in Hrun. injection Hrun as <- <-.
    by apply heap_inv_with_adapter.
  - intros (w & Hw & Hcls & Hrun)%on_class_inv.
    eapply heap_inv_registration_only; [done|].
    by eapply registers_only_add_command.
  - intros (w & Hw & Hcls & (r & Hrun)%discard_inv)%on_class_inv.
    eapply heap_inv_registration_only; [done|].
    by eapply registers_only_remove_command.
Qed.

Lemma heap_inv_empty : heap_inv empty_heap.
Proof. split; simpl; intros *; by rewrite lookup_empty. Qed.

Lemma reachable_heap_inv valid h : reachable valid h → heap_inv h.
Proof.
  induction 1 as [|h o h' _ IH [res Hrun]]; [apply heap_inv_empty|].
  by eapply run_heap_inv.
Qed.

Lemma run_all_reachable valid ops : ∀ h h' rs,
  reachable valid h → run_all valid ops h = Some (h', rs) → reachable valid h'.
Proof.
  induction ops as [|o ops IH]; intros h h' rs Hreach; simpl.
  - by intros [= <-].
  - destruct (run valid o h) as [[h1 r]|] eqn:Hrun; [|done].
    destruct (run_all valid ops h1) as [[h2 rs']|] eqn:Hrest; [|done].
    intros [= <- <-]. eapply IH; [|done].
    eapply reachable_step; [done|]. by exists r.
Qed.

Lemma heap_of_run_all_reachable valid ops h :
  reachable valid h → reachable valid (heap_of (run_all valid ops h)).
Proof.
  intros Hreach. destruct (run_all valid ops h) as [[h' rs]|] eqn:Hrun; simpl.
  - by eapply run_all_reachable.
  - apply reachable_empty.
Qed.

(** C9: in every heap a program reaches, the adapter of a hybrid
    command or hybrid group has the name of its wrapper and, as
    description, the wrapper's description, else its short doc, else
    the placeholder; and a constructor that returns has made such a
    pair. *)
Theorem adapter_mirrors_wrapper (valid : string → bool) (h : heap) :
  reachable valid h →
  (∀ r w a,
     pair_of h r w a →
     a_name a = w_name w ∧ a_description a = mirrored_description w)
  ∧ (∀ kw h' r,
       HybridCommand_init valid kw h = Some (h', Ok r)
       ∨ HybridGroup_init valid kw h = Some (h', Ok r) →
       ∃ w a,
         pair_of h' r w a ∧ w_name w = attr_name kw
         ∧ a_name a = attr_name kw
         ∧ a_description a
           = str_or (attr_description kw) (str_or (attr_short_doc kw) "…")).
Proof.
  intros Hreach. split.
  - intros r w a (Hw & ar & Har & Ha).
    destruct (inv_pair h (reachable_heap_inv _ _ Hreach) r w ar Hw Har)
      as (a' & Ha' & Hname & Hdesc & _).
    rewrite Ha in Ha'. injection Ha' as <-. done.
  - intros kw h' r [Hrun|Hrun].
    + rewrite HybridCommand_init_spec in Hrun.
      destruct (valid (attr_name kw)); [|done]. injection Hrun as <- <-.
      eexists _, _. split.
      { split; [simpl; apply lookup_insert_eq|].
        eexists. split; [reflexivity|]. simpl. apply lookup_insert_eq. }
      done.
    + apply HybridGroup_init_inv in Hrun as [[_ [e [=]]]|(parent & [= ->] & ->)].
      eexists _, _. split.
      { split; [simpl; apply lookup_insert_eq|].
        eexists. split; [reflexivity|]. simpl. apply lookup_insert_eq. }
      done.
Qed.

Lemma adapter_mirrors_wrapper_witness :
  a_name cfg_adapter = "cfg" ∧ a_description cfg_adapter = "…".
Proof.
  destruct (adapter_mirrors_wrapper valid_name (heap_of cfg_with_foo)) as [H _].
  { apply heap_of_run_all_reachable, reachable_empty. }
  apply (H 0 cfg_wrapper cfg_adapter).
  split; [by vm_compute|]. exists 1. split; [done|]. by vm_compute.
Defined.





End registry.

(** * Further properties *)

(** ** The unified entry point and the transformers *)

Section invoke_more.
Import Invoke InvokeMore Converters Samples.

Lemma handle_raise_same e e' : handle e = Raise e' → e' = e.
Proof.
  unfold handle. intros H. by repeat (case_match; simplify_eq).
Qed.

Lemma guarded_Ok inv ctx v :
  guarded inv ctx = Ok v ↔ prepare inv ctx = Ok () ∧ _do_call inv ctx = Ok v.
Proof.
  unfold guarded. destruct (prepare inv ctx) as [[]|e]; intuition congruence.
Qed.

Lemma guarded_Raise inv ctx e :
  guarded inv ctx = Raise e ↔ body_raises inv ctx e.
Proof.
  unfold guarded, body_raises.
  destruct (prepare inv ctx) as [[]|e0]; intuition congruence.
Qed.

(** X1: an invocation ends in one of these ways: building the context
    fails, and that exception reaches the caller; the setup and the
    callback return, and the value of the callback is returned with
    nothing dispatched; the setup or the callback raises, and that
    very exception reaches the caller with nothing dispatched; or the
    setup or the callback raises, exactly one error, a command-level
    one, is handed to the error dispatch, and the call ends as the
    dispatch ends: with [None] when it returns, with its exception
    when it raises. *)
Theorem invoke_outcomes (inv : invocation) :
  (∃ e, get_context inv = Raise e
        ∧ _invoke_with_namespace inv = ([], Raise e))
  ∨ ∃ ctx,
      get_context inv = Ok ctx
      ∧ ((∃ v, prepare inv ctx = Ok () ∧ _do_call inv ctx = Ok v
               ∧ _invoke_with_namespace inv = ([], Ok v))
         ∨ (∃ e, body_raises inv ctx e
                 ∧ _invoke_with_namespace inv = ([], Raise e))
         ∨ (∃ e exc,
              body_raises inv ctx e
              ∧ isinstance exc CommandError = true
              ∧ (_invoke_with_namespace inv).1 = [(ctx, exc)]
              ∧ ((dispatch_error inv ctx exc = Ok ()
                  ∧ (_invoke_with_namespace inv).2 = Ok PyNone)
                 ∨ (∃ e', dispatch_error inv ctx exc = Raise e'
                          ∧ (_invoke_with_namespace inv).2 = Raise e')))).
Proof.
  unfold _invoke_with_namespace.
  destruct (get_context inv) as [ctx|e]; [right; exists ctx|left; eauto].
  split; [done|].
  destruct (guarded inv ctx) as [v|e] eqn:Hbody.
  { left. apply guarded_Ok in Hbody as [? ?]. eauto. }
  apply guarded_Raise in Hbody.
  destruct (handle e) as [exc|e'] eqn:Hh.
  - right; right. exists e, exc. split_and!; [done| |done|].
    + by eapply handle_dispatches_command_error.
    + simpl. destruct (dispatch_error inv ctx exc) as [[]|e']; eauto.
  - right; left. apply handle_raise_same in Hh as ->. eauto.
Qed.

(** X2: whatever converter it closes over, an instance of [Exception]
    that leaves a synthesized transformer is a command-level error. *)
Theorem transform_raises_command_errors
    (c : converter) (ctx : Context) (value : string) (e : exn) :
  transform c ctx value = Raise e →
  isinstance e Exception = true → isinstance e CommandError = true.
Proof.
  unfold transform.
  destruct (call_converter c ctx value) as [v|e0]; [done|].
  destruct (isinstance e0 CommandError) eqn:Hcmd.
  - by intros [= <-].
  - destruct (isinstance e0 Exception) eqn:Hexc.
    + by intros [= <-].
    + intros [= <-]. by rewrite Hexc.
Qed.

Lemma transform_raises_command_errors_witness :
  isinstance
    (Exn ConversionError [ArgObj 40; ArgExc not_an_int] (Some not_an_int))
    CommandError = true.
Proof.
  apply (transform_raises_command_errors int_converter 7 "twelve");
    reflexivity.
Defined.

End invoke_more.

(** ** Parameter replacement, continued *)

Section converters_more.
Import Converters ConvertersMore Samples MoreSamples.

Lemma dict_set_Forall2 {V} name (v p : V) d :
  dict_get name d = Some p →
  Forall2 (λ e e', e'.1 = e.1 ∧ (e' = e ∨ (e.2 = p ∧ e'.2 = v))) d
    (dict_set name v d).
Proof.
  induction d as [|[k w] d IH]; simpl; [done|].
  case_decide as Hk.
  - intros [= ->]. constructor; [by auto|].
    apply Forall_Forall2_diag, Forall_forall. auto.
  - intros Hget. constructor; [by auto|]. by apply IH.
Qed.

Lemma replace_loop_Forall2 items : ∀ params params',
  replace_loop items params = Ok params' →
  Forall2 (λ e e', e'.1 = e.1 ∧ same_but_annotation e.2 e'.2
                   ∧ annotation_kept_or_synthesized items e.2 e'.2)
    params params'.
Proof.
  induction items as [|[name parameter] items IH]; intros params params'; simpl.
  - intros [= <-]. apply Forall_Forall2_diag, Forall_forall.
    intros e _. split_and!; [done|by repeat split|by left].
  - assert (∀ p q, annotation_kept_or_synthesized items p q →
                   annotation_kept_or_synthesized ((name, parameter) :: items) p q)
      as Hmono.
    { intros p q [?|(n & prm & Hin & ? & ?)]; [by left|].
      right. exists n, prm. split_and!; [by right|done..]. }
    destruct (wants_transformer parameter) eqn:Hw.
    + destruct (dict_get name params) as [p|] eqn:Hget; [|done].
      intros Hrun. apply IH in Hrun.
      eapply Forall2_trans; [|by apply dict_set_Forall2|exact Hrun].
      intros e1 e2 e3 (Hk12 & Hch) (Hk23 & Hsame & Hann). simpl in *.
      split; [congruence|].
      destruct Hch as [->|[Hp Hv]]; [by auto|].
      rewrite Hv in Hsame, Hann. rewrite Hp.
      destruct Hsame as (? & ? & ?). split; [by repeat split|].
      destruct Hann as [Hann|(n & prm & Hin & ? & ?)].
      * right. exists name, parameter. split_and!; [by left|done..].
      * right. exists n, prm. split_and!; [by right|done..].
    + intros Hrun. apply IH in Hrun.
      eapply Forall2_impl; [exact Hrun|].
      intros e e' (? & ? & ?). by auto.
Qed.

(** X8: whenever the replacement step returns, it returns as many
    parameters as the signature has, in the same order, each with the
    name, kind and default it had; an annotation is either kept or is
    a transformer synthesized for a converter of the command that
    calls for one. *)
Theorem replace_parameters_keeps_shape
    (parameters : list (string * commands_Parameter))
    (signature : list (string * inspect_Parameter))
    (ps : list inspect_Parameter) :
  replace_parameters parameters signature = Ok ps →
  Forall2 (λ p q, same_but_annotation p q
                  ∧ annotation_kept_or_synthesized parameters p q)
    signature.*2 ps.
Proof.
  unfold replace_parameters.
  destruct (replace_loop parameters signature) as [params|e] eqn:Hrun; [|done].
  intros [= <-]. apply replace_loop_Forall2 in Hrun.
  apply Forall2_fmap. eapply Forall2_impl; [exact Hrun|].
  intros e e' (_ & ? & ?). by split.
Qed.

Lemma replace_parameters_keeps_shape_witness :
  Forall2 (λ p q, same_but_annotation p q
                  ∧ annotation_kept_or_synthesized callback_params p q)
    callback_signature.*2
    [(plain "ctx" 1).2;
     replace_annotation (plain "count" 40).2 (ConverterTransformer int_converter);
     (plain "who" 41).2].
Proof.
  apply (replace_parameters_keeps_shape callback_params callback_signature).
  reflexivity.
Defined.

Lemma replace_loop_app items1 items2 params :
  replace_loop (items1 ++ items2) params
  = match replace_loop items1 params with
    | Ok params' => replace_loop items2 params'
    | Raise e => Raise e
    end.
Proof.
  revert params. induction items1 as [|[name parameter] items1 IH];
    intros params; simpl; [done|].
  destruct (wants_transformer parameter); [|done].
  by destruct (dict_get name params).
Qed.

Lemma replace_loop_present items : ∀ params,
  (∀ name parameter,
     (name, parameter) ∈ items → wants_transformer parameter = true →
     name ∈ params.*1) →
  ∃ params', replace_loop items params = Ok params' ∧ params'.*1 = params.*1.
Proof.
  induction items as [|[name parameter] items IH]; intros params Hin; simpl.
  - by exists params.
  - assert (∀ params0, params0.*1 = params.*1 →
              ∃ params', replace_loop items params0 = Ok params'
                         ∧ params'.*1 = params.*1) as Hrest.
    { intros params0 Hkeys. destruct (IH params0) as (params' & Hrun & Hk).
      - intros n prm Hn Hw. rewrite Hkeys. eapply Hin; [by right|done].
      - exists params'. split; [done|congruence]. }
    destruct (wants_transformer parameter) eqn:Hw; [|by apply Hrest].
    destruct (dict_get name params) as [p|] eqn:Hget.
    + apply Hrest. by eapply dict_set_keys.
    + apply dict_get_None in Hget. destruct Hget. eapply Hin; [by left|done].
Qed.

(** X9: a parameter of the command that calls for a transformer and
    whose name the signature does not have makes the replacement step
    raise [KeyError] on that name, the parameters before it being in
    order. *)
Theorem replace_parameters_missing_name
    (pre post : list (string * commands_Parameter)) (name : string)
    (parameter : commands_Parameter)
    (signature : list (string * inspect_Parameter)) :
  (∀ name' parameter',
     (name', parameter') ∈ pre → wants_transformer parameter' = true →
     name' ∈ signature.*1) →
  wants_transformer parameter = true →
  name ∉ signature.*1 →
  replace_parameters (pre ++ (name, parameter) :: post) signature
  = Raise (Exn KeyError [ArgStr name] None).
Proof.
  intros Hpre Hw Hname. unfold replace_parameters.
  rewrite replace_loop_app.
  destruct (replace_loop_present pre signature Hpre) as (params' & -> & Hkeys).
  simpl. rewrite Hw.
  assert (dict_get name params' = None) as ->; [|done].
  apply dict_get_None. by rewrite Hkeys.
Qed.

Lemma replace_parameters_missing_name_witness :
  replace_parameters stray_params callback_signature
  = Raise (Exn KeyError [ArgStr "limit"] None).
Proof.
  apply (replace_parameters_missing_name
           [("who", {| param_converter := own_transformer |})]
           [("count", {| param_converter := int_converter |})]
           "limit" {| param_converter := int_converter |} callback_signature).
  - intros name' parameter' Hin%list_elem_of_singleton. by simplify_eq.
  - reflexivity.
  - apply (bool_decide_unpack _). by vm_compute.
Defined.

End converters_more.

(** ** The check chain, continued *)

Section check_chain_more.
Import Checks.

Lemma imap_points {A} (mk : nat → check_point) (l : list A) :
  (imap (λ i c, (mk i, c)) l).*1 = mk <$> seq 0 (length l).
Proof.
  rewrite <- imap_seq_0. rewrite fmap_imap. by apply imap_ext.
Qed.

Lemma check_chain_NoDup bot self : NoDup (check_chain bot self).*1.
Proof.
  unfold check_chain. rewrite !fmap_app, !imap_points.
  assert (Inj (=) (=) LocalInteractionCheck) by (by intros ?? [=]).
  assert (Inj (=) (=) LocalCommandCheck) by (by intros ?? [=]).
  assert (NoDup (LocalInteractionCheck <$> seq 0 (length (checks self))))
    as Hlic by (apply (NoDup_fmap_2 _), NoDup_seq).
  assert (NoDup (LocalCommandCheck <$> seq 0 (length (wrapped_checks self))))
    as Hlcc by (apply (NoDup_fmap_2 _), NoDup_seq).
  assert (∀ x, x ∈ LocalInteractionCheck <$> seq 0 (length (checks self)) →
               ∃ i, x = LocalInteractionCheck i) as Hin1.
  { intros x (i & -> & _)%list_elem_of_fmap. eauto. }
  assert (∀ x, x ∈ LocalCommandCheck <$> seq 0 (length (wrapped_checks self)) →
               ∃ i, x = LocalCommandCheck i) as Hin2.
  { intros x (i & -> & _)%list_elem_of_fmap. eauto. }
  set (lic := LocalInteractionCheck <$> seq 0 (length (checks self))) in *.
  set (lcc := LocalCommandCheck <$> seq 0 (length (wrapped_checks self))) in *.
  assert (NoDup (lic ++ lcc)) as Hlocal.
  { apply NoDup_app. split_and!; [done| |done].
    intros x [i ->]%Hin1 [j [=]]%Hin2. }
  assert (∀ x, x ∈ lic ++ lcc →
               (∃ i, x = LocalInteractionCheck i) ∨ (∃ i, x = LocalCommandCheck i))
    as Hlocal_in.
  { intros x [?|?]%elem_of_app; eauto. }
  clearbody lic lcc.
  destruct (parent self) as [p|]; [destruct (is_not_binding p (binding self))|];
    (destruct (binding self) as [b|];
     [destruct (interaction_check b), (cog_check b)|]);
    simpl; repeat constructor;
    rewrite ?elem_of_cons; try done;
    try (intros Hx; repeat (destruct Hx as [Hx|Hx]; [done|]);
         apply Hlocal_in in Hx as [[i [=]]|[i [=]]]).
Qed.

(** X10: every run of the check chain begins with the one-time bot
    check, and no check is run twice. *)
Theorem check_can_run_trace (bot : Bot) (self : HybridAppCommand) :
  (∃ rest, (_check_can_run bot self).1 = BotCheckOnce :: rest)
  ∧ NoDup (_check_can_run bot self).1.
Proof.
  rewrite check_can_run_chain.
  destruct (run_chain_spec (check_chain bot self))
    as (ran & skipped & Hchain & -> & Hres).
  pose proof (check_chain_NoDup bot self) as Hnd.
  rewrite Hchain, fmap_app in Hnd. apply NoDup_app in Hnd as (Hnd & _ & _).
  split; [|done].
  assert (ran ≠ []) as Hne.
  { destruct Hres as [(_ & -> & _)|[(pre & c & -> & _)|(pre & c & e & -> & _)]].
    - rewrite app_nil_r in Hchain. by rewrite <- Hchain.
    - by destruct pre.
    - by destruct pre. }
  destruct ran as [|c ran]; [done|].
  unfold check_chain in Hchain. injection Hchain as <- _. by eexists.
Qed.

End check_chain_more.

(** ** Registration, continued *)

Section registry_more.
Import Registry Samples MoreSamples.

(** X3: a command that is neither a hybrid command nor a hybrid
    group is refused with [TypeError] before anything is touched. *)
Theorem add_command_not_hybrid (h : heap) (self command : ref) (c : wrapper) :
  wrappers h !! command = Some c →
  is_hybrid (w_class c) = false →
  ∃ e, add_command self command h = Some (h, Raise e) ∧ exc_type e = TypeError.
Proof.
  intros Hc Hcls. unfold add_command.
  rewrite (bind_Some _ _ _ _ _ (get_wrapper_Some _ _ _ Hc)), Hcls. simpl.
  by eexists.
Qed.

Lemma add_command_not_hybrid_witness :
  ∃ e, add_command 0 0 heap_with_plain = Some (heap_with_plain, Raise e)
       ∧ exc_type e = TypeError.
Proof.
  apply (add_command_not_hybrid heap_with_plain 0 0 plain_command).
  - by vm_compute.
  - reflexivity.
Defined.

(** X4: removing a name the command mapping does not hold returns
    [None] and leaves every wrapper as it was; on the structured side
    the child under that name, if there is one, is dropped all the
    same. *)
Theorem remove_command_absent (h : heap) (self : ref) (name : string)
    (s : wrapper) (ga : ref) (g : adapter) :
  wrappers h !! self = Some s →
  w_app_command s = Some ga →
  adapters h !! ga = Some g →
  w_all_commands s !! name = None →
  remove_command self name h
  = Some ({| wrappers := wrappers h;
             adapters := <[ga := set_a_children (delete name (a_children g)) g]>
                           (adapters h);
             next_ref := next_ref h |}, Ok None).
Proof.
  intros Hs Hga Hg Hnone.
  assert (cmds h self (w_all_commands s)) as Hm by (by exists s).
  assert (GroupMixin_remove_command self name h = Some (h, Ok None)) as Hmixin.
  { unfold GroupMixin_remove_command.
    rewrite (bind_Some _ _ _ _ _ (all_commands_pop_spec _ _ _ name Hm)), Hnone.
    rewrite delete_id by done. by rewrite (upd_cmds_id _ _ _ Hm). }
  unfold remove_command. rewrite (bind_Some _ _ _ _ _ Hmixin).
  rewrite (bind_Some _ _ _ _ _ (getattr_app_command_Some _ _ _ _ Hs Hga)).
  by rewrite (bind_Some _ _ _ _ _ (app_Group_remove_command_spec _ _ _ name Hg)).
Qed.

Lemma remove_command_absent_witness :
  ∃ h', remove_command 0 "nope" (heap_of cfg_with_foo) = Some (h', Ok None)
        ∧ wrapper_side h' 0 = [("foo", 2); ("bar", 2)]
        ∧ structured_side h' 1 = [("foo", 3)].
Proof.
  eexists. split.
  - apply (remove_command_absent (heap_of cfg_with_foo) 0 "nope"
             cfg_wrapper 1 cfg_adapter); by vm_compute.
  - by vm_compute.
Defined.

(** X5: assigning the [cog] of a hybrid command and reading it back
    gives the assigned object, which is then the binding of the
    adapter too. *)
Theorem set_cog_then_cog (h : heap) (self : ref) (value : option ref)
    (w : wrapper) (ar : ref) (a : adapter) :
  wrappers h !! self = Some w →
  w_app_command w = Some ar →
  adapters h !! ar = Some a →
  ∃ h' a',
    set_cog self value h = Some (h', Ok ())
    ∧ cog self h' = Some (h', Ok value)
    ∧ adapters h' !! ar = Some a' ∧ a_binding a' = value.
Proof.
  intros Hw Har Ha.
  destruct (set_cog self value h) as [[h' res]|] eqn:Hrun.
  - apply (set_cog_inv _ _ _ _ _ _ Hw) in Hrun
      as [[Hnone _]|(ar' & a0 & Har' & Ha0 & -> & ->)]; [congruence|].
    rewrite Har in Har'. injection Har' as <-.
    eexists _, _. split; [done|]. split_and!.
    + unfold cog. erewrite (bind_Some (get_wrapper _));
        [|apply get_wrapper_Some; simpl; apply lookup_insert_eq]. done.
    + simpl. apply lookup_insert_eq.
    + done.
  - exfalso. revert Hrun. unfold set_cog.
    rewrite (bind_Some _ _ _ _ _ (modify_wrapper_Some _ _ _ _ Hw)).
    unfold bind at 1.
    erewrite getattr_app_command_spec by (simpl; apply lookup_insert_eq).
    simpl. rewrite Har.
    by erewrite modify_adapter_Some by (simpl; exact Ha).
Qed.

Lemma set_cog_then_cog_witness :
  ∃ h' a',
    set_cog 2 (Some 9) (heap_of cfg_with_foo) = Some (h', Ok ())
    ∧ cog 2 h' = Some (h', Ok (Some 9))
    ∧ adapters h' !! 3 = Some a' ∧ a_binding a' = Some 9.
Proof.
  apply (set_cog_then_cog (heap_of cfg_with_foo) 2 (Some 9)
           foo_registered 3 foo_registered_adapter); by vm_compute.
Defined.

(** X6: in every heap a program reaches, the adapter of a hybrid
    command points back to that command, so that no two hybrid
    commands share an adapter. *)
Theorem adapter_points_back (valid : string → bool) (h : heap) :
  reachable valid h →
  (∀ r w a,
     pair_of h r w a → w_class w = HybridCommand → a_wrapped a = Some r)
  ∧ (∀ r1 r2 w1 w2 ar,
       wrappers h !! r1 = Some w1 → wrappers h !! r2 = Some w2 →
       w_class w1 = HybridCommand → w_class w2 = HybridCommand →
       w_app_command w1 = Some ar → w_app_command w2 = Some ar →
       r1 = r2).
Proof.
  intros Hreach. pose proof (reachable_heap_inv _ _ Hreach) as Hinv. split.
  - intros r w a (Hw & ar & Har & Ha) Hcls.
    destruct (inv_pair h Hinv r w ar Hw Har) as (a' & Ha' & _ & _ & Hhc).
    rewrite Ha in Ha'. injection Ha' as <-. by apply Hhc.
  - intros r1 r2 w1 w2 ar Hw1 Hw2 Hc1 Hc2 Ha1 Ha2.
    destruct (inv_pair h Hinv r1 w1 ar Hw1 Ha1) as (a1 & Hl1 & _ & _ & Hhc1).
    destruct (inv_pair h Hinv r2 w2 ar Hw2 Ha2) as (a2 & Hl2 & _ & _ & Hhc2).
    rewrite Hl1 in Hl2. injection Hl2 as <-.
    destruct (Hhc1 Hc1) as [Hb1 _]. destruct (Hhc2 Hc2) as [Hb2 _].
    congruence.
Qed.

Lemma adapter_points_back_witness :
  a_wrapped foo_registered_adapter = Some 2.
Proof.
  destruct (adapter_points_back valid_name (heap_of cfg_with_foo)) as [H _].
  { apply heap_of_run_all_reachable, reachable_empty. }
  apply (H 2 foo_registered foo_registered_adapter); [|done].
  split; [by vm_compute|]. exists 3. split; [done|]. by vm_compute.
Defined.

(** X7: a hybrid group made with a parent: under a parent that is no
    hybrid group the constructor raises [TypeError] and no adapter is
    made; under a hybrid group, and with a name the structured side
    accepts, the new adapter has the adapter of the parent as its
    parent. *)
Theorem HybridGroup_init_parent (valid : string → bool) (kw : attrs)
    (h : heap) (p : ref) (pw : wrapper) :
  heap_inv h →
  attr_parent kw = Some p →
  wrappers h !! p = Some pw →
  (is_HybridGroup (w_class pw) = false →
   ∃ e,
     HybridGroup_init valid kw h
     = Some (with_wrapper (fresh_wrapper HybridGroup kw) h, Raise e)
     ∧ exc_type e = TypeError)
  ∧ (∀ pa,
       is_HybridGroup (w_class pw) = true → w_app_command pw = Some pa →
       valid (attr_name kw) = true →
       HybridGroup_init valid kw h
       = Some (with_pair
                 (set_w_app_command (Some (S (next_ref h)))
                    (fresh_wrapper HybridGroup kw))
                 {| a_class := AppGroup; a_name := attr_name kw;
                    a_description :=
                      mirrored_description (fresh_wrapper HybridGroup kw);
                    a_guild_ids :=
                      list_or (attr_guild_ids kw) (attr_default_guilds kw);
                    a_parent := Some pa; a_binding := None;
                    a_wrapped := None; a_children := ∅ |} h,
               Ok (next_ref h))).
Proof.
  intros Hinv Hp Hpw.
  assert (p ≠ next_ref h) as Hne.
  { apply (inv_fresh_w h Hinv) in Hpw. lia. }
  assert (wrappers (with_wrapper (fresh_wrapper HybridGroup kw) h) !! next_ref h
          = Some (fresh_wrapper HybridGroup kw)) as Hw0
    by apply lookup_insert_eq.
  assert (wrappers (with_wrapper (fresh_wrapper HybridGroup kw) h) !! p
          = Some pw) as Hpw1.
  { simpl. by rewrite lookup_insert_ne. }
  split.
  - intros Hcls. eexists. unfold HybridGroup_init.
    rewrite (bind_Some _ _ _ _ _ (Command_init_spec _ _ _)).
    rewrite (bind_Some _ _ _ _ _ (get_wrapper_Some _ _ _ Hw0)).
    change (w_parent (fresh_wrapper HybridGroup kw)) with (attr_parent kw).
    rewrite Hp. unfold bind at 1.
    rewrite (bind_Some _ _ _ _ _ (get_wrapper_Some _ _ _ Hpw1)), Hcls.
    split; reflexivity.
  - intros pa Hcls Hpa Hvalid. unfold HybridGroup_init.
    rewrite (bind_Some _ _ _ _ _ (Command_init_spec _ _ _)).
    rewrite (bind_Some _ _ _ _ _ (get_wrapper_Some _ _ _ Hw0)).
    change (w_parent (fresh_wrapper HybridGroup kw)) with (attr_parent kw).
    rewrite Hp. unfold bind at 1.
    rewrite (bind_Some _ _ _ _ _ (get_wrapper_Some _ _ _ Hpw1)), Hcls.
    rewrite (bind_Some _ _ _ _ _ (getattr_app_command_Some _ _ _ _ Hpw1 Hpa)).
    unfold ret at 1. unfold app_Group_init, validate_name.
    change (w_name (fresh_wrapper HybridGroup kw)) with (attr_name kw).
    rewrite Hvalid.
    unfold bind at 1. unfold bind at 1. simpl.
    erewrite (bind_Some (modify_wrapper _ _));
      [|apply modify_wrapper_Some; simpl; apply lookup_insert_eq].
    erewrite (bind_Some (modify_adapter _ _));
      [|apply modify_adapter_Some; simpl; apply lookup_insert_eq].
    unfold ret. do 2 f_equal. apply heap_eq; [| |done]; simpl.
    + by rewrite insert_insert_eq.
    + by rewrite insert_insert_eq.
Qed.

Lemma HybridGroup_init_parent_witness :
  ∃ h' e,
    HybridGroup_init valid_name (named "sub" [] (Some 2)) (heap_of cfg_with_foo)
    = Some (h', Raise e)
    ∧ exc_type e = TypeError
    ∧ adapters h' = adapters (heap_of cfg_with_foo).
Proof.
  destruct (HybridGroup_init_parent valid_name (named "sub" [] (Some 2))
              (heap_of cfg_with_foo) 2 foo_registered) as [H _].
  - apply (reachable_heap_inv valid_name).
    apply heap_of_run_all_reachable, reachable_empty.
  - reflexivity.
  - by vm_compute.
  - destruct H as (e & Hrun & Hty); [reflexivity|].
    eexists _, e. split; [exact Hrun|]. by split.
Defined.

End registry_more.

(** ** Adding a child: success, rollback, round trip *)

Section registration.
Import Registry RegistryMore Samples MoreSamples.

Lemma lookup_insert_all ks v : ∀ (m : gmap string nat) k,
  insert_all ks v m !! k = if decide (k ∈ ks) then Some v else m !! k.
Proof.
  induction ks as [|a ks IH]; intros m k.
  - by rewrite decide_False by apply not_elem_of_nil.
  - change (insert_all (a :: ks) v m) with (insert_all ks v (<[a:=v]> m)).
    rewrite IH. destruct (decide (k ∈ ks)) as [Hin|Hnin].
    + rewrite decide_True; [done|]. by right.
    + destruct (decide (k = a)) as [->|Hne].
      * rewrite lookup_insert_eq. rewrite decide_True; [done|]. by left.
      * rewrite lookup_insert_ne by done.
        rewrite decide_False; [done|]. by intros [?|?]%elem_of_cons.
Qed.

Lemma lookup_drop_alias command (m : gmap string nat) alias k :
  drop_alias command m alias !! k
  = if decide (k = alias) then keep_other command (m !! k) else m !! k.
Proof.
  unfold drop_alias, keep_other. destruct (decide (k = alias)) as [->|Hne].
  - destruct (m !! alias) as [cmd'|] eqn:Hm; [|by rewrite lookup_delete_eq].
    case_bool_decide.
    + rewrite lookup_insert_eq. by rewrite decide_False.
    + rewrite lookup_delete_eq. rewrite decide_True; [done|].
      destruct (decide (cmd' = command)); [done|contradiction].
  - destruct (m !! alias) as [cmd'|]; [case_bool_decide|];
      by rewrite ?lookup_insert_ne, ?lookup_delete_ne by done.
Qed.

Lemma keep_other_idemp command o :
  keep_other command (keep_other command o) = keep_other command o.
Proof.
  destruct o as [c'|]; [|done]. simpl. case_decide; [done|].
  simpl. by rewrite decide_False.
Qed.

Lemma lookup_drop_aliases command aliases : ∀ (m : gmap string nat) k,
  drop_aliases command aliases m !! k
  = if decide (k ∈ aliases) then keep_other command (m !! k) else m !! k.
Proof.
  induction aliases as [|a aliases IH]; intros m k.
  - by rewrite decide_False by apply not_elem_of_nil.
  - change (drop_aliases command (a :: aliases) m)
      with (drop_aliases command aliases (drop_alias command m a)).
    rewrite IH, lookup_drop_alias.
    destruct (decide (k = a)) as [->|Hne].
    + rewrite (decide_True (P := a ∈ a :: aliases)) by by left.
      case_decide; [apply keep_other_idemp|done].
    + destruct (decide (k ∈ aliases)) as [Hin|Hnin].
      * rewrite decide_True; [done|]. by right.
      * rewrite decide_False; [done|]. by intros [?|?]%elem_of_cons.
Qed.

(** The loop over the aliases, step by step on the mapping. *)
Lemma remove_aliases_full self command aliases : ∀ h m,
  cmds h self m →
  remove_aliases self command aliases h
  = Some (upd_cmds self (drop_aliases command aliases m) h, Ok ()).
Proof.
  induction aliases as [|alias aliases IH]; intros h m Hm; simpl.
  - unfold ret. by rewrite upd_cmds_id.
  - rewrite (bind_Some _ _ _ _ _ (all_commands_pop_spec _ _ _ alias Hm)).
    pose proof (cmds_upd _ _ _ (delete alias m) Hm) as Hm1.
    assert ((match m !! alias with
             | Some cmd' =>
                 if bool_decide (cmd' ≠ command)
                 then all_commands_set self alias cmd'
                 else ret ()
             | None => ret ()
             end) (upd_cmds self (delete alias m) h)
            = Some (upd_cmds self (drop_alias command m alias) h, Ok ()))
      as Hstep.
    { unfold drop_alias. destruct (m !! alias) as [cmd'|]; [|done].
      case_bool_decide; [|done].
      rewrite (all_commands_set_spec _ _ _ _ _ Hm1). by rewrite upd_cmds_upd. }
    rewrite (bind_Some _ _ _ _ _ Hstep).
    rewrite (IH _ (drop_alias command m alias)) by by eapply cmds_upd.
    by rewrite upd_cmds_upd.
Qed.

Lemma GroupMixin_remove_command_full h self m name c cw :
  cmds h self m → m !! name = Some c → wrappers h !! c = Some cw →
  name ∉ w_aliases cw →
  GroupMixin_remove_command self name h
  = Some (upd_cmds self (drop_aliases c (w_aliases cw) (delete name m)) h,
          Ok (Some c)).
Proof.
  intros Hm Hc Hcw Hname. unfold GroupMixin_remove_command.
  rewrite (bind_Some _ _ _ _ _ (all_commands_pop_spec _ _ _ name Hm)), Hc.
  destruct (upd_cmds_wrapper h self (delete name m) c cw Hcw)
    as (cw' & Hcw' & (_ & _ & Hal & _)).
  rewrite (bind_Some _ _ _ _ _ (get_wrapper_Some _ _ _ Hcw')).
  rewrite <- Hal. rewrite bool_decide_false by done.
  rewrite (bind_Some _ _ _ _ _
             (remove_aliases_full self c (w_aliases cw) _ _
                (cmds_upd _ _ _ (delete name m) Hm))).
  by rewrite upd_cmds_upd.
Qed.

Lemma app_Group_add_command_ok h ga car g ca :
  adapters h !! ga = Some g → adapters h !! car = Some ca → ga ≠ car →
  (a_class ca = AppGroup → a_parent g = None) →
  a_children g !! a_name ca = None →
  app_Group_add_command ga car h
  = Some ({| wrappers := wrappers h;
             adapters :=
               <[car := set_a_parent (Some ga) ca]>
                 (<[ga := set_a_children (<[a_name ca := car]> (a_children g)) g]>
                    (adapters h));
             next_ref := next_ref h |}, Ok ()).
Proof.
  intros Hg Hca Hne Hdepth Hfree. unfold app_Group_add_command.
  rewrite (bind_Some _ _ _ _ _ (get_adapter_Some _ _ _ Hca)).
  rewrite (bind_Some _ _ _ _ _ (get_adapter_Some _ _ _ Hg)).
  rewrite Hfree.
  assert ((do _ <- modify_adapter ga
                     (λ g0, set_a_children (<[a_name ca:=car]> (a_children g0)) g0);
           modify_adapter car (set_a_parent (Some ga))) h
          = Some ({| wrappers := wrappers h;
                     adapters :=
                       <[car := set_a_parent (Some ga) ca]>
                         (<[ga := set_a_children
                                    (<[a_name ca := car]> (a_children g)) g]>
                            (adapters h));
                     next_ref := next_ref h |}, Ok ())) as Hrun.
  { rewrite (bind_Some _ _ _ _ _ (modify_adapter_Some _ _ _ _ Hg)).
    erewrite modify_adapter_Some; [done|].
    simpl. by rewrite lookup_insert_ne. }
  destruct (a_class ca) eqn:Hcls; [done|].
  by rewrite Hdepth.
Qed.

(** With the child addable, [add_command] comes to the loop over the
    aliases with the child entered on both sides under its name. *)
Lemma add_command_to_aliases h self command ga car s c g ca :
  addable h self command ga car s c g ca →
  add_command self command h
  = add_aliases self command (w_name c) (w_aliases c)
      (upd_cmds self (<[w_name c := command]> (w_all_commands s))
         (entered self command ga car c g ca h)).
Proof.
  intros [Hs Hga Hg Hc Hhyb Hdepth Hcar Hca Hne Hneapp Hadepth Hmirror
            Hfree Hcfree Hnoalias].
  unfold add_command.
  rewrite (bind_Some _ _ _ _ _ (get_wrapper_Some _ _ _ Hc)), Hhyb. simpl.
  rewrite (bind_Some _ _ _ _ _ (get_wrapper_Some _ _ _ Hs)).
  assert (is_HybridGroup (w_class c) && bool_decide (is_Some (w_parent s)) = false)
    as ->.
  { destruct (is_HybridGroup (w_class c)); [|done].
    by rewrite Hdepth. }
  rewrite (bind_Some _ _ _ _ _ (getattr_app_command_Some _ _ _ _ Hs Hga)).
  rewrite (bind_Some _ _ _ _ _ (getattr_app_command_Some _ _ _ _ Hc Hcar)).
  rewrite (bind_Some _ _ _ _ _
             (app_Group_add_command_ok _ _ _ _ _ Hg Hca Hneapp Hadepth
                ltac:(by rewrite Hmirror))).
  erewrite (bind_Some (modify_wrapper _ _));
    [|apply modify_wrapper_Some; simpl; exact Hc].
  erewrite (bind_Some (get_wrapper _));
    [|apply get_wrapper_Some; simpl; apply lookup_insert_eq].
  simpl.
  assert (cmds (entered self command ga car c g ca h) self (w_all_commands s))
    as Hm.
  { exists s. split; [|done]. simpl. by rewrite lookup_insert_ne. }
  change {| wrappers := <[command:=set_w_parent (Some self) c]> (wrappers h);
            adapters := _; next_ref := next_ref h |}
    with (entered self command ga car c g ca h).
  rewrite (bind_Some _ _ _ _ _ (all_commands_contains_spec _ _ _ (w_name c) Hm)).
  rewrite bool_decide_false by (rewrite Hfree; by intros [? ?]).
  by rewrite (bind_Some _ _ _ _ _ (all_commands_set_spec _ _ _ (w_name c) command Hm)).
Qed.

(** Aliases that are free go in one after the other. *)
Lemma add_aliases_fresh_prefix self command name pre rest : ∀ h m,
  cmds h self m → (∀ a, a ∈ pre → m !! a = None) → NoDup pre →
  add_aliases self command name (pre ++ rest) h
  = add_aliases self command name rest
      (upd_cmds self (insert_all pre command m) h).
Proof.
  induction pre as [|a pre IH]; intros h m Hm Hfree Hnd.
  - simpl. by rewrite upd_cmds_id.
  - apply NoDup_cons in Hnd as [Ha Hnd]. simpl.
    rewrite (bind_Some _ _ _ _ _ (all_commands_contains_spec _ _ _ a Hm)).
    rewrite bool_decide_false.
    2:{ rewrite Hfree by by left. by intros [? ?]. }
    rewrite (bind_Some _ _ _ _ _ (all_commands_set_spec _ _ _ a command Hm)).
    rewrite (IH _ (<[a := command]> m)).
    + by rewrite upd_cmds_upd.
    + by eapply cmds_upd.
    + intros a' Ha'. rewrite lookup_insert_ne; [apply Hfree; by right|].
      by intros ->.
    + done.
Qed.

Lemma add_aliases_fresh self command name aliases h m :
  cmds h self m → (∀ a, a ∈ aliases → m !! a = None) → NoDup aliases →
  add_aliases self command name aliases h
  = Some (upd_cmds self (insert_all aliases command m) h, Ok ()).
Proof.
  intros Hm Hfresh Hnd.
  pose proof (add_aliases_fresh_prefix self command name aliases [] h m
                Hm Hfresh Hnd) as H.
  by rewrite app_nil_r in H.
Qed.

(** Taking out what went in gives the mapping back. *)
Lemma rollback_mapping (m : gmap string nat) name command pre aliases :
  m !! name = None → name ∉ aliases →
  (∀ a, a ∈ pre → a ∈ aliases ∧ m !! a = None) →
  (∀ k c', m !! k = Some c' → c' ≠ command) →
  drop_aliases command aliases
    (delete name (insert_all pre command (<[name := command]> m))) = m.
Proof.
  intros Hname Hnoalias Hpre Hrange. apply map_eq. intros k.
  rewrite lookup_drop_aliases.
  destruct (decide (k = name)) as [->|Hk].
  - rewrite decide_False by done. by rewrite lookup_delete_eq.
  - rewrite lookup_delete_ne by done. rewrite lookup_insert_all.
    destruct (decide (k ∈ pre)) as [Hin|Hnin].
    + destruct (Hpre k Hin) as [Hal Hm]. rewrite decide_True by done.
      simpl. by rewrite decide_True.
    + rewrite lookup_insert_ne by done.
      case_decide; [|done].
      destruct (m !! k) as [c'|] eqn:Hm; [|done]. simpl.
      rewrite decide_False; [done|]. by eapply Hrange.
Qed.

Lemma remove_command_after_entering h self command ga car s c g ca
    (mx : gmap string nat) :
  addable h self command ga car s c g ca →
  mx !! w_name c = Some command →
  ∃ h'' g'',
    remove_command self (w_name c)
      (upd_cmds self mx (entered self command ga car c g ca h))
    = Some (h'', Ok (Some command))
    ∧ wrappers h'' !! self
      = Some (set_w_all_commands
                (drop_aliases command (w_aliases c) (delete (w_name c) mx)) s)
    ∧ adapters h'' !! ga = Some g''
    ∧ a_children g'' = a_children g.
Proof.
  intros [Hs Hga Hg Hc Hhyb Hdepth Hcar Hca Hne Hneapp Hadepth Hmirror
            Hfree Hcfree Hnoalias] Hmx.
  set (E := entered self command ga car c g ca h).
  assert (cmds E self (w_all_commands s)) as HmE.
  { exists s. split; [|done]. simpl. by rewrite lookup_insert_ne. }
  pose proof (cmds_upd _ _ _ mx HmE) as Hm.
  assert (wrappers (upd_cmds self mx E) !! command
          = Some (set_w_parent (Some self) c)) as Hcw.
  { simpl. rewrite lookup_alter_ne by done. apply lookup_insert_eq. }
  unfold remove_command.
  rewrite (bind_Some _ _ _ _ _
             (GroupMixin_remove_command_full _ _ _ _ _ _ Hm Hmx Hcw Hnoalias)).
  rewrite upd_cmds_upd. simpl w_aliases.
  set (m5 := drop_aliases command (w_aliases c) (delete (w_name c) mx)).
  assert (wrappers (upd_cmds self m5 E) !! self = Some (set_w_all_commands m5 s))
    as Hs5.
  { simpl. rewrite lookup_alter_eq, lookup_insert_ne by done. by rewrite Hs. }
  rewrite (bind_Some _ _ _ _ _ (getattr_app_command_Some _ _ _ _ Hs5 Hga)).
  assert (adapters (upd_cmds self m5 E) !! ga
          = Some (set_a_children (<[a_name ca := car]> (a_children g)) g))
    as Hg5.
  { simpl. rewrite lookup_insert_ne by done. apply lookup_insert_eq. }
  rewrite (bind_Some _ _ _ _ _
             (app_Group_remove_command_spec _ _ _ (w_name c) Hg5)).
  eexists _, _. split; [reflexivity|]. split_and!.
  - exact Hs5.
  - simpl. apply lookup_insert_eq.
  - simpl. rewrite Hmirror. by apply delete_insert_id.
Qed.

Lemma add_command_ok h self command ga car s c g ca :
  addable h self command ga car s c g ca →
  NoDup (w_aliases c) →
  (∀ a, a ∈ w_aliases c → w_all_commands s !! a = None) →
  add_command self command h
  = Some (upd_cmds self
            (insert_all (w_aliases c) command
               (<[w_name c := command]> (w_all_commands s)))
            (entered self command ga car c g ca h), Ok ()).
Proof.
  intros Hadd Hnd Hfresh.
  pose proof Hadd as [Hs Hga Hg Hc Hhyb Hdepth Hcar Hca Hne Hneapp Hadepth
                        Hmirror Hfree Hcfree Hnoalias].
  rewrite (add_command_to_aliases _ _ _ _ _ _ _ _ _ Hadd).
  assert (cmds (entered self command ga car c g ca h) self (w_all_commands s))
    as HmE.
  { exists s. split; [|done]. simpl. by rewrite lookup_insert_ne. }
  rewrite (add_aliases_fresh _ _ _ _ _
             (<[w_name c := command]> (w_all_commands s)));
    [|by eapply cmds_upd| |done].
  2:{ intros a Ha. rewrite lookup_insert_ne; [by apply Hfresh|].
      intros Heq. apply Hnoalias. by rewrite Heq. }
  by rewrite upd_cmds_upd.
Qed.

Lemma lookup_registered (m : gmap string nat) name aliases command k :
  insert_all aliases command (<[name := command]> m) !! k
  = if decide (k = name ∨ k ∈ aliases) then Some command else m !! k.
Proof.
  rewrite lookup_insert_all.
  destruct (decide (k ∈ aliases)) as [Hin|Hnin].
  - rewrite decide_True; [done|]. by right.
  - destruct (decide (k = name)) as [->|Hk].
    + rewrite lookup_insert_eq. rewrite decide_True; [done|]. by left.
    + rewrite lookup_insert_ne by done.
      rewrite decide_False; [done|]. by intros [?|?].
Qed.

(** X11: a hybrid child whose name and aliases are free in the
    group goes in on both sides: in the command mapping its name and
    every alias lead to it and nothing else changes, the adapter of the
    group gets its adapter under its name, and child and adapter get
    the group and its adapter as parents. *)
Theorem add_command_registers (h : heap) (self command ga car : ref)
    (s c : wrapper) (g ca : adapter) :
  addable h self command ga car s c g ca →
  NoDup (w_aliases c) →
  (∀ a, a ∈ w_aliases c → w_all_commands s !! a = None) →
  ∃ h' s' c' g' ca',
    add_command self command h = Some (h', Ok ())
    ∧ wrappers h' !! self = Some s'
    ∧ (∀ k, w_all_commands s' !! k
            = if decide (k = w_name c ∨ k ∈ w_aliases c)
              then Some command else w_all_commands s !! k)
    ∧ wrappers h' !! command = Some c' ∧ w_parent c' = Some self
    ∧ adapters h' !! ga = Some g'
    ∧ a_children g' = <[w_name c := car]> (a_children g)
    ∧ adapters h' !! car = Some ca' ∧ a_parent ca' = Some ga.
Proof.
  intros Hadd Hnd Hfresh.
  pose proof Hadd as [Hs Hga Hg Hc Hhyb Hdepth Hcar Hca Hne Hneapp Hadepth
                        Hmirror Hfree Hcfree Hnoalias].
  rewrite (add_command_ok _ _ _ _ _ _ _ _ _ Hadd Hnd Hfresh).
  eexists _, _, _, _, _. split; [reflexivity|]. split_and!.
  - simpl. rewrite lookup_alter_eq, lookup_insert_ne by done. by rewrite Hs.
  - intros k. simpl. apply lookup_registered.
  - simpl. rewrite lookup_alter_ne by done. apply lookup_insert_eq.
  - done.
  - simpl. rewrite lookup_insert_ne by done. apply lookup_insert_eq.
  - simpl. by rewrite Hmirror.
  - simpl. apply lookup_insert_eq.
  - done.
Qed.

(** X12: when the name of an addable child is free and one of its
    aliases is taken, [add_command] raises the alias conflict and the
    group is rolled back: its command mapping and the children of its
    adapter are what they were, the group not having held the child
    before. *)
Theorem add_command_alias_conflict (h : heap) (self command ga car : ref)
    (s c : wrapper) (g ca : adapter) (pre post : list string) (alias : string) :
  addable h self command ga car s c g ca →
  w_aliases c = pre ++ alias :: post →
  NoDup pre →
  (∀ a, a ∈ pre → w_all_commands s !! a = None) →
  alias ∈ pre ∨ is_Some (w_all_commands s !! alias) →
  (∀ k c', w_all_commands s !! k = Some c' → c' ≠ command) →
  ∃ h' s' g',
    add_command self command h
    = Some (h', Raise (Exn CommandRegistrationError
                         [ArgStr alias; ArgBool true] None))
    ∧ wrappers h' !! self = Some s'
    ∧ w_all_commands s' = w_all_commands s
    ∧ adapters h' !! ga = Some g'
    ∧ a_children g' = a_children g.
Proof.
  intros Hadd Hal Hnd Hfresh Htaken Hrange.
  pose proof Hadd as [Hs Hga Hg Hc Hhyb Hdepth Hcar Hca Hne Hneapp Hadepth
                        Hmirror Hfree Hcfree Hnoalias].
  rewrite (add_command_to_aliases _ _ _ _ _ _ _ _ _ Hadd).
  set (E := entered self command ga car c g ca h).
  set (m1 := <[w_name c := command]> (w_all_commands s)).
  assert (cmds E self (w_all_commands s)) as HmE.
  { exists s. split; [|done]. simpl. by rewrite lookup_insert_ne. }
  assert (∀ a, a ∈ pre → a ∈ w_aliases c) as Hpre_in.
  { intros a Ha. rewrite Hal. apply elem_of_app. by left. }
  assert (alias ∈ w_aliases c) as Halias_in.
  { rewrite Hal. apply elem_of_app. right. by left. }
  rewrite Hal.
  rewrite (add_aliases_fresh_prefix _ _ _ _ _ _ m1);
    [|by eapply cmds_upd| |done].
  2:{ intros a Ha. unfold m1. rewrite lookup_insert_ne; [by apply Hfresh|].
      intros Heq. apply Hnoalias. rewrite Heq. by apply Hpre_in. }
  rewrite upd_cmds_upd.
  set (m4 := insert_all pre command m1).
  pose proof (cmds_upd _ _ _ m4 HmE) as Hm4.
  simpl add_aliases.
  rewrite (bind_Some _ _ _ _ _ (all_commands_contains_spec _ _ _ alias Hm4)).
  rewrite bool_decide_true.
  2:{ unfold m4. rewrite lookup_insert_all. case_decide; [done|].
      unfold m1. rewrite lookup_insert_ne; [by destruct Htaken|].
      intros Heq. apply Hnoalias. by rewrite Heq. }
  assert (m4 !! w_name c = Some command) as Hname.
  { unfold m4. rewrite lookup_insert_all. case_decide; [done|].
    apply lookup_insert_eq. }
  destruct (remove_command_after_entering _ _ _ _ _ _ _ _ _ m4 Hadd Hname)
    as (h'' & g'' & Hrun & Hs'' & Hg'' & Hch).
  fold E in Hrun. rewrite (bind_Some _ _ _ _ _ Hrun).
  eexists _, _, _. split; [reflexivity|]. split_and!; [exact Hs''| |exact Hg''|done].
  simpl. unfold m4, m1. apply rollback_mapping; [done|done| |done].
  intros a Ha. split; [by apply Hpre_in|by apply Hfresh].
Qed.

(** X13: adding a child whose name and aliases are free and then
    removing its name gives the child back and leaves the group as it
    was before: the same command mapping and the same children of its
    adapter. *)
Theorem add_then_remove (h : heap) (self command ga car : ref)
    (s c : wrapper) (g ca : adapter) :
  addable h self command ga car s c g ca →
  NoDup (w_aliases c) →
  (∀ a, a ∈ w_aliases c → w_all_commands s !! a = None) →
  (∀ k c', w_all_commands s !! k = Some c' → c' ≠ command) →
  ∃ h' h'' s'' g'',
    add_command self command h = Some (h', Ok ())
    ∧ remove_command self (w_name c) h' = Some (h'', Ok (Some command))
    ∧ wrappers h'' !! self = Some s''
    ∧ w_all_commands s'' = w_all_commands s
    ∧ adapters h'' !! ga = Some g''
    ∧ a_children g'' = a_children g.
Proof.
  intros Hadd Hnd Hfresh Hrange.
  pose proof Hadd as [Hs Hga Hg Hc Hhyb Hdepth Hcar Hca Hne Hneapp Hadepth
                        Hmirror Hfree Hcfree Hnoalias].
  rewrite (add_command_ok _ _ _ _ _ _ _ _ _ Hadd Hnd Hfresh).
  set (m4 := insert_all (w_aliases c) command
               (<[w_name c := command]> (w_all_commands s))).
  assert (m4 !! w_name c = Some command) as Hname.
  { unfold m4. rewrite lookup_registered. rewrite decide_True; [done|]. by left. }
  destruct (remove_command_after_entering _ _ _ _ _ _ _ _ _ m4 Hadd Hname)
    as (h'' & g'' & Hrun & Hs'' & Hg'' & Hch).
  eexists _, h'', _, g''. split; [reflexivity|].
  split; [exact Hrun|]. split_and!; [exact Hs''| |exact Hg''|done].
  simpl. unfold m4. apply rollback_mapping; [done|done| |done].
  intros a Ha. split; [done|by apply Hfresh].
Qed.

Lemma addable_free_baz :
  addable cfg_foo_and_free_baz 0 4 1 5 cfg_wrapper free_baz cfg_adapter baz_adapter.
Proof.
  split; try by vm_compute.
  apply (bool_decide_unpack _). by vm_compute.
Defined.

Lemma addable_clashing_baz :
  addable cfg_foo_and_baz 0 4 1 5 cfg_wrapper clashing_baz cfg_adapter baz_adapter.
Proof.
  split; try by vm_compute.
  apply (bool_decide_unpack _). by vm_compute.
Defined.

Lemma cfg_holds_no_4 :
  ∀ k c', w_all_commands cfg_wrapper !! k = Some c' → c' ≠ 4.
Proof.
  change (map_Forall (λ _ c', c' ≠ 4) (w_all_commands cfg_wrapper)).
  apply (bool_decide_unpack _). by vm_compute.
Defined.

Lemma add_command_registers_witness :
  ∃ h',
    add_command 0 4 cfg_foo_and_free_baz = Some (h', Ok ())
    ∧ wrapper_side h' 0 = [("qux", 4); ("foo", 2); ("baz", 4); ("bar", 2)]
    ∧ structured_side h' 1 = [("foo", 3); ("baz", 5)].
Proof.
  destruct (add_command_registers cfg_foo_and_free_baz 0 4 1 5
              cfg_wrapper free_baz cfg_adapter baz_adapter)
    as (h' & s' & c' & g' & ca' & Hrun & _).
  - exact addable_free_baz.
  - apply (bool_decide_unpack _). by vm_compute.
  - intros a ->%list_elem_of_singleton. by vm_compute.
  - exists h'. split; [exact Hrun|].
    vm_compute in Hrun. injection Hrun as <-. by vm_compute.
Defined.

Lemma add_command_alias_conflict_witness :
  ∃ h',
    add_command 0 4 cfg_foo_and_baz
    = Some (h', Raise (Exn CommandRegistrationError
                         [ArgStr "bar"; ArgBool true] None))
    ∧ wrapper_side h' 0 = [("foo", 2); ("bar", 2)]
    ∧ structured_side h' 1 = [("foo", 3)].
Proof.
  destruct (add_command_alias_conflict cfg_foo_and_baz 0 4 1 5
              cfg_wrapper clashing_baz cfg_adapter baz_adapter
              ["qux"] [] "bar")
    as (h' & s' & g' & Hrun & _).
  - exact addable_clashing_baz.
  - reflexivity.
  - apply (bool_decide_unpack _). by vm_compute.
  - intros a ->%list_elem_of_singleton. by vm_compute.
  - right. exists 2. by vm_compute.
  - exact cfg_holds_no_4.
  - exists h'. split; [exact Hrun|].
    vm_compute in Hrun. injection Hrun as <-. by vm_compute.
Defined.

Lemma add_then_remove_witness :
  ∃ h' h'',
    add_command 0 4 cfg_foo_and_free_baz = Some (h', Ok ())
    ∧ remove_command 0 "baz" h' = Some (h'', Ok (Some 4))
    ∧ wrapper_side h'' 0 = [("foo", 2); ("bar", 2)]
    ∧ structured_side h'' 1 = [("foo", 3)].
Proof.
  destruct (add_then_remove cfg_foo_and_free_baz 0 4 1 5
              cfg_wrapper free_baz cfg_adapter baz_adapter)
    as (h' & h'' & s'' & g'' & Hadd & Hrem & _).
  - exact addable_free_baz.
  - apply (bool_decide_unpack _). by vm_compute.
  - intros a ->%list_elem_of_singleton. by vm_compute.
  - exact cfg_holds_no_4.
  - exists h', h''. split; [exact Hadd|]. split; [exact Hrem|].
    vm_compute in Hadd. injection Hadd as <-.
    vm_compute in Hrem. injection Hrem as <-. by vm_compute.
Defined.

End registration.

(** ** The decorators of a group *)

Section decorators.
Import Registry RegistryMore Samples MoreSamples.

Lemma add_command_nested_raises h self command s c :
  wrappers h !! self = Some s → wrappers h !! command = Some c →
  w_class c = HybridGroup → is_Some (w_parent s) →
  ∃ e, add_command self command h = Some (h, Raise e).
Proof.
  intros Hs Hc Hcls Hpar. unfold add_command.
  rewrite (bind_Some _ _ _ _ _ (get_wrapper_Some _ _ _ Hc)), Hcls. simpl.
  rewrite (bind_Some _ _ _ _ _ (get_wrapper_Some _ _ _ Hs)).
  rewrite bool_decide_true by done. by eexists.
Qed.

Lemma extends_refl h : extends h h.
Proof. by split. Qed.

(** X14: on a group that has a parent, the [group] decorator never
    returns: it raises, whatever the callback and the keyword
    arguments, and every object there was is left as it was (a callback
    that is a command already leaves the heap itself untouched). *)
Theorem group_decorator_on_nested_group (valid : string → bool) (h : heap)
    (self : ref) (s : wrapper) (is_command : bool) (kw : attrs)
    (h' : heap) (res : result ref) :
  heap_inv h →
  wrappers h !! self = Some s →
  is_Some (w_parent s) →
  HybridGroup_group valid self is_command kw h = Some (h', res) →
  (∃ e, res = Raise e) ∧ extends h h' ∧ (is_command = true → h' = h).
Proof.
  intros Hinv Hs Hpar. unfold HybridGroup_group, hybrid_group.
  destruct is_command.
  { intros [= <- <-]. split_and!; [by eexists|apply extends_refl|done]. }
  unfold bind at 1.
  destruct (HybridGroup_init valid (setdefault_parent self kw) h)
    as [[h1 [r|e]]|] eqn:Hinit; [| |done].
  - destruct (HybridGroup_init_heap_inv _ _ _ _ _ Hinv Hinit) as [_ Hext].
    apply HybridGroup_init_inv in Hinit as [[_ [e [=]]]|(parent & [= ->] & ->)].
    assert (∃ e, add_command self (next_ref h)
                   (with_pair
                      (set_w_app_command (Some (S (next_ref h)))
                         (fresh_wrapper HybridGroup (setdefault_parent self kw)))
                      {| a_class := AppGroup;
                         a_name := attr_name (setdefault_parent self kw);
                         a_description :=
                           mirrored_description
                             (fresh_wrapper HybridGroup (setdefault_parent self kw));
                         a_guild_ids :=
                           list_or (attr_guild_ids (setdefault_parent self kw))
                             (attr_default_guilds (setdefault_parent self kw));
                         a_parent := parent; a_binding := None;
                         a_wrapped := None; a_children := ∅ |} h)
                 = Some (with_pair
                      (set_w_app_command (Some (S (next_ref h)))
                         (fresh_wrapper HybridGroup (setdefault_parent self kw)))
                      {| a_class := AppGroup;
                         a_name := attr_name (setdefault_parent self kw);
                         a_description :=
                           mirrored_description
                             (fresh_wrapper HybridGroup (setdefault_parent self kw));
                         a_guild_ids :=
                           list_or (attr_guild_ids (setdefault_parent self kw))
                             (attr_default_guilds (setdefault_parent self kw));
                         a_parent := parent; a_binding := None;
                         a_wrapped := None; a_children := ∅ |} h, Raise e))
      as [e Hadd].
    { eapply add_command_nested_raises; [|apply lookup_insert_eq|done|done].
      by apply Hext. }
    unfold bind. rewrite Hadd.
    intros [= <- <-]. split_and!; [by eexists|done|done].
  - destruct (HybridGroup_init_heap_inv _ _ _ _ _ Hinv Hinit) as [_ Hext].
    intros [= <- <-]. split_and!; [by eexists|done|done].
Qed.

Lemma group_decorator_on_nested_group_witness :
  ∃ h' e,
    HybridGroup_group valid_name 4 false (named "deeper" [] None)
      cfg_sub_and_deep = Some (h', Raise e)
    ∧ extends cfg_sub_and_deep h'.
Proof.
  destruct (HybridGroup_group valid_name 4 false (named "deeper" [] None)
              cfg_sub_and_deep) as [[h' res]|] eqn:Hrun;
    [|by vm_compute in Hrun].
  destruct (group_decorator_on_nested_group valid_name cfg_sub_and_deep 4
              sub_wrapper false (named "deeper" [] None) h' res)
    as ([e ->] & Hext & _).
  - apply (reachable_heap_inv valid_name).
    do 2 apply heap_of_run_all_reachable. apply reachable_empty.
  - by vm_compute.
  - by eexists.
  - exact Hrun.
  - exists h', e. split; [reflexivity|exact Hext].
Defined.

(** X15: the [command] decorator of a group, for a callback that is
    no command yet, a name the structured side accepts and a name and
    aliases that are free in the group, returns a new hybrid command
    that is registered: its name and aliases lead to it in the command
    mapping, its adapter is a child of the adapter of the group under
    its name, and the group is its parent. *)
Theorem command_decorator_registers (valid : string → bool) (h : heap)
    (self : ref) (s : wrapper) (ga : ref) (g : adapter) (kw : attrs) :
  heap_inv h →
  wrappers h !! self = Some s →
  w_app_command s = Some ga →
  adapters h !! ga = Some g →
  valid (attr_name kw) = true →
  w_all_commands s !! attr_name kw = None →
  a_children g !! attr_name kw = None →
  attr_name kw ∉ attr_aliases kw →
  NoDup (attr_aliases kw) →
  (∀ a, a ∈ attr_aliases kw → w_all_commands s !! a = None) →
  ∃ h' s' c' g',
    HybridGroup_command valid self false kw h = Some (h', Ok (next_ref h))
    ∧ wrappers h' !! self = Some s'
    ∧ (∀ k, w_all_commands s' !! k
            = if decide (k = attr_name kw ∨ k ∈ attr_aliases kw)
              then Some (next_ref h) else w_all_commands s !! k)
    ∧ wrappers h' !! next_ref h = Some c'
    ∧ w_class c' = HybridCommand ∧ w_parent c' = Some self
    ∧ adapters h' !! ga = Some g'
    ∧ a_children g' = <[attr_name kw := S (next_ref h)]> (a_children g).
Proof.
  intros Hinv Hs Hga Hg Hvalid Hfree Hcfree Hnoalias Hnd Hfresh.
  pose proof (inv_fresh_w h Hinv _ _ Hs) as Hself.
  pose proof (inv_fresh_a h Hinv _ _ Hg) as Hgalt.
  unfold HybridGroup_command, hybrid_command.
  set (kw' := setdefault_parent self kw).
  set (w1 := set_w_app_command (Some (S (next_ref h)))
               (fresh_wrapper HybridCommand kw')).
  set (a1 := {| a_class := AppCommand; a_name := attr_name kw';
                a_description :=
                  mirrored_description (fresh_wrapper HybridCommand kw');
                a_guild_ids := None; a_parent := None; a_binding := None;
                a_wrapped := Some (next_ref h); a_children := ∅ |}).
  assert (HybridCommand_init valid kw' h
          = Some (with_pair w1 a1 h, Ok (next_ref h))) as Hinit.
  { rewrite HybridCommand_init_spec. simpl attr_name. by rewrite Hvalid. }
  rewrite (bind_Some _ _ _ _ _ Hinit).
  assert (addable (with_pair w1 a1 h) self (next_ref h) ga (S (next_ref h))
            s w1 g a1) as Hadd.
  { split; simpl; try done.
    - rewrite lookup_insert_ne; [done|lia].
    - rewrite lookup_insert_ne; [done|lia].
    - apply lookup_insert_eq.
    - apply lookup_insert_eq.
    - lia.
    - lia. }
  rewrite (bind_Some _ _ _ _ _
             (add_command_ok _ _ _ _ _ _ _ _ _ Hadd Hnd Hfresh)).
  unfold ret.
  eexists _, _, _, _. split; [reflexivity|]. split_and!.
  - simpl. rewrite lookup_alter_eq, !lookup_insert_ne by lia. by rewrite Hs.
  - intros k. simpl. apply lookup_registered.
  - simpl. rewrite lookup_alter_ne by lia. apply lookup_insert_eq.
  - done.
  - done.
  - simpl. rewrite lookup_insert_ne by lia. apply lookup_insert_eq.
  - done.
Qed.

Lemma command_decorator_registers_witness :
  ∃ h',
    HybridGroup_command valid_name 0 false (named "baz" ["qux"] None)
      (heap_of cfg_with_foo) = Some (h', Ok 4)
    ∧ wrapper_side h' 0 = [("qux", 4); ("foo", 2); ("baz", 4); ("bar", 2)]
    ∧ structured_side h' 1 = [("foo", 3); ("baz", 5)].
Proof.
  destruct (command_decorator_registers valid_name (heap_of cfg_with_foo) 0
              cfg_wrapper 1 cfg_adapter (named "baz" ["qux"] None))
    as (h' & s' & c' & g' & Hrun & _).
  - apply (reachable_heap_inv valid_name).
    apply heap_of_run_all_reachable, reachable_empty.
  - by vm_compute.
  - reflexivity.
  - by vm_compute.
  - reflexivity.
  - by vm_compute.
  - by vm_compute.
  - apply (bool_decide_unpack _). by vm_compute.
  - apply (bool_decide_unpack _). by vm_compute.
  - intros a ->%list_elem_of_singleton. by vm_compute.
  - exists h'. split; [exact Hrun|].
    vm_compute in Hrun. injection Hrun as <-. by vm_compute.
Defined.

End decorators.

(** ** The keys of the two trees *)

Section registry_keys.
Import Registry RegistryMore RegistryKeys Samples MoreSamples.

#[local] Instance same_keys_w_refl : Reflexive same_keys_w.
Proof. intros w. by repeat split. Qed.

#[local] Instance same_keys_w_trans : Transitive same_keys_w.
Proof. intros w1 w2 w3 (?&?&?) (?&?&?). repeat split; congruence. Qed.

#[local] Instance same_keys_a_refl : Reflexive same_keys_a.
Proof. by intros a. Qed.

#[local] Instance same_keys_a_trans : Transitive same_keys_a.
Proof. intros a1 a2 a3. unfold same_keys_a. congruence. Qed.

Lemma grows_by_refl Pw Pa h : grows_by Pw Pa h h.
Proof.
  split_and!; [done|done| |].
  - intros r w w' k c Hw Hw'. rewrite Hw in Hw'. injection Hw' as <-. by left.
  - intros r a a' k c Ha Ha'. rewrite Ha in Ha'. injection Ha' as <-. by left.
Qed.

Lemma grows_by_trans Pw Pa h1 h2 h3 :
  grows_by Pw Pa h1 h2 → grows_by Pw Pa h2 h3 → grows_by Pw Pa h1 h3.
Proof.
  intros (Hw1 & Ha1 & Hew1 & Hea1) (Hw2 & Ha2 & Hew2 & Hea2). split_and!.
  - intros r. etrans; [apply Hw1|apply Hw2].
  - intros r. etrans; [apply Ha1|apply Ha2].
  - intros r w w'' k c Hr Hr'' Hk.
    pose proof (Hw1 r) as Hmid. rewrite Hr in Hmid.
    apply option_Forall2_Some_l in Hmid as (w' & Hr' & _).
    destruct (Hew2 r w' w'' k c Hr' Hr'' Hk) as [Hk'|?]; [|by right].
    by eapply Hew1.
  - intros r a a'' k c Hr Hr'' Hk.
    pose proof (Ha1 r) as Hmid. rewrite Hr in Hmid.
    apply option_Forall2_Some_l in Hmid as (a' & Hr' & _).
    destruct (Hea2 r a' a'' k c Hr' Hr'' Hk) as [Hk'|?]; [|by right].
    by eapply Hea1.
Qed.

Lemma grows_by_mono (Pw Pa Pw' Pa' : string → nat → Prop) h h' :
  (∀ k c, Pw k c → Pw' k c) → (∀ k c, Pa k c → Pa' k c) →
  grows_by Pw Pa h h' → grows_by Pw' Pa' h h'.
Proof.
  intros HPw HPa (Hw & Ha & Hew & Hea). split_and!; [done|done| |].
  - intros r w w' k c Hr Hr' Hk.
    destruct (Hew r w w' k c Hr Hr' Hk); [by left|right; by apply HPw].
  - intros r a a' k c Hr Hr' Hk.
    destruct (Hea r a a' k c Hr Hr' Hk); [by left|right; by apply HPa].
Qed.

Lemma grows_only_by_mono (Pw Pa Pw' Pa' : string → nat → Prop) {A} (m : M A) :
  (∀ k c, Pw k c → Pw' k c) → (∀ k c, Pa k c → Pa' k c) →
  grows_only_by Pw Pa m → grows_only_by Pw' Pa' m.
Proof. intros HPw HPa Hm h h' r Hrun. eapply grows_by_mono; eauto. Qed.

Lemma grows_only_by_ret Pw Pa {A} (a : A) : grows_only_by Pw Pa (ret a).
Proof. intros h h' r [= <- <-]. apply grows_by_refl. Qed.

Lemma grows_only_by_raise Pw Pa {A} e : grows_only_by Pw Pa (@raise A e).
Proof. intros h h' r [= <- <-]. apply grows_by_refl. Qed.

Lemma grows_only_by_bind Pw Pa {A B} (m : M A) (k : A → M B) :
  grows_only_by Pw Pa m → (∀ a, grows_only_by Pw Pa (k a)) →
  grows_only_by Pw Pa (bind m k).
Proof.
  intros Hm Hk h h' r. unfold bind.
  destruct (m h) as [[h1 [a|e]]|] eqn:Hrun; [| |done].
  - intros Hrun'. eapply grows_by_trans; [by eapply Hm|by eapply Hk].
  - intros [= <- <-]. by eapply Hm.
Qed.

Lemma grows_only_by_get_wrapper Pw Pa r : grows_only_by Pw Pa (get_wrapper r).
Proof.
  intros h h' res. unfold get_wrapper.
  destruct (wrappers h !! r); [|done]. intros [= <- <-]. apply grows_by_refl.
Qed.

Lemma grows_only_by_get_adapter Pw Pa r : grows_only_by Pw Pa (get_adapter r).
Proof.
  intros h h' res. unfold get_adapter.
  destruct (adapters h !! r); [|done]. intros [= <- <-]. apply grows_by_refl.
Qed.

Lemma grows_only_by_getattr_app_command Pw Pa r :
  grows_only_by Pw Pa (getattr_app_command r).
Proof.
  apply grows_only_by_bind; [apply grows_only_by_get_wrapper|].
  intros w. destruct (w_app_command w);
    [apply grows_only_by_ret|apply grows_only_by_raise].
Qed.

(** A wrapper is replaced by one with the same keys and no entry that
    is not allowed. *)
Lemma grows_by_put_wrapper (Pw Pa : string → nat → Prop) h r w w' :
  wrappers h !! r = Some w → same_keys_w w w' →
  (∀ k c, w_all_commands w' !! k = Some c →
          w_all_commands w !! k = Some c ∨ Pw k c) →
  grows_by Pw Pa h
    {| wrappers := <[r := w']> (wrappers h); adapters := adapters h;
       next_ref := next_ref h |}.
Proof.
  intros Hw Hkeys Hentries. split_and!; simpl.
  - intros r'. rewrite lookup_insert. case_decide; [|done].
    subst. rewrite Hw. by constructor.
  - done.
  - intros r' w0 w0' k c Hr. rewrite lookup_insert. case_decide.
    + subst. intros [= <-]. rewrite Hw in Hr. injection Hr as <-.
      apply Hentries.
    + intros Hr'. rewrite Hr in Hr'. injection Hr' as <-. by left.
  - intros r' a a' k c Ha Ha'. rewrite Ha in Ha'. injection Ha' as <-. by left.
Qed.

Lemma grows_by_put_adapter (Pw Pa : string → nat → Prop) h r a a' :
  adapters h !! r = Some a → same_keys_a a a' →
  (∀ k c, a_children a' !! k = Some c →
          a_children a !! k = Some c ∨ Pa k c) →
  grows_by Pw Pa h
    {| wrappers := wrappers h; adapters := <[r := a']> (adapters h);
       next_ref := next_ref h |}.
Proof.
  intros Ha Hkeys Hentries. split_and!; simpl.
  - done.
  - intros r'. rewrite lookup_insert. case_decide; [|done].
    subst. rewrite Ha. by constructor.
  - intros r' w w' k c Hw Hw'. rewrite Hw in Hw'. injection Hw' as <-. by left.
  - intros r' a0 a0' k c Hr. rewrite lookup_insert. case_decide.
    + subst. intros [= <-]. rewrite Ha in Hr. injection Hr as <-.
      apply Hentries.
    + intros Hr'. rewrite Hr in Hr'. injection Hr' as <-. by left.
Qed.

Lemma grows_only_by_modify_wrapper (Pw Pa : string → nat → Prop) r f :
  (∀ w, same_keys_w w (f w)) →
  (∀ w k c, w_all_commands (f w) !! k = Some c →
            w_all_commands w !! k = Some c ∨ Pw k c) →
  grows_only_by Pw Pa (modify_wrapper r f).
Proof.
  intros Hkeys Hentries h h' res.
  unfold modify_wrapper, bind, get_wrapper, put_wrapper.
  destruct (wrappers h !! r) as [w|] eqn:Hw; [|done]. intros [= <- <-].
  apply grows_by_put_wrapper with w; [done|apply Hkeys|apply Hentries].
Qed.

Lemma grows_only_by_modify_adapter (Pw Pa : string → nat → Prop) r f :
  (∀ a, same_keys_a a (f a)) →
  (∀ a k c, a_children (f a) !! k = Some c →
            a_children a !! k = Some c ∨ Pa k c) →
  grows_only_by Pw Pa (modify_adapter r f).
Proof.
  intros Hkeys Hentries h h' res.
  unfold modify_adapter, bind, get_adapter, put_adapter.
  destruct (adapters h !! r) as [a|] eqn:Ha; [|done]. intros [= <- <-].
  apply grows_by_put_adapter with a; [done|apply Hkeys|apply Hentries].
Qed.

Lemma grows_only_by_all_commands_contains Pw Pa self name :
  grows_only_by Pw Pa (all_commands_contains self name).
Proof.
  apply grows_only_by_bind; [apply grows_only_by_get_wrapper|].
  intros w. apply grows_only_by_ret.
Qed.

Lemma grows_only_by_all_commands_set (Pw Pa : string → nat → Prop)
    self name command :
  Pw name command →
  grows_only_by Pw Pa (all_commands_set self name command).
Proof.
  intros HP. apply grows_only_by_modify_wrapper.
  - intros w. by repeat split.
  - intros w k c. simpl. rewrite lookup_insert. case_decide.
    + subst. intros [= <-]. by right.
    + by left.
Qed.

(** The mapping of a group is replaced by one with no entry that is
    not allowed. *)
Lemma grows_by_upd_cmds (Pw Pa : string → nat → Prop) h self m m' :
  cmds h self m →
  (∀ k c, m' !! k = Some c → m !! k = Some c ∨ Pw k c) →
  grows_by Pw Pa h (upd_cmds self m' h).
Proof.
  intros (w & Hw & <-) Hentries.
  assert (upd_cmds self m' h
          = {| wrappers := <[self := set_w_all_commands m' w]> (wrappers h);
               adapters := adapters h; next_ref := next_ref h |}) as ->.
  { apply heap_eq; [|done..]. simpl. apply map_eq. intros r.
    rewrite lookup_alter, lookup_insert. case_decide; [|done].
    subst. by rewrite Hw. }
  apply grows_by_put_wrapper with w; [done|by repeat split|done].
Qed.

Lemma grows_only_by_remove_aliases Pw Pa self command aliases :
  grows_only_by Pw Pa (remove_aliases self command aliases).
Proof.
  destruct aliases as [|alias aliases]; [apply grows_only_by_ret|].
  intros h h' res Hrun.
  destruct (wrappers h !! self) as [w|] eqn:Hw.
  2:{ revert Hrun. simpl. unfold bind, all_commands_pop, bind, get_wrapper.
      by rewrite Hw. }
  assert (cmds h self (w_all_commands w)) as Hm by (by exists w).
  rewrite (remove_aliases_full _ _ (alias :: aliases) _ _ Hm) in Hrun.
  assert (h' = upd_cmds self
                 (drop_aliases command (alias :: aliases) (w_all_commands w)) h)
    as -> by congruence.
  apply grows_by_upd_cmds with (w_all_commands w); [done|].
  intros k c. rewrite lookup_drop_aliases. case_decide; [|by left].
  destruct (w_all_commands w !! k) as [c'|]; [|done]. simpl.
  case_decide; [done|]. by left.
Qed.

Lemma grows_only_by_all_commands_pop Pw Pa self name :
  grows_only_by Pw Pa (all_commands_pop self name).
Proof.
  intros h h' res Hrun.
  destruct (wrappers h !! self) as [w|] eqn:Hw.
  2:{ revert Hrun. unfold all_commands_pop, bind, get_wrapper. by rewrite Hw. }
  assert (cmds h self (w_all_commands w)) as Hm by (by exists w).
  rewrite (all_commands_pop_spec _ _ _ name Hm) in Hrun. injection Hrun as <- <-.
  apply grows_by_upd_cmds with (w_all_commands w); [done|].
  intros k c [_ ?]%lookup_delete_Some. by left.
Qed.

Lemma grows_only_by_app_Group_remove_command Pw Pa self name :
  grows_only_by Pw Pa (app_Group_remove_command self name).
Proof.
  intros h h' res.
  unfold app_Group_remove_command, bind, get_adapter, put_adapter, ret.
  destruct (adapters h !! self) as [g|] eqn:Hg; [|done]. intros [= <- <-].
  apply grows_by_put_adapter with g; [done|done|].
  intros k c. simpl. intros [_ ?]%lookup_delete_Some. by left.
Qed.

Lemma grows_only_by_remove_command Pw Pa self name :
  grows_only_by Pw Pa (remove_command self name).
Proof.
  apply grows_only_by_bind.
  { apply grows_only_by_bind; [apply grows_only_by_all_commands_pop|].
    intros [c|]; [|apply grows_only_by_ret].
    apply grows_only_by_bind; [apply grows_only_by_get_wrapper|].
    intros cw. case_bool_decide; [apply grows_only_by_ret|].
    apply grows_only_by_bind; [apply grows_only_by_remove_aliases|].
    intros _. apply grows_only_by_ret. }
  intros cmd.
  apply grows_only_by_bind; [apply grows_only_by_getattr_app_command|].
  intros app. apply grows_only_by_bind;
    [apply grows_only_by_app_Group_remove_command|].
  intros _. apply grows_only_by_ret.
Qed.

Lemma grows_only_by_add_aliases Pa self command name aliases0 aliases :
  (∀ a, a ∈ aliases → a ∈ aliases0) →
  grows_only_by (entry_of command name aliases0) Pa
    (add_aliases self command name aliases).
Proof.
  induction aliases as [|alias aliases IH]; intros Hsub; simpl;
    [apply grows_only_by_ret|].
  apply grows_only_by_bind; [apply grows_only_by_all_commands_contains|].
  intros [].
  - apply grows_only_by_bind; [apply grows_only_by_remove_command|].
    intros _. apply grows_only_by_raise.
  - apply grows_only_by_bind.
    + apply grows_only_by_all_commands_set. split; [done|].
      right. apply Hsub. by left.
    + intros _. apply IH. intros a Ha. apply Hsub. by right.
Qed.

Lemma app_Group_add_command_grows Pw h h' res ga car :
  app_Group_add_command ga car h = Some (h', res) →
  ∃ ca, adapters h !! car = Some ca
        ∧ grows_by Pw (λ k x, x = car ∧ k = a_name ca) h h'.
Proof.
  unfold app_Group_add_command. intros Hrun.
  destruct (adapters h !! car) as [ca|] eqn:Hca.
  2:{ revert Hrun. unfold bind at 1, get_adapter at 1. by rewrite Hca. }
  rewrite (bind_Some _ _ _ _ _ (get_adapter_Some _ _ _ Hca)) in Hrun.
  exists ca. split; [done|]. revert Hrun. generalize h h' res.
  change (grows_only_by Pw (λ k x, x = car ∧ k = a_name ca)
            (do g <- get_adapter ga;
             match a_class ca, a_parent g with
             | AppGroup, Some _ =>
                 raise (Exn ValueError
                          [ArgStr (a_name ca); ArgStr "is too nested"] None)
             | _, _ =>
                 match a_children g !! a_name ca with
                 | Some _ =>
                     raise (Exn CommandAlreadyRegistered [ArgStr (a_name ca)] None)
                 | None =>
                     do _ <- modify_adapter ga
                               (λ g, set_a_children
                                       (<[a_name ca := car]> (a_children g)) g);
                     modify_adapter car (set_a_parent (Some ga))
                 end
             end)).
  apply grows_only_by_bind; [apply grows_only_by_get_adapter|]. intros g.
  assert (grows_only_by Pw (λ k x, x = car ∧ k = a_name ca)
            match a_children g !! a_name ca with
            | Some _ =>
                raise (Exn CommandAlreadyRegistered [ArgStr (a_name ca)] None)
            | None =>
                do _ <- modify_adapter ga
                          (λ g, set_a_children
                                  (<[a_name ca := car]> (a_children g)) g);
                modify_adapter car (set_a_parent (Some ga))
            end) as Hrest.
  { destruct (a_children g !! a_name ca); [apply grows_only_by_raise|].
    apply grows_only_by_bind.
    - apply grows_only_by_modify_adapter; [done|].
      intros a k c. simpl. rewrite lookup_insert. case_decide.
      + subst. intros [= <-]. by right.
      + by left.
    - intros _. apply grows_only_by_modify_adapter; [done|]. by left. }
  destruct (a_class ca); [done|].
  destruct (a_parent g); [apply grows_only_by_raise|done].
Qed.

(** What [add_command] leaves behind, however it ends: entries for
    the command under its name and aliases, and its adapter under the
    adapter's name. *)
Lemma add_command_grows h h' res self command :
  add_command self command h = Some (h', res) →
  ∃ c,
    wrappers h !! command = Some c
    ∧ ∃ Pa : string → nat → Prop,
        grows_by (entry_of command (w_name c) (w_aliases c)) Pa h h'
        ∧ (∀ k x, Pa k x → ∃ ca, adapters h !! x = Some ca ∧ a_name ca = k).
Proof.
  unfold add_command. intros Hrun.
  destruct (wrappers h !! command) as [c|] eqn:Hc.
  2:{ revert Hrun. unfold bind at 1, get_wrapper at 1. by rewrite Hc. }
  rewrite (bind_Some _ _ _ _ _ (get_wrapper_Some _ _ _ Hc)) in Hrun.
  exists c. split; [done|].
  assert (h' = h →
          ∃ Pa : string → nat → Prop,
            grows_by (entry_of command (w_name c) (w_aliases c)) Pa h h'
            ∧ (∀ k x, Pa k x → ∃ ca, adapters h !! x = Some ca ∧ a_name ca = k))
    as Hsame.
  { intros ->. exists nothing. split; [apply grows_by_refl|done]. }
  destruct (negb (is_hybrid (w_class c))).
  { injection Hrun as <- <-. by apply Hsame. }
  destruct (wrappers h !! self) as [s|] eqn:Hs.
  2:{ revert Hrun. unfold bind at 1, get_wrapper at 1. by rewrite Hs. }
  rewrite (bind_Some _ _ _ _ _ (get_wrapper_Some _ _ _ Hs)) in Hrun.
  destruct (is_HybridGroup (w_class c) && bool_decide (is_Some (w_parent s))).
  { injection Hrun as <- <-. by apply Hsame. }
  unfold bind at 1 in Hrun.
  rewrite (getattr_app_command_spec _ _ _ Hs) in Hrun.
  destruct (w_app_command s) as [ga|].
  2:{ injection Hrun as <- <-. by apply Hsame. }
  unfold bind at 1 in Hrun.
  rewrite (getattr_app_command_spec _ _ _ Hc) in Hrun.
  destruct (w_app_command c) as [car|] eqn:Hcar.
  2:{ injection Hrun as <- <-. by apply Hsame. }
  unfold bind at 1 in Hrun.
  destruct (app_Group_add_command ga car h) as [[h1 [[]|e]]|] eqn:Happ;
    [| |done].
  - destruct (app_Group_add_command_grows
                (entry_of command (w_name c) (w_aliases c)) _ _ _ _ _ Happ)
      as (ca & Hca & Hgrow1).
    exists (λ k x, x = car ∧ k = a_name ca).
    split; [|by intros k x [-> ->]; eauto].
    eapply grows_by_trans; [exact Hgrow1|].
    destruct Hgrow1 as (Hbase & _).
    pose proof (Hbase command) as Hc1. rewrite Hc in Hc1.
    apply option_Forall2_Some_l in Hc1 as (c1 & Hc1 & (Hn1 & Hal1 & _)).
    rewrite (bind_Some _ _ _ _ _ (modify_wrapper_Some _ _ _ _ Hc1)) in Hrun.
    erewrite (bind_Some (get_wrapper _)) in Hrun;
      [|apply get_wrapper_Some; simpl; apply lookup_insert_eq].
    simpl w_name in Hrun. simpl w_aliases in Hrun.
    rewrite <- Hn1, <- Hal1 in Hrun.
    eapply grows_by_trans.
    + apply (grows_by_put_wrapper _ _ h1 command c1
               (set_w_parent (Some self) c1)); [done|by repeat split|by left].
    + assert (grows_only_by (entry_of command (w_name c) (w_aliases c))
                (λ k x, x = car ∧ k = a_name ca)
                (do taken <- all_commands_contains self (w_name c);
                 if taken
                 then raise (Exn CommandRegistrationError
                               [ArgStr (w_name c); ArgBool false] None)
                 else do _ <- all_commands_set self (w_name c) command;
                      add_aliases self command (w_name c) (w_aliases c)))
        as Htail.
      { apply grows_only_by_bind; [apply grows_only_by_all_commands_contains|].
        intros [].
        - apply grows_only_by_raise.
        - apply grows_only_by_bind.
          + apply grows_only_by_all_commands_set. split; [done|by left].
          + intros _. by apply grows_only_by_add_aliases. }
      eapply Htail. exact Hrun.
  - injection Hrun as <- <-.
    destruct (app_Group_add_command_grows
                (entry_of command (w_name c) (w_aliases c)) _ _ _ _ _ Happ)
      as (ca & Hca & Hgrow1).
    exists (λ k x, x = car ∧ k = a_name ca).
    split; [done|]. intros k x [-> ->]. eauto.
Qed.

Lemma keyed_grows_by (Pw Pa : string → nat → Prop) h h' :
  keyed h → grows_by Pw Pa h h' →
  (∀ k c, Pw k c →
          ∃ cw, wrappers h !! c = Some cw ∧ (k = w_name cw ∨ k ∈ w_aliases cw)) →
  (∀ k x, Pa k x → ∃ a, adapters h !! x = Some a ∧ a_name a = k) →
  keyed h'.
Proof.
  intros [Hkw Hka] (Hbw & Hba & Hew & Hea) HPw HPa.
  assert (∀ k c,
            (∃ cw, wrappers h !! c = Some cw
                   ∧ (k = w_name cw ∨ k ∈ w_aliases cw)) →
            ∃ cw, wrappers h' !! c = Some cw
                  ∧ (k = w_name cw ∨ k ∈ w_aliases cw)) as Hw_over.
  { intros k c (cw & Hcw & Hk). pose proof (Hbw c) as Hc. rewrite Hcw in Hc.
    apply option_Forall2_Some_l in Hc as (cw' & Hcw' & (Hn & Hal & _)).
    exists cw'. split; [done|]. by rewrite <- Hn, <- Hal. }
  assert (∀ k x,
            (∃ a, adapters h !! x = Some a ∧ a_name a = k) →
            ∃ a, adapters h' !! x = Some a ∧ a_name a = k) as Ha_over.
  { intros k x (a & Ha & Hk). pose proof (Hba x) as Hx. rewrite Ha in Hx.
    apply option_Forall2_Some_l in Hx as (a' & Ha' & Hn).
    exists a'. split; [done|]. by rewrite <- Hn. }
  split.
  - intros r w' k c Hw' Hk. pose proof (Hbw r) as Hr. rewrite Hw' in Hr.
    apply option_Forall2_Some_r in Hr as (w & Hw & _).
    apply Hw_over.
    destruct (Hew r w w' k c Hw Hw' Hk) as [Hold|Hnew];
      [by eapply Hkw|by apply HPw].
  - intros r w' ga g' k ca Hw' Happ Hg' Hk.
    pose proof (Hbw r) as Hr. rewrite Hw' in Hr.
    apply option_Forall2_Some_r in Hr as (w & Hw & (_ & _ & Happ0)).
    pose proof (Hba ga) as Hga. rewrite Hg' in Hga.
    apply option_Forall2_Some_r in Hga as (g & Hg & _).
    apply Ha_over.
    destruct (Hea ga g g' k ca Hg Hg' Hk) as [Hold|Hnew]; [|by apply HPa].
    eapply Hka; [exact Hw|by rewrite Happ0|exact Hg|exact Hold].
Qed.

Lemma keyed_with_wrapper h w :
  heap_inv h → keyed h → w_all_commands w = ∅ → w_app_command w = None →
  keyed (with_wrapper w h).
Proof.
  intros Hinv [Hkw Hka] Hempty Hnone. split; simpl.
  - intros r w' k c. rewrite lookup_insert. case_decide.
    + intros [= <-]. by rewrite Hempty, lookup_empty.
    + intros Hw' Hk. destruct (Hkw r w' k c Hw' Hk) as (cw & Hcw & Hkey).
      exists cw. split; [|done]. rewrite lookup_insert_ne; [done|].
      apply (inv_fresh_w h Hinv) in Hcw. lia.
  - intros r w' ga g k ca. rewrite lookup_insert. case_decide.
    + intros [= <-]. congruence.
    + apply Hka.
Qed.

Lemma keyed_with_pair h w a :
  heap_inv h → keyed h → w_all_commands w = ∅ → a_children a = ∅ →
  w_app_command w = Some (S (next_ref h)) →
  keyed (with_pair w a h).
Proof.
  intros Hinv [Hkw Hka] Hempty Hnochild Happ. split; simpl.
  - intros r w' k c. rewrite lookup_insert. case_decide.
    + intros [= <-]. by rewrite Hempty, lookup_empty.
    + intros Hw' Hk. destruct (Hkw r w' k c Hw' Hk) as (cw & Hcw & Hkey).
      exists cw. split; [|done]. rewrite lookup_insert_ne; [done|].
      apply (inv_fresh_w h Hinv) in Hcw. lia.
  - intros r w' ga g k ca. rewrite lookup_insert. case_decide.
    + intros [= <-]. rewrite Happ. intros [= <-]. rewrite lookup_insert_eq.
      intros [= <-]. by rewrite Hnochild, lookup_empty.
    + intros Hw' Hga.
      destruct (inv_pair h Hinv r w' ga Hw' Hga) as (g0 & Hg0 & _).
      rewrite lookup_insert_ne by (apply (inv_fresh_a h Hinv) in Hg0; lia).
      intros Hg Hk. destruct (Hka r w' ga g k ca Hw' Hga Hg Hk) as (a' & Ha' & Hn).
      exists a'. split; [|done]. rewrite lookup_insert_ne; [done|].
      apply (inv_fresh_a h Hinv) in Ha'. lia.
Qed.

Lemma keyed_with_adapter h a :
  heap_inv h → keyed h → keyed (with_adapter a h).
Proof.
  intros Hinv [Hkw Hka]. split; simpl; [done|].
  intros r w' ga g k ca Hw' Hga.
  destruct (inv_pair h Hinv r w' ga Hw' Hga) as (g0 & Hg0 & _).
  rewrite lookup_insert_ne by (apply (inv_fresh_a h Hinv) in Hg0; lia).
  intros Hg Hk. destruct (Hka r w' ga g k ca Hw' Hga Hg Hk) as (a' & Ha' & Hn).
  exists a'. split; [|done]. rewrite lookup_insert_ne; [done|].
  apply (inv_fresh_a h Hinv) in Ha'. lia.
Qed.

Lemma run_keyed valid o h h' res :
  heap_inv h → keyed h → run valid o h = Some (h', res) → keyed h'.
Proof.
  intros Hinv Hkeyed.
  destruct o as [kw|kw|self value|self made|self command|self name]; simpl.
  - intros (r & Hrun)%discard_inv. rewrite HybridCommand_init_spec in Hrun.
    destruct (valid (attr_name kw)); injection Hrun as <- <-.
    + by apply keyed_with_pair.
    + by apply keyed_with_wrapper.
  - intros (r & Hrun)%discard_inv.
    apply HybridGroup_init_inv in Hrun as [[-> _]|(parent & _ & ->)].
    + by apply keyed_with_wrapper.
    + by apply keyed_with_pair.
  - intros (w & Hw & Hcls & Hrun)%on_class_inv.
    apply (set_cog_inv _ _ _ _ _ _ Hw) in Hrun
      as [[Hnone ->]|(ar & a & Har & Ha & _ & ->)].
    + eapply (keyed_grows_by nothing nothing); [done| |done|done].
      apply (grows_by_put_wrapper _ _ h self w (set_w_cog value w));
        [done|by repeat split|by left].
    + eapply (keyed_grows_by nothing nothing); [done| |done|done].
      apply (grows_by_trans _ _ _
               {| wrappers := <[self:=set_w_cog value w]> (wrappers h);
                  adapters := adapters h; next_ref := next_ref h |}).
      * apply (grows_by_put_wrapper _ _ h self w (set_w_cog value w));
          [done|by repeat split|by left].
      * pose proof (grows_by_put_adapter nothing nothing
                 {| wrappers := <[self:=set_w_cog value w]> (wrappers h);
                    adapters := adapters h; next_ref := next_ref h |}
                 ar a (set_a_binding value a)) as Hput.
        simpl in Hput. apply Hput; [done|done|by left].
  - intros (a & Ha & Hcls & (r & Hrun)%discard_inv)%on_adapter_class_inv.
    rewrite (copy_with_spec _ _ _ _ Hinv Ha) in Hrun. injection Hrun as <- <-.
    by apply keyed_with_adapter.
  - intros (w & Hw & Hcls & Hrun)%on_class_inv.
    apply add_command_grows in Hrun as (c & Hc & Pa & Hgrow & HPa).
    eapply keyed_grows_by; [done|exact Hgrow| |exact HPa].
    intros k c' [-> Hk]. by exists c.
  - intros (w & Hw & Hcls & (r & Hrun)%discard_inv)%on_class_inv.
    eapply (keyed_grows_by nothing nothing); [done| |done|done].
    by eapply grows_only_by_remove_command.
Qed.

Lemma keyed_empty : keyed empty_heap.
Proof. split; simpl; intros *; by rewrite lookup_empty. Qed.

(** X16: in every heap a program reaches, every key of the command
    mapping of a group is the name or an alias of the command it leads
    to, and every key under which the adapter of a wrapper holds a
    child is the name of that child adapter. *)
Theorem reachable_keyed (valid : string → bool) (h : heap) :
  reachable valid h → keyed h.
Proof.
  induction 1 as [|h o h' Hreach IH [res Hrun]]; [apply keyed_empty|].
  eapply run_keyed; [|exact IH|exact Hrun].
  by eapply reachable_heap_inv.
Qed.

Lemma reachable_keyed_witness :
  ∃ cw, wrappers (heap_of cfg_with_foo) !! 2 = Some cw
        ∧ ("bar" = w_name cw ∨ "bar" ∈ w_aliases cw).
Proof.
  destruct (reachable_keyed valid_name (heap_of cfg_with_foo)) as [H _].
  { apply heap_of_run_all_reachable, reachable_empty. }
  apply (H 0 cfg_wrapper "bar" 2); by vm_compute.
Defined.

End registry_keys.
